(** * Semantic-change measurement: [calculate_semantic_change.py]

    A shallow embedding of the analysis script and the proofs of the
    properties stated about it.

    Conventions of the embedding.
    - A [float64] is a real number when it is finite, and [None] when it is
      not (nan, +inf and -inf are not told apart).  Rounding, overflow and
      signed zeros are outside the model: arithmetic on finite values is the
      arithmetic of [R].
    - A character of a [str] is a code point below 256: the Latin-1
      range, which holds the letters of English, German, Latin and
      Swedish.  The word characters of a regular expression are those of
      Unicode in that range.
    - NumPy arrays that are passed around by reference live in a heap of
      the [world]; [print] appends to the world's standard output; the
      files written by the script are kept in a map from path to content,
      and the directories it makes in a list.
    - Python exceptions are the [Raise] outcome of the monad [M]; the
      world at the point of the raise is kept.
    - The regular-expression engine, the case mapping of [str.upper], the
      clustering estimators of scikit-learn and the answers of the
      operating system when a directory is made or a file is opened are
      not part of the script: they are the fields of the record
      [Library]. *)

From Stdlib Require Import String Ascii.
From Stdlib Require Import Reals Lra Lia List ZArith Bool.
From Stdlib Require Import Permutation Sorted.
Import ListNotations.

(* ================================================================= *)
(** ** Values *)

Definition float64 := option R.
Definition fin (r : R) : float64 := Some r.
Definition nonfinite : float64 := None.

Definition vec := list R.
Definition ndarray := list float64.
Definition loc := nat.

Inductive pyobj :=
| PyNone
| PyFloat (x : float64)
| PyInt (n : Z)
| PyStr (s : string).

(** An argument of [compute_jsd]: a Python list of floats, or a reference
    to a float ndarray. *)
Inductive pyval :=
| PyList (xs : list R)
| NdArray (l : loc).

(** [ReError] is [re.error]; [OSError] stands for its subclasses too
    ([FileNotFoundError], [PermissionError], ...). *)
Inductive exn :=
| ValueError
| IndexError
| SystemExit
| ReError
| OSError.

Inductive outcome (A : Type) :=
| Ok (a : A)
| Raise (e : exn).
Arguments Ok {A} a.
Arguments Raise {A} e.

(** One row of the results table. *)
Record row := mk_row {
  r_word : string;
  r_aff_prop : float64;
  r_kmeans_5 : float64;
  r_kmeans_7 : float64;
  r_averaging : R;
  r_aff_prop_clusters : nat
}.

(** A Python [dict] keyed by strings, in insertion order. *)
Definition dict (V : Type) := list (string * V).

Definition labels_entry := (list Z * list Z)%type.      (* {t1: ..., t2: ...} *)
Definition sents_entry := (list string * list string)%type.

Inductive file_content :=
| Csv (table : list row)
| PickleLabels (d : dict labels_entry)
| PickleCentroids (d : dict (list vec))
| PickleSents (d : dict sents_entry).

Record world := mk_world {
  heap : list ndarray;
  stdout : list (list pyobj);
  files : dict file_content;
  dirs : list string
}.

(* ================================================================= *)
(** ** The monad of the script: state and exceptions *)

Definition M (A : Type) := world -> outcome A * world.

Definition ret {A} (a : A) : M A := fun w => (Ok a, w).

Definition bind {A B} (m : M A) (k : A -> M B) : M B :=
  fun w => match m w with
           | (Ok a, w') => k a w'
           | (Raise e, w') => (Raise e, w')
           end.

Definition raise {A} (e : exn) : M A := fun w => (Raise e, w).

Definition lift {A} (o : outcome A) : M A := fun w => (o, w).

Notation "x <- m ;; k" := (bind m (fun x => k))
  (at level 61, m at next level, right associativity).
Notation "m ;;; k" := (bind m (fun _ => k))
  (at level 61, right associativity).

Definition print (items : list pyobj) : M unit :=
  fun w => (Ok tt, mk_world (heap w) (stdout w ++ [items]) (files w) (dirs w)).

(** [np.array(...)] / any expression that builds a new array object. *)
Definition alloc (a : ndarray) : M loc :=
  fun w => (Ok (length (heap w)), mk_world (heap w ++ [a]) (stdout w) (files w) (dirs w)).

Definition heap_get (h : list ndarray) (l : loc) : ndarray := nth l h [].

Fixpoint heap_set (h : list ndarray) (l : loc) (a : ndarray) : list ndarray :=
  match h, l with
  | [], _ => []
  | _ :: h', O => a :: h'
  | x :: h', S l' => x :: heap_set h' l' a
  end.

Definition read (l : loc) : M ndarray :=
  fun w => (Ok (heap_get (heap w) l), w).

Definition write (l : loc) (a : ndarray) : M unit :=
  fun w => (Ok tt, mk_world (heap_set (heap w) l a) (stdout w) (files w) (dirs w)).

(** Python [d[k] = v]: replace the value of an existing key, append a new
    key at the end. *)
Fixpoint dict_set {V} (d : dict V) (k : string) (v : V) : dict V :=
  match d with
  | [] => [(k, v)]
  | (k', v') :: d' =>
      if String.eqb k' k then (k', v) :: d' else (k', v') :: dict_set d' k v
  end.

Fixpoint dict_get {V} (d : dict V) (k : string) : option V :=
  match d with
  | [] => None
  | (k', v') :: d' => if String.eqb k' k then Some v' else dict_get d' k
  end.

(** [path] is the path of a directory that was made, or of a file.  The
    empty path names nothing. *)
Definition path_exists (w : world) (path : string) : bool :=
  negb (String.eqb path EmptyString) &&
  (existsb (String.eqb path) (dirs w) ||
   match dict_get (files w) path with Some _ => true | None => false end).

(** [os.path.exists(path)] *)
Definition os_path_exists (path : string) : M bool :=
  fun w => (Ok (path_exists w path), w).

(* ================================================================= *)
(** ** NumPy and SciPy *)

Open Scope R_scope.

Definition fadd (x y : float64) : float64 :=
  match x, y with
  | Some a, Some b => Some (a + b)
  | _, _ => None
  end.

Definition fdiv (x y : float64) : float64 :=
  match x, y with
  | Some a, Some b => if Req_dec_T b 0 then None else Some (a / b)
  | _, _ => None
  end.

Definition np_sum (a : ndarray) : float64 := fold_right fadd (Some 0) a.

(** [a / s] for an array [a] and a scalar [s]. *)
Definition array_div (a : ndarray) (s : float64) : ndarray :=
  map (fun x => fdiv x s) a.

(** [np.mean] of a one-dimensional sequence; nan on an empty one. *)
Definition np_mean (a : ndarray) : float64 :=
  fdiv (np_sum a) (Some (INR (length a))).

(** [np.broadcast_arrays] on one-dimensional arrays. *)
Definition broadcast_arrays (a b : ndarray) : outcome (ndarray * ndarray) :=
  if Nat.eqb (length a) (length b) then Ok (a, b)
  else match a, b with
       | [x], _ => Ok (repeat x (length b), b)
       | _, [y] => Ok (a, repeat y (length a))
       | _, _ => Raise ValueError
       end.

Fixpoint zip_with {A B C} (f : A -> B -> C) (a : list A) (b : list B) : list C :=
  match a, b with
  | x :: a', y :: b' => f x y :: zip_with f a' b'
  | _, _ => []
  end.

(** [a + b] *)
Definition array_add (a b : ndarray) : outcome ndarray :=
  match broadcast_arrays a b with
  | Ok (a', b') => Ok (zip_with fadd a' b')
  | Raise e => Raise e
  end.

(** [scipy.special.rel_entr] *)
Definition rel_entr (x y : float64) : float64 :=
  match x, y with
  | Some a, Some b =>
      if Rlt_dec 0 a then
        if Rlt_dec 0 b then Some (a * ln (a / b)) else None
      else if Req_dec_T a 0 then
        if Rle_dec 0 b then Some 0 else None
      else None
  | _, _ => None
  end.

(** [scipy.stats.entropy(pk, qk)]: both arguments are normalised to sum
    to one, then the relative entropies are summed. *)
Definition entropy (pk qk : ndarray) : outcome float64 :=
  let pk := array_div pk (np_sum pk) in
  match broadcast_arrays pk qk with
  | Ok (pk, qk) =>
      let qk := array_div qk (np_sum qk) in
      Ok (np_sum (zip_with rel_entr pk qk))
  | Raise e => Raise e
  end.

(** [np.asarray]: an ndarray is returned as it is (the same object), a
    list is copied into a new array. *)
Definition asarray (v : pyval) : M loc :=
  match v with
  | NdArray l => ret l
  | PyList xs => alloc (map fin xs)
  end.

(** [a /= a.sum()] on the array object at [l]. *)
Definition idiv_sum (l : loc) : M unit :=
  a <- read l ;;
  write l (array_div a (np_sum a)).

(* ================================================================= *)
(** ** [compute_jsd] *)

Definition compute_jsd (p q : pyval) : M float64 :=
  p <- asarray p ;;
  q <- asarray q ;;
  idiv_sum p ;;;
  idiv_sum q ;;;
  pa <- read p ;;
  qa <- read q ;;
  s <- lift (array_add pa qa) ;;
  let m := array_div s (Some 2) in
  e1 <- lift (entropy pa m) ;;
  e2 <- lift (entropy qa m) ;;
  ret (fdiv (fadd e1 e2) (Some 2)).

(* ================================================================= *)
(** ** scikit-learn and [re] *)

(** What the script takes from its libraries and from the operating
    system without the embedding looking inside:
    - [re_search regex text] is [re.search(regex, text)]: whether there is
      a match, or the exception ([re.error] for a pattern that is not a
      regular expression);
    - [str_upper s] is [s.upper()];
    - [AffinityPropagation_fit preference X] is
      [AffinityPropagation(preference=preference).fit(X)], given by its
      [labels_] and [cluster_centers_]; [AffinityPropagation()] is the
      estimator with [preference=None];
    - [DBSCAN_fit X] is [DBSCAN().fit(X).labels_];
    - [KMeans_fit k seed X] is
      [KMeans(n_clusters=k, random_state=seed).fit(X)];
    - [can_makedirs path] tells whether the operating system makes the
      directory [path], which does not exist, and [can_open path] whether
      it opens the file [path] for writing; when it does not, the call
      raises an [OSError].  The answers are those of one run: they do not
      change while the script runs. *)
Record Library := mk_library {
  re_search : string -> string -> outcome bool;
  str_upper : string -> string;
  AffinityPropagation_fit : option R -> list vec -> outcome (list Z * list vec);
  DBSCAN_fit : list vec -> outcome (list Z);
  KMeans_fit : nat -> nat -> list vec -> outcome (list Z * list vec);
  can_makedirs : string -> bool;
  can_open : string -> bool
}.

Definition dot (a b : vec) : R := fold_right Rplus 0 (zip_with Rmult a b).

Definition l2_norm (a : vec) : R := sqrt (dot a a).

(** [sklearn.preprocessing.normalize] of one row: a zero norm is replaced
    by one. *)
Definition normalize (a : vec) : vec :=
  let n := l2_norm a in
  let n := if Req_dec_T n 0 then 1 else n in
  map (fun x => x / n) a.

(** [cosine_similarity([a], [b])[0][0]] *)
Definition cosine_similarity (a b : vec) : outcome R :=
  match a, b with
  | [], _ | _, [] => Raise ValueError
  | _, _ =>
      if Nat.eqb (length a) (length b)
      then Ok (dot (normalize a) (normalize b))
      else Raise ValueError
  end.

(** [np.mean(X, axis=0)] of the array built from a list of rows of one
    length: [None] is the nan scalar that the mean of [np.array([])] is. *)
Definition np_mean_axis0 (X : list vec) : option vec :=
  match X with
  | [] => None
  | x :: rest =>
      Some (map (fun s => s / INR (length X)) (fold_left (zip_with Rplus) rest x))
  end.

(** [np.concatenate([a, b], axis=0)] of the arrays built from two lists of
    rows: [np.array([])] has one dimension and does not go with a
    two-dimensional array. *)
Definition np_concatenate (a b : list vec) : outcome (list vec) :=
  match a, b with
  | [], [] => Ok []
  | [], _ | _, [] => Raise ValueError
  | x :: _, y :: _ =>
      if Nat.eqb (length x) (length y) then Ok (a ++ b) else Raise ValueError
  end.

(** [Counter(labels)[i]] *)
Definition Counter (labels : list Z) (i : Z) : nat := count_occ Z.eq_dec labels i.

(** [list(set(labels))]; the order in which a set is listed is not
    fixed by Python, see [JS_divergence_perm]. *)
Definition list_set (labels : list Z) : list Z := nodup Z.eq_dec labels.

Fixpoint mapM {A B} (f : A -> M B) (l : list A) : M (list B) :=
  match l with
  | [] => ret []
  | x :: l' => y <- f x ;; ys <- mapM f l' ;; ret (y :: ys)
  end.

(* ================================================================= *)
(** ** The functions of the script *)

Section Functions.

Variable lib : Library.

(** [os.makedirs(path)] for a [path] that does not exist: the empty path
    is refused ([FileNotFoundError]). *)
Definition os_makedirs (path : string) : M unit :=
  if String.eqb path EmptyString then raise OSError
  else if can_makedirs lib path
  then fun w => (Ok tt, mk_world (heap w) (stdout w) (files w) (path :: dirs w))
  else raise OSError.

(** [open(path, 'wb')] + [dump], or [to_csv(path)]: when the file opens,
    it is truncated and holds the new content only. *)
Definition write_file (path : string) (c : file_content) : M unit :=
  if can_open lib path
  then fun w => (Ok tt, mk_world (heap w) (stdout w) (dict_set (files w) path c) (dirs w))
  else raise OSError.

Definition cluster_word_embeddings_aff_prop
    (word_embeddings : list vec) (preference : option R)
  : M (list Z * list vec) :=
  clustering <- lift (match preference with
                      | Some p => AffinityPropagation_fit lib (Some p) word_embeddings
                      | None => AffinityPropagation_fit lib None word_embeddings
                      end) ;;
  let labels := fst clustering in
  let counts := list_set labels in
  print [PyStr "Aff prop num of clusters:"; PyInt (Z.of_nat (length counts))] ;;;
  let exemplars := snd clustering in
  ret (labels, exemplars).

Definition cluster_word_embeddings_dbscan (word_embeddings : list vec)
  : M (list Z) :=
  labels <- lift (DBSCAN_fit lib word_embeddings) ;;
  let counts := list_set labels in
  print [PyStr "DBSCAN num of clusters:"; PyInt (Z.of_nat (length counts))] ;;;
  ret labels.

Definition cluster_word_embeddings_k_means (word_embeddings : list vec) (k : nat)
  : M (list Z * list vec) :=
  clustering <- lift (KMeans_fit lib k 0 word_embeddings) ;;
  let labels := fst clustering in
  let exemplars := snd clustering in
  ret (labels, exemplars).

End Functions.

Definition compute_mean_dist (t1_embeddings t2_embeddings : list vec) : M pyobj :=
  mean_overall <-
    mapM (fun x1 =>
            mean_i <- mapM (fun x2 =>
                              c <- lift (cosine_similarity x1 x2) ;;
                              let dist := 1 - c in
                              ret (fin dist))
                           t2_embeddings ;;
            ret (np_mean mean_i))
         t1_embeddings ;;
  let mean_overall := np_mean mean_overall in
  print [PyStr "Mean cosine dist:"; PyFloat mean_overall] ;;;
  ret PyNone.

Definition compute_averaged_embedding_dist (t1_embeddings t2_embeddings : list vec)
  : M R :=
  let t1_mean := np_mean_axis0 t1_embeddings in
  let t2_mean := np_mean_axis0 t2_embeddings in
  match t1_mean, t2_mean with
  | Some m1, Some m2 =>
      c <- lift (cosine_similarity m1 m2) ;;
      let dist := 1 - c in
      print [PyStr "Averaged embedding cosine dist:"; PyFloat (fin dist)] ;;;
      ret dist
  | _, _ => raise ValueError
  end.

Definition compute_divergence_from_cluster_labels (labels1 labels2 : list Z)
  : M float64 :=
  let labels_all := labels1 ++ labels2 in
  let counts1 := Counter labels1 in
  let counts2 := Counter labels2 in
  let n_senses := list_set labels_all in
  let t1 := map counts1 n_senses in
  let t2 := map counts2 n_senses in
  let as_float (n : nat) := fin (INR n) in
  t1_dist <- alloc (array_div (map as_float t1) (as_float (fold_right Nat.add O t1))) ;;
  t2_dist <- alloc (array_div (map as_float t2) (as_float (fold_right Nat.add O t2))) ;;
  jsd <- compute_jsd (NdArray t1_dist) (NdArray t2_dist) ;;
  print [PyStr "clustering JSD:"; PyFloat jsd] ;;;
  ret jsd.

(* ================================================================= *)
(** ** The script's main part *)

Record args := mk_args {
  language : string;
  one_embedding_per_sentence : bool;
  semeval_results : string;
  embeddings_path : string
}.

(** The values [argparse] gives when the command line is empty. *)
Definition default_args : args :=
  mk_args "english" false "semeval_results/" "embeddings_english.pickle".

(** The value of one key of the pickled embeddings. *)
Record word_embeddings := mk_word_embeddings {
  t1 : list vec;
  t2 : list vec;
  t1_text : list string;
  t2_text : list string
}.

Record results_dict_t := mk_results_dict {
  col_word : list string;
  col_aff_prop : list float64;
  col_kmeans_5 : list float64;
  col_kmeans_7 : list float64;
  col_averaging : list R;
  col_aff_prop_clusters : list nat
}.

(** The variables of the script that live across the words. *)
Record accumulators := mk_accumulators {
  results_dict : results_dict_t;
  sentence_dict : dict sents_entry;
  aff_prop_labels_dict : dict labels_entry;
  aff_prop_centroids_dict : dict (list vec);
  kmeans_5_labels_dict : dict labels_entry;
  kmeans_5_centroids_dict : dict (list vec);
  kmeans_7_labels_dict : dict labels_entry;
  kmeans_7_centroids_dict : dict (list vec)
}.

Definition initial_accumulators : accumulators :=
  mk_accumulators (mk_results_dict [] [] [] [] [] []) [] [] [] [] [] [] [].

(** [s.replace(old, new)] for a non-empty [old]: [skip] counts the
    characters of a replaced occurrence that are still to be passed. *)
Fixpoint replace_from (old new : string) (skip : nat) (s : string) : string :=
  match s with
  | EmptyString => EmptyString
  | String c s' =>
      match skip with
      | S k => replace_from old new k s'
      | O =>
          if String.prefix old s
          then String.append new (replace_from old new (String.length old - 1) s')
          else String c (replace_from old new 0 s')
      end
  end.

Definition replace (s old new : string) : string := replace_from old new 0 s.

(** The word without its [_vb] and [_nn]: the two [replace] calls of
    line 143, each with the empty string as the replacement. *)
Definition strip_pos (word : string) : string :=
  replace (replace word "_vb" EmptyString) "_nn" EmptyString.

(** The pattern of line 143: [\b], the stripped word, [\b]. *)
Definition word_regex (word : string) : string :=
  String.append "\b" (String.append (strip_pos word) "\b").

Definition text_in (text : string) (text_seen : list string) : bool :=
  existsb (String.eqb text) text_seen.

(** [pd.DataFrame.from_dict]: the columns side by side. *)
Fixpoint zip_rows (w : list string) (a k5 k7 : list float64) (av : list R)
    (n : list nat) : list row :=
  match w, a, k5, k7, av, n with
  | w0 :: w', a0 :: a', b0 :: k5', c0 :: k7', d0 :: av', n0 :: n' =>
      mk_row w0 a0 b0 c0 d0 n0 :: zip_rows w' a' k5' k7' av' n'
  | _, _, _, _, _, _ => []
  end.

Definition from_dict (d : results_dict_t) : outcome (list row) :=
  let n := length (col_word d) in
  if andb (Nat.eqb (length (col_aff_prop d)) n)
     (andb (Nat.eqb (length (col_kmeans_5 d)) n)
     (andb (Nat.eqb (length (col_kmeans_7 d)) n)
     (andb (Nat.eqb (length (col_averaging d)) n)
           (Nat.eqb (length (col_aff_prop_clusters d)) n))))
  then Ok (zip_rows (col_word d) (col_aff_prop d) (col_kmeans_5 d)
                    (col_kmeans_7 d) (col_averaging d) (col_aff_prop_clusters d))
  else Raise ValueError.

(** The order of [sort_values(by=['aff_prop'], ascending=False)]: larger
    scores first, nan last.  (A score of the script that is not finite is
    a nan: it comes from a division of zero by zero.) *)
Definition precedes (x y : float64) : bool :=
  match x, y with
  | Some a, Some b => if Rle_dec b a then true else false
  | _, None => true
  | None, Some _ => false
  end.

Fixpoint insert_row (r : row) (t : list row) : list row :=
  match t with
  | [] => [r]
  | r' :: t' =>
      if precedes (r_aff_prop r) (r_aff_prop r')
      then r :: t
      else r' :: insert_row r t'
  end.

(** Rows with equal scores may come out of pandas in any order; here they
    keep their order. *)
Definition sort_values (t : list row) : list row := fold_right insert_row [] t.

Section Main.

Variable lib : Library.

(** The loop over [idx] for one time slice; [embs] is [emb[ts]], [texts]
    is [emb[ts + '_text']]; the result is what was appended to the
    slice's [embeddings] and [texts] lists. *)
Fixpoint slice_loop (regex : string) (oneEmbPerSentence : bool)
    (embs : list vec) (texts : list string) (idxs : list nat)
    (text_seen : list string) (embeddings : list vec) (sents : list string)
  : outcome (list vec * list string) :=
  match idxs with
  | [] => Ok (embeddings, sents)
  | idx :: idxs' =>
      match nth_error embs idx, nth_error texts idx with
      | Some e, Some text =>
          match re_search lib regex text with
          | Raise err => Raise err
          | Ok found =>
              if negb found
              then slice_loop regex oneEmbPerSentence embs texts idxs'
                              text_seen embeddings sents
              else if oneEmbPerSentence
              then if text_in text text_seen
                   then slice_loop regex oneEmbPerSentence embs texts idxs'
                                   text_seen embeddings sents
                   else slice_loop regex oneEmbPerSentence embs texts idxs'
                                   (text :: text_seen)
                                   (embeddings ++ [e]) (sents ++ [text])
              else slice_loop regex oneEmbPerSentence embs texts idxs'
                              text_seen (embeddings ++ [e]) (sents ++ [text])
          end
      | _, _ => Raise IndexError
      end
  end.

Definition filter_slice (regex : string) (oneEmbPerSentence : bool)
    (embs : list vec) (texts : list string)
  : outcome (list vec * list string) :=
  slice_loop regex oneEmbPerSentence embs texts (seq 0 (length embs)) [] [] [].

(** Lines 138-169: the occurrences of both slices that are kept. *)
Definition filter_occurrences (oneEmbPerSentence : bool) (word : string)
    (emb : word_embeddings)
  : outcome ((list vec * list string) * (list vec * list string)) :=
  let regex := word_regex word in
  match filter_slice regex oneEmbPerSentence (t1 emb) (t1_text emb) with
  | Raise e => Raise e
  | Ok s1 =>
      match filter_slice regex oneEmbPerSentence (t2 emb) (t2_text emb) with
      | Raise e => Raise e
      | Ok s2 => Ok (s1, s2)
      end
  end.

(** The three labels-and-centroids files and the sentences file. *)
Definition save_pickles (results_dir lang : string) (acc : accumulators) : M unit :=
  let labels_file := String.append results_dir (String.append "aff_prop_labels_" (String.append lang ".pkl")) in
  let centroids_file := String.append results_dir (String.append "aff_prop_centroids_" (String.append lang ".pkl")) in
  write_file lib labels_file (PickleLabels (aff_prop_labels_dict acc)) ;;;
  write_file lib centroids_file (PickleCentroids (aff_prop_centroids_dict acc)) ;;;
  let labels_file := String.append results_dir (String.append "kmeans_5_labels_" (String.append lang ".pkl")) in
  let centroids_file := String.append results_dir (String.append "kmeans_5_centroids_" (String.append lang ".pkl")) in
  write_file lib labels_file (PickleLabels (kmeans_5_labels_dict acc)) ;;;
  write_file lib centroids_file (PickleCentroids (kmeans_5_centroids_dict acc)) ;;;
  let labels_file := String.append results_dir (String.append "kmeans_7_labels_" (String.append lang ".pkl")) in
  let centroids_file := String.append results_dir (String.append "kmeans_7_centroids_" (String.append lang ".pkl")) in
  write_file lib labels_file (PickleLabels (kmeans_7_labels_dict acc)) ;;;
  write_file lib centroids_file (PickleCentroids (kmeans_7_centroids_dict acc)) ;;;
  let sents_file := String.append results_dir (String.append "sents_" (String.append lang ".pkl")) in
  write_file lib sents_file (PickleSents (sentence_dict acc)).

Definition csv_path (results_dir lang : string) : string :=
  String.append results_dir (String.append "results_" (String.append lang ".csv")).

(** The body of the loop over the target words, for the word number [i]
    (counted from zero). *)
Definition process_word (a : args) (i : nat) (word : string)
    (emb : word_embeddings) (acc : accumulators) : M accumulators :=
  let oneEmbPerSentence := one_embedding_per_sentence a in
  let results_dir := semeval_results a in
  let lang := language a in
  print [PyStr (String "010" "======="); PyInt (Z.of_nat i + 1);
         PyStr "- word:"; PyStr (str_upper lib word); PyStr "======="] ;;;
  kept <- lift (filter_occurrences oneEmbPerSentence word emb) ;;
  let embeddings1 := fst (fst kept) in
  let texts1 := snd (fst kept) in
  let embeddings2 := fst (snd kept) in
  let texts2 := snd (snd kept) in
  print [PyStr "t1 num. occurences: "; PyInt (Z.of_nat (length embeddings1))] ;;;
  print [PyStr "t2 num. occurences: "; PyInt (Z.of_nat (length embeddings2))] ;;;
  let sentence_dict' := dict_set (sentence_dict acc) word (texts1, texts2) in
  average_dist <- compute_averaged_embedding_dist embeddings1 embeddings2 ;;
  embeddings_concat <- lift (np_concatenate embeddings1 embeddings2) ;;

  aff <- cluster_word_embeddings_aff_prop lib embeddings_concat None ;;
  let aff_prop_labels := fst aff in
  let aff_prop_centroids := snd aff in
  let clusters1_aff := firstn (length embeddings1) aff_prop_labels in
  let clusters2_aff := skipn (length embeddings1) aff_prop_labels in
  let n_senses := length (list_set aff_prop_labels) in
  aff_prop_jsd <- compute_divergence_from_cluster_labels clusters1_aff clusters2_aff ;;

  km5 <- cluster_word_embeddings_k_means lib embeddings_concat 5 ;;
  let kmeans_5_labels := fst km5 in
  let kmeans_5_centroids := snd km5 in
  let clusters1_km5 := firstn (length embeddings1) kmeans_5_labels in
  let clusters2_km5 := skipn (length embeddings1) kmeans_5_labels in
  kmeans5_jsd <- compute_divergence_from_cluster_labels clusters1_km5 clusters2_km5 ;;

  km7 <- cluster_word_embeddings_k_means lib embeddings_concat 7 ;;
  let kmeans_7_labels := fst km7 in
  let kmeans_7_centroids := snd km7 in
  let clusters1_km7 := firstn (length embeddings1) kmeans_7_labels in
  let clusters2_km7 := skipn (length embeddings1) kmeans_7_labels in
  kmeans7_jsd <- compute_divergence_from_cluster_labels clusters1_km7 clusters2_km7 ;;

  let rd := results_dict acc in
  let acc' :=
    mk_accumulators
      (mk_results_dict
         (col_word rd ++ [word])
         (col_aff_prop rd ++ [aff_prop_jsd])
         (col_kmeans_5 rd ++ [kmeans5_jsd])
         (col_kmeans_7 rd ++ [kmeans7_jsd])
         (col_averaging rd ++ [average_dist])
         (col_aff_prop_clusters rd ++ [n_senses]))
      sentence_dict'
      (dict_set (aff_prop_labels_dict acc) word (clusters1_aff, clusters2_aff))
      (dict_set (aff_prop_centroids_dict acc) word aff_prop_centroids)
      (dict_set (kmeans_5_labels_dict acc) word (clusters1_km5, clusters2_km5))
      (dict_set (kmeans_5_centroids_dict acc) word kmeans_5_centroids)
      (dict_set (kmeans_7_labels_dict acc) word (clusters1_km7, clusters2_km7))
      (dict_set (kmeans_7_centroids_dict acc) word kmeans_7_centroids) in

  there <- os_path_exists results_dir ;;
  (if negb there then os_makedirs lib results_dir else ret tt) ;;;

  let csv_file := csv_path results_dir lang in
  results_df <- lift (from_dict (results_dict acc')) ;;
  let results_df := sort_values results_df in
  write_file lib csv_file (Csv results_df) ;;;
  save_pickles results_dir lang acc' ;;;
  print [PyStr "Done! Saved results in"; PyStr csv_file; PyStr "!"] ;;;
  ret acc'.

(** [for i, word in enumerate(target_words)], from the word number [i];
    a word of [bert_embeddings] comes with its value, since the target
    words are the keys of that dict. *)
Fixpoint words_loop (a : args) (i : nat) (items : dict word_embeddings)
    (acc : accumulators) : M accumulators :=
  match items with
  | [] => ret acc
  | (word, emb) :: items' =>
      acc' <- process_word a i word emb acc ;;
      words_loop a (S i) items' acc'
  end.

Definition languages : list string := ["english"; "latin"; "swedish"; "german"]%string.

(** The script from the parsed arguments [a] and the unpickled
    embeddings on. *)
Definition main (a : args) (bert_embeddings : dict word_embeddings) : M accumulators :=
  let lang := language a in
  if negb (existsb (String.eqb lang) languages)
  then print [PyStr "Language not valid, valid choices are: ";
              PyStr "english, latin, swedish, german"] ;;;
       raise SystemExit
  else
    let aff_prop_pref := (-430)%Z in
    print [PyStr "Clustering BERT embeddings"] ;;;
    words_loop a 0 bert_embeddings initial_accumulators.

End Main.

(* ================================================================= *)
(** ** The divergence as the specification words it *)

Definition sumR (l : list R) : R := fold_right Rplus 0 l.

(** One term of the Kullback-Leibler divergence, with [0 * log (0 / y)]
    taken as [0]. *)
Definition KL_term (x y : R) : R :=
  if Req_dec_T x 0 then 0 else x * ln (x / y).

Definition KL_divergence (p m : list R) : R := sumR (zip_with KL_term p m).

Definition midpoint (p q : list R) : list R :=
  zip_with (fun x y => (1 / 2) * (x + y)) p q.

(** [0.5 * KL(p || m) + 0.5 * KL(q || m)] with [m = 0.5 (p + q)] *)
Definition JS_divergence (p q : list R) : R :=
  let m := midpoint p q in
  (1 / 2) * KL_divergence p m + (1 / 2) * KL_divergence q m.

Definition is_distribution (p : list R) : Prop :=
  Forall (fun x => 0 <= x) p /\ sumR p = 1.

(** The share of the label [x] among [labels]. *)
Definition frequency (labels : list Z) (x : Z) : R :=
  INR (count_occ Z.eq_dec labels x) / INR (length labels).

(** The array that a value passed to [compute_jsd] stands for. *)
Definition denotes (w : world) (v : pyval) (p : list R) : Prop :=
  match v with
  | PyList xs => xs = p
  | NdArray l => (l < length (heap w))%nat /\ heap_get (heap w) l = map fin p
  end.

(* ================================================================= *)
(** ** Definitions used in the statements and in the proofs *)

(** *** Distributions and arrays *)

Definition nonneg_pair (a b : R) : Prop := 0 <= a /\ 0 <= b.

Definition normalizeR (p : list R) : list R := map (fun x => x / sumR p) p.

(** [a] may be the first and [b] the second argument of [rel_entr]
    without leaving the finite values. *)
Definition dominated (a b : R) : Prop := 0 <= a /\ 0 <= b /\ (0 < a -> 0 < b).

(** The world after [np.asarray(v)] and the array object it gives. *)
Definition asarray_world (v : pyval) (w : world) : world :=
  match v with
  | NdArray _ => w
  | PyList xs => mk_world (heap w ++ [map fin xs]) (stdout w) (files w) (dirs w)
  end.

Definition asarray_loc (v : pyval) (w : world) : loc :=
  match v with
  | NdArray l => l
  | PyList _ => length (heap w)
  end.

(** Lines 23-24, on the contents of the two arrays. *)
Definition jsd_of_arrays (pa qa : ndarray) : outcome float64 :=
  match array_add pa qa with
  | Raise e => Raise e
  | Ok s =>
      let m := array_div s (Some 2) in
      match entropy pa m with
      | Raise e => Raise e
      | Ok e1 =>
          match entropy qa m with
          | Raise e => Raise e
          | Ok e2 => Ok (fdiv (fadd e1 e2) (Some 2))
          end
      end
  end.

(** The heap after [p /= p.sum()] and [q /= q.sum()]. *)
Definition heap_after_jsd (h : list ndarray) (lp lq : loc) : list ndarray :=
  let pa := heap_get h lp in
  let h1 := heap_set h lp (array_div pa (np_sum pa)) in
  let qa := heap_get h1 lq in
  heap_set h1 lq (array_div qa (np_sum qa)).

Definition empty_world : world := mk_world [] [] [] [].

Definition sum_nat (l : list nat) : nat := fold_right Nat.add O l.

Definition nonzero_vec (a : vec) : Prop := Exists (fun x => x <> 0) a.

(** [1 - cos (x, y)] *)
Definition cosine_distance (x y : vec) : R :=
  1 - dot x y / (l2_norm x * l2_norm y).

(** The average of the cosine distance over every pair of a vector of
    [X] and a vector of [Y]. *)
Definition mean_pairwise_cosine_distance (X Y : list vec) : R :=
  let pairs := list_prod X Y in
  sumR (map (fun xy => cosine_distance (fst xy) (snd xy)) pairs) /
  INR (length pairs).

(** *** Whole words *)

(** [n] lies between [lo] and [hi]. *)
Definition between (lo hi n : nat) : bool := Nat.leb lo n && Nat.leb n hi.

(** [\w] in a [str] pattern: the alphanumeric characters of Unicode and
    the underscore.  Below 256 these are the digits, the letters and the
    underscore of ASCII, the two ordinal indicators, the superscript
    digits, the micro sign, the three vulgar fractions, and the letters
    of Latin-1 (the code points from 192 on but the multiplication and
    the division sign). *)
Definition is_word_char (c : ascii) : bool :=
  let n := nat_of_ascii c in
  between 48 57 n || between 65 90 n || between 97 122 n || Nat.eqb n 95 ||
  Nat.eqb n 170 || between 178 179 n || Nat.eqb n 181 || between 185 186 n ||
  between 188 190 n || between 192 214 n || between 216 246 n ||
  between 248 255 n.

Definition is_word (c : option ascii) : bool :=
  match c with
  | Some c => is_word_char c
  | None => false
  end.

(** [\b] between two neighbouring positions: exactly one side is a word
    character; beyond the ends of the text there is none. *)
Definition boundary (prev next : option ascii) : bool :=
  xorb (is_word prev) (is_word next).

Definition head (s : string) : option ascii :=
  match s with
  | String c _ => Some c
  | EmptyString => None
  end.

(** The last character of [s], or [prev] when [s] is empty. *)
Fixpoint last_char (prev : option ascii) (s : string) : option ascii :=
  match s with
  | EmptyString => prev
  | String c s' => last_char (Some c) s'
  end.

Fixpoint drop (n : nat) (s : string) : string :=
  match n, s with
  | O, _ => s
  | S n', String _ s' => drop n' s'
  | S _, EmptyString => EmptyString
  end.

(** [\b w \b] matches at the start of [text], which follows [prev]. *)
Definition match_here (w : string) (prev : option ascii) (text : string) : bool :=
  boundary prev (head text) && String.prefix w text &&
  boundary (last_char prev w) (head (drop (String.length w) text)).

(** [\b w \b] matches somewhere in [text], which follows [prev]. *)
Fixpoint search_from (w : string) (prev : option ascii) (text : string) : bool :=
  match_here w prev text ||
  match text with
  | EmptyString => false
  | String c text' => search_from w (Some c) text'
  end.

Definition whole_word_search (w text : string) : bool := search_from w None text.



Fixpoint string_forallb (f : ascii -> bool) (s : string) : bool :=
  match s with
  | EmptyString => true
  | String c s' => f c && string_forallb f s'
  end.



(** *** The word without its part-of-speech tags *)

(** [r] is [s] without the occurrences of [sub], found from left to right
    and not overlapping. *)
Inductive removed (sub : string) : string -> string -> Prop :=
| removed_end : removed sub EmptyString EmptyString
| removed_here (rest r : string) :
    removed sub rest r -> removed sub (String.append sub rest) r
| removed_next (c : ascii) (s r : string) :
    String.prefix sub (String c s) = false ->
    removed sub s r -> removed sub (String c s) (String c r).

(** [stem] is [word] without its [_vb], then without its [_nn]. *)
Definition without_pos_tags (word stem : string) : Prop :=
  exists s : string, removed "_vb" word s /\ removed "_nn" s stem.

(** *** The occurrences kept by the filter *)

(** The occurrences of a slice, as pairs of an embedding and its
    sentence, in the order of the slice. *)
Definition occurrences (embs : list vec) (texts : list string) : list (vec * string) :=
  combine embs texts.

(** The occurrences that are the first ones with their sentence. *)
Fixpoint first_per_text_from (seen : list string) (items : list (vec * string))
  : list (vec * string) :=
  match items with
  | [] => []
  | (e, t) :: items' =>
      if text_in t seen then first_per_text_from seen items'
      else (e, t) :: first_per_text_from (t :: seen) items'
  end.

(** The test of line 155 on an occurrence: [re.search] finds a match in
    its sentence. *)
Definition matches (lib : Library) (regex : string) (et : vec * string) : bool :=
  match re_search lib regex (snd et) with
  | Ok found => found
  | Raise _ => false
  end.

(** [re.search] raises on none of the sentences. *)
Definition searchable (lib : Library) (regex : string) (texts : list string) : Prop :=
  Forall (fun t => exists found, re_search lib regex t = Ok found) texts.

(** What the loop keeps of the occurrences that pass the test. *)
Definition select (oneEmbPerSentence : bool) (seen : list string)
    (items : list (vec * string)) : list (vec * string) :=
  if oneEmbPerSentence then first_per_text_from seen items else items.

(** *** A library to run the script on *)

(** The word of a pattern [\b w \b]. *)
Definition unwrap_word_pattern (regex : string) : string :=
  let body := drop 2 regex in
  substring 0 (String.length body - 2) body.

(** A stand-in for the estimators: all points in one cluster, the first
    point as its centre. *)
Definition one_cluster (X : list vec) : outcome (list Z * list vec) :=
  Ok (map (fun _ => 0%Z) X, firstn 1 X).

(** The capitals of the letters of ASCII; the other characters are left
    as they are. *)
Definition ascii_upper_char (c : ascii) : ascii :=
  let n := nat_of_ascii c in
  if andb (Nat.leb 97 n) (Nat.leb n 122) then ascii_of_nat (n - 32) else c.

Fixpoint ascii_upper (s : string) : string :=
  match s with
  | EmptyString => EmptyString
  | String c s' => String (ascii_upper_char c) (ascii_upper s')
  end.

(** Whole-word search for the patterns [\b w \b], capitals for the
    letters of ASCII, one cluster for every estimator, and an operating
    system that makes every directory and opens every file. *)
Definition reference_library : Library :=
  mk_library
    (fun regex text => Ok (whole_word_search (unwrap_word_pattern regex) text))
    ascii_upper
    (fun _ X => one_cluster X)
    (fun X => Ok (map (fun _ => 0%Z) X))
    (fun _ _ X => one_cluster X)
    (fun _ => true)
    (fun _ => true).





(** *** One pass of the loop over the words *)

(** The files after [save_pickles]. *)
Definition pickle_files (results_dir lang : string) (acc : accumulators)
    (fs : dict file_content) : dict file_content :=
  let path name := String.append results_dir (String.append name (String.append lang ".pkl")) in
  let fs := dict_set fs (path "aff_prop_labels_"%string) (PickleLabels (aff_prop_labels_dict acc)) in
  let fs := dict_set fs (path "aff_prop_centroids_"%string) (PickleCentroids (aff_prop_centroids_dict acc)) in
  let fs := dict_set fs (path "kmeans_5_labels_"%string) (PickleLabels (kmeans_5_labels_dict acc)) in
  let fs := dict_set fs (path "kmeans_5_centroids_"%string) (PickleCentroids (kmeans_5_centroids_dict acc)) in
  let fs := dict_set fs (path "kmeans_7_labels_"%string) (PickleLabels (kmeans_7_labels_dict acc)) in
  let fs := dict_set fs (path "kmeans_7_centroids_"%string) (PickleCentroids (kmeans_7_centroids_dict acc)) in
  dict_set fs (path "sents_"%string) (PickleSents (sentence_dict acc)).

(** The names of the pickle files, in the order in which they are
    written. *)
Definition pickle_names : list string :=
  ["aff_prop_labels_"; "aff_prop_centroids_"; "kmeans_5_labels_";
   "kmeans_5_centroids_"; "kmeans_7_labels_"; "kmeans_7_centroids_";
   "sents_"]%string.

(** The operating system opens the seven pickle files. *)
Definition can_open_pickles (lib : Library) (results_dir lang : string) : Prop :=
  Forall (fun name =>
            can_open lib (String.append results_dir
                            (String.append name (String.append lang ".pkl"))) = true)
         pickle_names.

(** The results directory is there, or can be made. *)
Definition results_dir_ready (lib : Library) (w : world) (results_dir : string)
  : Prop :=
  path_exists w results_dir = true \/
  (results_dir <> EmptyString /\ can_makedirs lib results_dir = true).

(** What the computations of one word give. *)
Record analysis := mk_analysis {
  an_embeddings1 : list vec;
  an_texts1 : list string;
  an_embeddings2 : list vec;
  an_texts2 : list string;
  an_average_dist : R;
  an_aff_prop : list Z * list vec;
  an_kmeans_5 : list Z * list vec;
  an_kmeans_7 : list Z * list vec;
  an_aff_prop_jsd : float64;
  an_kmeans5_jsd : float64;
  an_kmeans7_jsd : float64
}.

(** The accumulators with the results of [word] added. *)
Definition record_word (acc : accumulators) (word : string) (an : analysis)
  : accumulators :=
  let n1 := length (an_embeddings1 an) in
  let split_labels (labels : list Z) := (firstn n1 labels, skipn n1 labels) in
  let rd := results_dict acc in
  mk_accumulators
    (mk_results_dict
       (col_word rd ++ [word])
       (col_aff_prop rd ++ [an_aff_prop_jsd an])
       (col_kmeans_5 rd ++ [an_kmeans5_jsd an])
       (col_kmeans_7 rd ++ [an_kmeans7_jsd an])
       (col_averaging rd ++ [an_average_dist an])
       (col_aff_prop_clusters rd ++ [length (list_set (fst (an_aff_prop an)))]))
    (dict_set (sentence_dict acc) word (an_texts1 an, an_texts2 an))
    (dict_set (aff_prop_labels_dict acc) word (split_labels (fst (an_aff_prop an))))
    (dict_set (aff_prop_centroids_dict acc) word (snd (an_aff_prop an)))
    (dict_set (kmeans_5_labels_dict acc) word (split_labels (fst (an_kmeans_5 an))))
    (dict_set (kmeans_5_centroids_dict acc) word (snd (an_kmeans_5 an)))
    (dict_set (kmeans_7_labels_dict acc) word (split_labels (fst (an_kmeans_7 an))))
    (dict_set (kmeans_7_centroids_dict acc) word (snd (an_kmeans_7 an))).


(** The columns of the results have one length. *)
Definition aligned (rd : results_dict_t) : Prop :=
  length (col_aff_prop rd) = length (col_word rd) /\
  length (col_kmeans_5 rd) = length (col_word rd) /\
  length (col_kmeans_7 rd) = length (col_word rd) /\
  length (col_averaging rd) = length (col_word rd) /\
  length (col_aff_prop_clusters rd) = length (col_word rd).

(** What the script relies on: an estimator that ends well gives one
    label for every row it was given. *)
Definition one_label_per_sample (lib : Library) : Prop :=
  (forall pref X labels centres,
      AffinityPropagation_fit lib pref X = Ok (labels, centres) ->
      length labels = length X) /\
  (forall X labels, DBSCAN_fit lib X = Ok labels -> length labels = length X) /\
  (forall k seed X labels centres,
      KMeans_fit lib k seed X = Ok (labels, centres) ->
      length labels = length X).

Definition sents_path (a : args) : string :=
  String.append (semeval_results a)
                (String.append "sents_" (String.append (language a) ".pkl")).

(** The library [lib] with another behaviour, [f], of the affinity
    propagation when it is given a preference. *)
Definition with_preference_behaviour (lib : Library)
    (f : R -> list vec -> outcome (list Z * list vec)) : Library :=
  mk_library
    (re_search lib)
    (str_upper lib)
    (fun preference X =>
       match preference with
       | Some p => f p X
       | None => AffinityPropagation_fit lib None X
       end)
    (DBSCAN_fit lib)
    (KMeans_fit lib)
    (can_makedirs lib)
    (can_open lib).

(** *** Inputs of the examples *)

Definition plane_embeddings : word_embeddings :=
  mk_word_embeddings
    [[1]; [1]; [1]] [[1]]
    ["a plane flew"; "airplane noise"; "the plane landed"]%string
    ["the plane is late"]%string.

Definition plane_items : dict word_embeddings := [("plane_nn"%string, plane_embeddings)].

Definition repeated_embeddings : word_embeddings :=
  mk_word_embeddings
    [[1]; [2]; [3]] [[4]; [5]]
    ["a plane flew"; "a plane flew"; "the plane landed"]%string
    ["the plane is late"; "the plane is late"]%string.

Definition car_embeddings : word_embeddings :=
  mk_word_embeddings [[1]] [[1]] ["a carpet"]%string ["the car stopped"]%string.

(** A library that tells the two calls apart: with a preference all
    points go into one cluster, without one every point is a cluster of
    its own. *)
Definition preference_sensitive_library : Library :=
  mk_library
    (re_search reference_library)
    (str_upper reference_library)
    (fun preference X =>
       match preference with
       | Some _ => one_cluster X
       | None => Ok (map Z.of_nat (seq 0 (length X)), X)
       end)
    (DBSCAN_fit reference_library)
    (KMeans_fit reference_library)
    (can_makedirs reference_library)
    (can_open reference_library).









(** *** Further properties *)

(** [c * p] for a scalar [c]. *)
Definition scale (c : R) (p : list R) : list R := map (Rmult c) p.

(** An array of [n] values that are not finite. *)
Definition all_nonfinite (n : nat) : ndarray := repeat nonfinite n.

(** The array [t / t.sum()] of line 89 and 90, for the counts of [labels]
    over the labels [U]. *)
Definition count_shares (labels U : list Z) : ndarray :=
  let t := map (Counter labels) U in
  array_div (map (fun n => fin (INR n)) t) (fin (INR (fold_right Nat.add O t))).

(** A computation that leaves the world as it is, and that raises nothing
    but a [ValueError]. *)
Definition quiet {A} (m : M A) : Prop :=
  forall w, (exists a, m w = (Ok a, w)) \/ m w = (Raise ValueError, w).

(** The world with one more printed line. *)
Definition printed (w : world) (items : list pyobj) : world :=
  mk_world (heap w) (stdout w ++ [items]) (files w) (dirs w).

(** [l] is [l'] with some elements left out, the others in their order. *)
Inductive subsequence {A} : list A -> list A -> Prop :=
| subsequence_nil : subsequence [] []
| subsequence_skip (x : A) (l l' : list A) :
    subsequence l l' -> subsequence l (x :: l')
| subsequence_keep (x : A) (l l' : list A) :
    subsequence l l' -> subsequence (x :: l) (x :: l').

(** The occurrences of a slice whose sentence passes the test of line
    155, in the order of the slice. *)
Definition passing (lib : Library) (regex : string)
    (embs : list vec) (texts : list string) : list (vec * string) :=
  filter (matches lib regex) (occurrences embs texts).

(** [kept] holds the first occurrence of every sentence of [items], and
    nothing else: it is a part of [items] in the order of [items], no
    sentence is in it twice, every sentence of [items] is in it, and no
    occurrence of it has an occurrence with the same sentence before it
    in [items]. *)
Definition first_of_each_sentence (kept items : list (vec * string)) : Prop :=
  subsequence kept items /\
  NoDup (map snd kept) /\
  (forall t, In t (map snd items) -> In t (map snd kept)) /\
  (forall e t, In (e, t) kept ->
     exists pre post, items = pre ++ (e, t) :: post /\ ~ In t (map snd pre)).

(** A computation that leaves the files and the directories as they are,
    whatever its outcome. *)
Definition keeps_disk {A} (m : M A) : Prop :=
  forall w o w', m w = (o, w') -> files w' = files w /\ dirs w' = dirs w.

(** A computation that leaves the files as they are, whatever its
    outcome. *)
Definition keeps_files {A} (m : M A) : Prop :=
  forall w o w', m w = (o, w') -> files w' = files w.

(** A computation that has written no file when it raises, but when the
    exception is one of [Q]. *)
Definition raise_keeps_files_or {A} (Q : exn -> Prop) (m : M A) : Prop :=
  forall w e w', m w = (Raise e, w') -> files w' = files w \/ Q e.

(** The path of a pickle file. *)
Definition pickle_path (a : args) (name : string) : string :=
  String.append (semeval_results a)
                (String.append name (String.append (language a) ".pkl")).

Definition no_underscore (s : string) : bool :=
  string_forallb (fun c => negb (Ascii.eqb c "_")) s.

(** The dicts of the accumulators have an entry for [word]. *)
Definition has_entries (acc : accumulators) (word : string) : Prop :=
  dict_get (sentence_dict acc) word <> None /\
  dict_get (aff_prop_labels_dict acc) word <> None /\
  dict_get (aff_prop_centroids_dict acc) word <> None /\
  dict_get (kmeans_5_labels_dict acc) word <> None /\
  dict_get (kmeans_5_centroids_dict acc) word <> None /\
  dict_get (kmeans_7_labels_dict acc) word <> None /\
  dict_get (kmeans_7_centroids_dict acc) word <> None.

(** A divergence score that is a number between [0] and [ln 2]. *)
Definition valid_score (x : float64) : Prop :=
  exists d : R, x = fin d /\ 0 <= d <= ln 2.

(** A row of the results with scores and distance in their ranges and at
    least one cluster. *)
Definition valid_row (r : row) : Prop :=
  valid_score (r_aff_prop r) /\ valid_score (r_kmeans_5 r) /\
  valid_score (r_kmeans_7 r) /\ 0 <= r_averaging r <= 2 /\
  (1 <= r_aff_prop_clusters r)%nat.

(** The columns of the results hold valid values only. *)
Definition valid_columns (rd : results_dict_t) : Prop :=
  Forall valid_score (col_aff_prop rd) /\ Forall valid_score (col_kmeans_5 rd) /\
  Forall valid_score (col_kmeans_7 rd) /\
  Forall (fun d => 0 <= d <= 2) (col_averaging rd) /\
  Forall (fun n => (1 <= n)%nat) (col_aff_prop_clusters rd).

(** The files that the loop body writes: the table and the seven pickles. *)
Definition output_paths (a : args) : list string :=
  [ csv_path (semeval_results a) (language a);
    pickle_path a "aff_prop_labels_"; pickle_path a "aff_prop_centroids_";
    pickle_path a "kmeans_5_labels_"; pickle_path a "kmeans_5_centroids_";
    pickle_path a "kmeans_7_labels_"; pickle_path a "kmeans_7_centroids_";
    pickle_path a "sents_" ]%string.

(** A computation that leaves the files as they are, but those of
    [paths], whatever its outcome. *)
Definition keeps_other_files (paths : list string) {A} (m : M A) : Prop :=
  forall w o w',
    m w = (o, w') ->
    forall p, ~ In p paths -> dict_get (files w') p = dict_get (files w) p.

(* ================================================================= *)
(** * Proofs *)

(** ** Real-number facts *)

Lemma ln_le_minus_1 (x : R) : 0 < x -> ln x <= x - 1.
Proof.
  intros Hx.
  destruct (Rle_or_lt (ln x) (x - 1)) as [H | H]; [exact H | exfalso].
  apply exp_increasing in H.
  rewrite (exp_ln x Hx) in H.
  pose proof (exp_ineq1_le (x - 1)) as H1.
  lra.
Qed.

Lemma ln_monotone (x y : R) : 0 < x -> x <= y -> ln x <= ln y.
Proof.
  intros Hx [Hlt | ->]; [left; now apply ln_increasing | right; reflexivity].
Qed.

Lemma KL_term_lower (a b : R) :
  0 <= a -> 0 <= b -> (0 < a -> 0 < b) -> a - b <= KL_term a b.
Proof.
  intros Ha Hb Hab. unfold KL_term.
  destruct (Req_dec_T a 0) as [-> | Hne]; [lra |].
  assert (Ha' : 0 < a) by lra.
  specialize (Hab Ha').
  assert (Hq : 0 < b / a) by (apply Rdiv_lt_0_compat; assumption).
  pose proof (ln_le_minus_1 _ Hq) as Hln.
  assert (Hinv : a / b = / (b / a)) by (field; lra).
  rewrite Hinv, (ln_Rinv _ Hq).
  assert (Hmul : a * (b / a - 1) = b - a) by (field; lra).
  nra.
Qed.

Lemma KL_term_upper (a b : R) :
  0 <= a -> 0 <= b -> KL_term a ((1 / 2) * (a + b)) <= a * ln 2.
Proof.
  intros Ha Hb. unfold KL_term.
  destruct (Req_dec_T a 0) as [-> | Hne]; [lra |].
  assert (Ha' : 0 < a) by lra.
  apply Rmult_le_compat_l; [lra |].
  apply ln_monotone.
  - apply Rdiv_lt_0_compat; lra.
  - apply Rmult_le_reg_r with (r := (1 / 2) * (a + b)); [lra |].
    unfold Rdiv. rewrite Rmult_assoc, Rinv_l by lra. lra.
Qed.

Lemma KL_term_same (a : R) : KL_term a a = 0.
Proof.
  unfold KL_term. destruct (Req_dec_T a 0) as [? | Hne]; [reflexivity |].
  unfold Rdiv. rewrite Rinv_r by assumption. rewrite ln_1. lra.
Qed.

(** ** The divergence of two distributions *)

Lemma nonneg_pairs (p q : list R) :
  Forall (fun x => 0 <= x) p -> Forall (fun x => 0 <= x) q ->
  length p = length q -> Forall2 nonneg_pair p q.
Proof.
  intros Hp. revert q.
  induction Hp as [| a p Ha Hp IH]; intros [| b q] Hq Hlen;
    try discriminate; constructor.
  - split; [assumption | now inversion Hq].
  - apply IH; [now inversion Hq | now injection Hlen].
Qed.

Lemma midpoint_cons (a b : R) (p q : list R) :
  midpoint (a :: p) (b :: q) = (1 / 2) * (a + b) :: midpoint p q.
Proof. reflexivity. Qed.

Lemma sumR_midpoint (p q : list R) :
  Forall2 nonneg_pair p q ->
  sumR (midpoint p q) = (1 / 2) * (sumR p + sumR q).
Proof.
  induction 1 as [| a b p q _ _ IH]; [simpl; lra |].
  rewrite midpoint_cons. simpl. rewrite IH. lra.
Qed.

Lemma midpoint_comm (p q : list R) : midpoint p q = midpoint q p.
Proof.
  revert q. induction p as [| a p IH]; intros [| b q]; try reflexivity.
  rewrite !midpoint_cons, IH. f_equal. lra.
Qed.

Lemma KL_midpoint_bounds (p q : list R) :
  Forall2 nonneg_pair p q ->
  sumR p - sumR (midpoint p q) <= KL_divergence p (midpoint p q) <= sumR p * ln 2.
Proof.
  unfold KL_divergence.
  induction 1 as [| a b p q [Ha Hb] _ IH]; [simpl; lra |].
  rewrite midpoint_cons. simpl.
  pose proof (KL_term_lower a ((1 / 2) * (a + b)) Ha) as Hlo.
  pose proof (KL_term_upper a b Ha Hb) as Hup.
  assert (0 <= (1 / 2) * (a + b)) by lra.
  assert (0 < a -> 0 < (1 / 2) * (a + b)) by (intros; lra).
  specialize (Hlo ltac:(assumption) ltac:(assumption)).
  lra.
Qed.

Lemma Forall2_nonneg_pair_sym (p q : list R) :
  Forall2 nonneg_pair p q -> Forall2 nonneg_pair q p.
Proof.
  induction 1 as [| a b p q [Ha Hb] _ IH]; constructor;
    [split; assumption | assumption].
Qed.

Lemma JS_divergence_comm (p q : list R) : JS_divergence p q = JS_divergence q p.
Proof.
  unfold JS_divergence. rewrite (midpoint_comm q p). lra.
Qed.

Lemma JS_divergence_bounds (p q : list R) :
  is_distribution p -> is_distribution q -> length p = length q ->
  0 <= JS_divergence p q <= ln 2.
Proof.
  intros [Hp Sp] [Hq Sq] Hlen.
  pose proof (nonneg_pairs p q Hp Hq Hlen) as Hpq.
  pose proof (KL_midpoint_bounds p q Hpq) as B1.
  pose proof (KL_midpoint_bounds q p (Forall2_nonneg_pair_sym p q Hpq)) as B2.
  rewrite (midpoint_comm q p) in B2.
  pose proof (sumR_midpoint p q Hpq) as Sm.
  unfold JS_divergence.
  rewrite Sp, Sq in *. lra.
Qed.

Lemma midpoint_same (p : list R) : midpoint p p = p.
Proof.
  induction p as [| a p IH]; [reflexivity |].
  rewrite midpoint_cons, IH. f_equal. lra.
Qed.

Lemma KL_divergence_same (p : list R) : KL_divergence p p = 0.
Proof.
  unfold KL_divergence.
  induction p as [| a p IH]; simpl; [reflexivity |].
  rewrite KL_term_same, IH. lra.
Qed.

Lemma JS_divergence_same (p : list R) : JS_divergence p p = 0.
Proof.
  unfold JS_divergence. rewrite midpoint_same, KL_divergence_same. lra.
Qed.

(** ** Finite arrays *)

Lemma map_fin_inj (p q : list R) : map fin p = map fin q -> p = q.
Proof.
  revert q. induction p as [| a p IH]; intros [| b q] H; try discriminate.
  - reflexivity.
  - simpl in H. injection H as -> H. f_equal. now apply IH.
Qed.

Lemma np_sum_fin (p : list R) : np_sum (map fin p) = fin (sumR p).
Proof.
  unfold np_sum.
  induction p as [| a p IH]; [reflexivity |].
  simpl. rewrite IH. reflexivity.
Qed.

Lemma fdiv_fin (a s : R) : s <> 0 -> fdiv (fin a) (fin s) = fin (a / s).
Proof.
  intros Hs. unfold fdiv, fin. destruct (Req_dec_T s 0); [contradiction | reflexivity].
Qed.

Lemma array_div_fin (p : list R) (s : R) :
  s <> 0 -> array_div (map fin p) (fin s) = map fin (map (fun x => x / s) p).
Proof.
  intros Hs. unfold array_div. rewrite !map_map.
  apply map_ext. intros a. now apply fdiv_fin.
Qed.

Lemma broadcast_arrays_same (a b : ndarray) :
  length a = length b -> broadcast_arrays a b = Ok (a, b).
Proof.
  intros H. unfold broadcast_arrays. rewrite H, Nat.eqb_refl. reflexivity.
Qed.

Lemma zip_with_length {A B C} (f : A -> B -> C) (a : list A) (b : list B) :
  length a = length b -> length (zip_with f a b) = length a.
Proof.
  revert b. induction a as [| x a IH]; intros [| y b] H; try discriminate;
    [reflexivity |].
  simpl. f_equal. apply IH. now injection H.
Qed.

Lemma zip_with_fadd_fin (p q : list R) :
  zip_with fadd (map fin p) (map fin q) = map fin (zip_with Rplus p q).
Proof.
  revert q. induction p as [| a p IH]; intros [| b q]; try reflexivity.
  simpl. now rewrite IH.
Qed.

Lemma array_add_fin (p q : list R) :
  length p = length q ->
  array_add (map fin p) (map fin q) = Ok (map fin (zip_with Rplus p q)).
Proof.
  intros H. unfold array_add.
  rewrite broadcast_arrays_same by (now rewrite !length_map).
  now rewrite zip_with_fadd_fin.
Qed.

Lemma half_sum_midpoint (p q : list R) :
  map (fun x => x / 2) (zip_with Rplus p q) = midpoint p q.
Proof.
  revert q. induction p as [| a p IH]; intros [| b q]; try reflexivity.
  rewrite midpoint_cons. simpl. rewrite IH. f_equal. lra.
Qed.

Lemma map_div_one (p : list R) : map (fun x => x / 1) p = p.
Proof.
  induction p as [| a p IH]; [reflexivity |].
  simpl. rewrite IH. f_equal. lra.
Qed.

Lemma sumR_map_div (p : list R) (s : R) :
  sumR (map (fun x => x / s) p) = sumR p / s.
Proof.
  induction p as [| a p IH]; simpl; [lra |].
  rewrite IH. lra.
Qed.

Lemma sumR_normalizeR (p : list R) : sumR p <> 0 -> sumR (normalizeR p) = 1.
Proof.
  intros H. unfold normalizeR. rewrite sumR_map_div. now field.
Qed.

Lemma normalizeR_sum_one (p : list R) : sumR p = 1 -> normalizeR p = p.
Proof.
  intros H. unfold normalizeR. rewrite H. apply map_div_one.
Qed.

Lemma normalizeR_idem (p : list R) :
  sumR p <> 0 -> normalizeR (normalizeR p) = normalizeR p.
Proof.
  intros H. apply normalizeR_sum_one. now apply sumR_normalizeR.
Qed.

Lemma normalizeR_length (p : list R) : length (normalizeR p) = length p.
Proof. apply length_map. Qed.

Lemma sumR_nonneg (p : list R) : Forall (fun x => 0 <= x) p -> 0 <= sumR p.
Proof.
  induction 1 as [| a p Ha _ IH]; simpl; lra.
Qed.

Lemma normalizeR_nonneg (p : list R) :
  Forall (fun x => 0 <= x) p -> sumR p <> 0 ->
  Forall (fun x => 0 <= x) (normalizeR p).
Proof.
  intros Hp Hs. pose proof (sumR_nonneg p Hp) as Hs'.
  unfold normalizeR. apply Forall_map.
  eapply Forall_impl; [| exact Hp].
  intros a Ha. simpl. apply Rmult_le_pos; [exact Ha |].
  left. apply Rinv_0_lt_compat. lra.
Qed.

Lemma normalizeR_distribution (p : list R) :
  Forall (fun x => 0 <= x) p -> sumR p <> 0 -> is_distribution (normalizeR p).
Proof.
  intros Hp Hs. split; [now apply normalizeR_nonneg | now apply sumR_normalizeR].
Qed.

Lemma rel_entr_fin (a b : R) :
  dominated a b -> rel_entr (fin a) (fin b) = fin (KL_term a b).
Proof.
  intros (Ha & Hb & Hab). unfold rel_entr, KL_term, fin.
  destruct (Rlt_dec 0 a) as [Hpos | Hnpos].
  - destruct (Rlt_dec 0 b) as [_ | Hnb]; [| exfalso; auto].
    destruct (Req_dec_T a 0); [lra | reflexivity].
  - destruct (Req_dec_T a 0) as [_ | Hne]; [| lra].
    destruct (Rle_dec 0 b); [reflexivity | contradiction].
Qed.

Lemma zip_with_rel_entr_fin (p m : list R) :
  Forall2 dominated p m ->
  zip_with rel_entr (map fin p) (map fin m) = map fin (zip_with KL_term p m).
Proof.
  induction 1 as [| a b p m Hab _ IH]; [reflexivity |].
  simpl. rewrite IH. f_equal. now apply rel_entr_fin.
Qed.

Lemma Forall2_length_eq {A B} (P : A -> B -> Prop) (a : list A) (b : list B) :
  Forall2 P a b -> length a = length b.
Proof. induction 1; simpl; congruence. Qed.

Lemma entropy_fin (p m : list R) :
  sumR p = 1 -> sumR m = 1 -> Forall2 dominated p m ->
  entropy (map fin p) (map fin m) = Ok (fin (KL_divergence p m)).
Proof.
  intros Sp Sm Hd. unfold entropy.
  rewrite !np_sum_fin, Sp.
  rewrite array_div_fin by lra. rewrite map_div_one.
  rewrite broadcast_arrays_same
    by (rewrite !length_map; now apply (Forall2_length_eq dominated)).
  rewrite np_sum_fin, Sm, array_div_fin by lra. rewrite map_div_one.
  rewrite zip_with_rel_entr_fin by assumption.
  now rewrite np_sum_fin.
Qed.

Lemma dominated_midpoint (p q : list R) :
  Forall2 nonneg_pair p q -> Forall2 dominated p (midpoint p q).
Proof.
  induction 1 as [| a b p q [Ha Hb] _ IH]; [constructor |].
  rewrite midpoint_cons. constructor; [| exact IH].
  repeat split; try lra.
Qed.

(** ** The heap *)

Lemma heap_set_length (h : list ndarray) (l : loc) (a : ndarray) :
  length (heap_set h l a) = length h.
Proof.
  revert l. induction h as [| x h IH]; intros [| l]; simpl; auto.
Qed.

Lemma heap_get_set_same (h : list ndarray) (l : loc) (a : ndarray) :
  (l < length h)%nat -> heap_get (heap_set h l a) l = a.
Proof.
  unfold heap_get. revert l.
  induction h as [| x h IH]; intros [| l] H; simpl in *; try lia; auto.
  apply IH. lia.
Qed.

Lemma heap_get_set_other (h : list ndarray) (l l' : loc) (a : ndarray) :
  l <> l' -> heap_get (heap_set h l a) l' = heap_get h l'.
Proof.
  unfold heap_get. revert l l'.
  induction h as [| x h IH]; intros [| l] [| l'] H; simpl; try reflexivity;
    try congruence.
  apply IH. congruence.
Qed.

Lemma heap_get_app_old (h : list ndarray) (a : ndarray) (l : loc) :
  (l < length h)%nat -> heap_get (h ++ [a]) l = heap_get h l.
Proof. intros H. unfold heap_get. now rewrite app_nth1. Qed.

Lemma heap_get_app_new (h : list ndarray) (a : ndarray) :
  heap_get (h ++ [a]) (length h) = a.
Proof. unfold heap_get. rewrite app_nth2, Nat.sub_diag; [reflexivity | lia]. Qed.

Lemma asarray_eq (v : pyval) (w : world) :
  asarray v w = (Ok (asarray_loc v w), asarray_world v w).
Proof. destruct v; [reflexivity |]. destruct w; reflexivity. Qed.

Lemma asarray_denotes (v : pyval) (w : world) (p : list R) :
  denotes w v p ->
  denotes (asarray_world v w) (NdArray (asarray_loc v w)) p.
Proof.
  destruct v as [xs | l]; simpl; [intros -> | auto].
  rewrite length_app. simpl. split; [lia | apply heap_get_app_new].
Qed.

Lemma asarray_keeps (v v' : pyval) (w : world) (p' : list R) :
  denotes w v' p' -> denotes (asarray_world v w) v' p'.
Proof.
  destruct v as [xs | l]; [| auto].
  destruct v' as [xs' | l']; simpl; [auto |].
  intros [Hl Hg]. rewrite length_app. simpl.
  split; [lia | now rewrite heap_get_app_old].
Qed.

(** ** [compute_jsd] on two array objects *)

Lemma compute_jsd_unfold (vp vq : pyval) (w : world) :
  let w1 := asarray_world vp w in
  let lp := asarray_loc vp w in
  let w2 := asarray_world vq w1 in
  let lq := asarray_loc vq w1 in
  let h := heap_after_jsd (heap w2) lp lq in
  compute_jsd vp vq w =
  (jsd_of_arrays (heap_get h lp) (heap_get h lq),
   mk_world h (stdout w) (files w) (dirs w)).
Proof.
  intros w1 lp w2 lq h.
  assert (Hout : stdout w2 = stdout w /\ files w2 = files w /\ dirs w2 = dirs w).
  { subst w2 w1. destruct vp, vq; simpl; auto. }
  destruct Hout as (Hs & Hf & Hd).
  unfold compute_jsd, bind. rewrite asarray_eq. fold w1 lp.
  rewrite asarray_eq. fold w2 lq.
  unfold idiv_sum, bind, read, write, lift, ret. simpl.
  fold (heap_after_jsd (heap w2) lp lq). fold h.
  rewrite Hs, Hf, Hd. unfold jsd_of_arrays.
  destruct (array_add (heap_get h lp) (heap_get h lq)) as [s | e]; [| reflexivity].
  destruct (entropy (heap_get h lp) (array_div s (Some 2))) as [e1 | e];
    [| reflexivity].
  destruct (entropy (heap_get h lq) (array_div s (Some 2))) as [e2 | e];
    reflexivity.
Qed.

Lemma jsd_of_arrays_fin (p q : list R) :
  is_distribution p -> is_distribution q -> length p = length q ->
  jsd_of_arrays (map fin p) (map fin q) = Ok (fin (JS_divergence p q)).
Proof.
  intros [Hp Sp] [Hq Sq] Hlen.
  pose proof (nonneg_pairs p q Hp Hq Hlen) as Hpq.
  pose proof (sumR_midpoint p q Hpq) as Sm. rewrite Sp, Sq in Sm.
  unfold jsd_of_arrays.
  rewrite array_add_fin by assumption.
  change (Some 2) with (fin 2).
  rewrite array_div_fin by lra. rewrite half_sum_midpoint.
  rewrite (entropy_fin p (midpoint p q)); [| assumption | lra |].
  2: now apply dominated_midpoint.
  rewrite (entropy_fin q (midpoint p q)); [| assumption | lra |].
  2: { rewrite midpoint_comm. apply dominated_midpoint.
       now apply Forall2_nonneg_pair_sym. }
  unfold fin, fadd, fdiv. destruct (Req_dec_T 2 0) as [H2 | _]; [lra |].
  unfold JS_divergence. do 2 f_equal. lra.
Qed.

(** Both arrays hold their normalised contents after the two in-place
    divisions, whether or not they are the same object. *)
Lemma heap_after_jsd_contents (h : list ndarray) (lp lq : loc) (p q : list R) :
  (lp < length h)%nat -> (lq < length h)%nat ->
  heap_get h lp = map fin p -> heap_get h lq = map fin q ->
  sumR p <> 0 -> sumR q <> 0 ->
  heap_get (heap_after_jsd h lp lq) lp = map fin (normalizeR p) /\
  heap_get (heap_after_jsd h lp lq) lq = map fin (normalizeR q).
Proof.
  intros Hlp Hlq Gp Gq Sp Sq. unfold heap_after_jsd. cbv zeta.
  rewrite Gp, np_sum_fin, array_div_fin by assumption.
  fold (normalizeR p).
  destruct (Nat.eq_dec lp lq) as [<- | Hne].
  - assert (p = q) as <- by (apply map_fin_inj; congruence).
    rewrite (heap_get_set_same h lp) by assumption.
    rewrite np_sum_fin, array_div_fin
      by (rewrite sumR_normalizeR by assumption; lra).
    fold (normalizeR (normalizeR p)). rewrite normalizeR_idem by assumption.
    rewrite heap_get_set_same by (now rewrite heap_set_length).
    auto.
  - rewrite (heap_get_set_other h lp lq) by assumption.
    rewrite Gq, np_sum_fin, array_div_fin by assumption.
    fold (normalizeR q).
    rewrite heap_get_set_other by congruence.
    rewrite heap_get_set_same by assumption.
    rewrite heap_get_set_same by (now rewrite heap_set_length).
    auto.
Qed.

(** The value of [compute_jsd]: the divergence of the two normalised
    arrays. *)
Lemma compute_jsd_value (vp vq : pyval) (w : world) (p q : list R) :
  denotes w vp p -> denotes w vq q ->
  Forall (fun x => 0 <= x) p -> Forall (fun x => 0 <= x) q ->
  sumR p <> 0 -> sumR q <> 0 -> length p = length q ->
  fst (compute_jsd vp vq w) =
  Ok (fin (JS_divergence (normalizeR p) (normalizeR q))).
Proof.
  intros Dp Dq Hp Hq Sp Sq Hlen.
  rewrite compute_jsd_unfold. simpl fst.
  pose proof (asarray_denotes vp w p Dp) as Dp1.
  pose proof (asarray_keeps vp vq w q Dq) as Dq1.
  pose proof (asarray_denotes vq _ q Dq1) as [Lq Gq].
  pose proof (asarray_keeps vq _ _ p Dp1) as [Lp Gp].
  destruct (heap_after_jsd_contents _ _ _ p q Lp Lq Gp Gq Sp Sq) as [-> ->].
  apply jsd_of_arrays_fin.
  - now apply normalizeR_distribution.
  - now apply normalizeR_distribution.
  - now rewrite !normalizeR_length.
Qed.

(** ** C2: symmetry, zero on equal arguments and range *)

(** C2.  For probability distributions [p] and [q] over the same labels
    (nonnegative entries, sum one, equal lengths), passed as lists or as
    arrays, [compute_jsd(p, q)] and [compute_jsd(q, p)] return the same
    finite value [d], [compute_jsd(p, p)] returns [0], and
    [0 <= d <= ln 2]. *)
Theorem compute_jsd_symmetric_zero_bounded
    (w : world) (vp vq : pyval) (p q : list R) :
  denotes w vp p -> denotes w vq q ->
  is_distribution p -> is_distribution q -> length p = length q ->
  exists d : R,
    fst (compute_jsd vp vq w) = Ok (fin d) /\
    fst (compute_jsd vq vp w) = Ok (fin d) /\
    fst (compute_jsd vp vp w) = Ok (fin 0) /\
    0 <= d <= ln 2.
Proof.
  intros Dp Dq Ip Iq Hlen.
  pose proof Ip as [Hp Sp]. pose proof Iq as [Hq Sq].
  assert (Np : sumR p <> 0) by lra.
  assert (Nq : sumR q <> 0) by lra.
  exists (JS_divergence p q). repeat split.
  - rewrite (compute_jsd_value vp vq w p q) by assumption.
    now rewrite !normalizeR_sum_one.
  - rewrite (compute_jsd_value vq vp w q p) by (assumption || now symmetry).
    rewrite !normalizeR_sum_one by assumption.
    now rewrite JS_divergence_comm.
  - rewrite (compute_jsd_value vp vp w p p) by (assumption || reflexivity).
    now rewrite JS_divergence_same.
  - now apply JS_divergence_bounds.
  - now apply JS_divergence_bounds.
Qed.

Lemma compute_jsd_symmetric_zero_bounded_witness :
  exists d : R,
    fst (compute_jsd (PyList [1; 0]) (PyList [0; 1]) empty_world) = Ok (fin d) /\
    fst (compute_jsd (PyList [0; 1]) (PyList [1; 0]) empty_world) = Ok (fin d) /\
    fst (compute_jsd (PyList [1; 0]) (PyList [1; 0]) empty_world) = Ok (fin 0) /\
    0 <= d <= ln 2.
Proof.
  apply (compute_jsd_symmetric_zero_bounded
           empty_world (PyList [1; 0]) (PyList [0; 1]) [1; 0] [0; 1]).
  - reflexivity.
  - reflexivity.
  - split; [repeat constructor; lra | simpl; lra].
  - split; [repeat constructor; lra | simpl; lra].
  - reflexivity.
Defined.

(** ** C10: the arrays passed to [compute_jsd] are overwritten *)

(** C10.  An array object passed to [compute_jsd], as [p] or as [q], holds
    its contents divided by their sum after the call: the caller's array is
    overwritten with the normalised distribution. *)
Theorem compute_jsd_overwrites_arrays
    (w : world) (vp vq : pyval) (p q : list R) :
  denotes w vp p -> denotes w vq q -> sumR p <> 0 -> sumR q <> 0 ->
  let w' := snd (compute_jsd vp vq w) in
  (forall l, vp = NdArray l -> heap_get (heap w') l = map fin (normalizeR p)) /\
  (forall l, vq = NdArray l -> heap_get (heap w') l = map fin (normalizeR q)).
Proof.
  intros Dp Dq Sp Sq w'. subst w'.
  rewrite compute_jsd_unfold. simpl snd. simpl heap.
  pose proof (asarray_denotes vp w p Dp) as Dp1.
  pose proof (asarray_keeps vp vq w q Dq) as Dq1.
  pose proof (asarray_denotes vq _ q Dq1) as [Lq Gq].
  pose proof (asarray_keeps vq _ _ p Dp1) as [Lp Gp].
  destruct (heap_after_jsd_contents _ _ _ p q Lp Lq Gp Gq Sp Sq) as [Ep Eq].
  split; intros l ->; simpl in *; assumption.
Qed.

Lemma compute_jsd_overwrites_arrays_witness :
  let w := mk_world [[fin 1; fin 1]; [fin 1; fin 3]] [] [] [] in
  let w' := snd (compute_jsd (NdArray 0%nat) (NdArray 1%nat) w) in
  (forall l, NdArray 0%nat = NdArray l ->
             heap_get (heap w') l = map fin (normalizeR [1; 1])) /\
  (forall l, NdArray 1%nat = NdArray l ->
             heap_get (heap w') l = map fin (normalizeR [1; 3])).
Proof.
  intros w.
  apply (compute_jsd_overwrites_arrays
           w (NdArray 0%nat) (NdArray 1%nat) [1; 1] [1; 3]).
  - split; [simpl; lia | reflexivity].
  - split; [simpl; lia | reflexivity].
  - simpl; lra.
  - simpl; lra.
Defined.

(** The array object changes indeed: [[1, 1]] has become [[1/2, 1/2]]. *)
Lemma compute_jsd_changes_its_argument :
  let w := mk_world [[fin 1; fin 1]; [fin 1; fin 3]] [] [] [] in
  let w' := snd (compute_jsd (NdArray 0%nat) (NdArray 1%nat) w) in
  heap_get (heap w) 0%nat = [fin 1; fin 1] /\
  heap_get (heap w') 0%nat = [fin (1 / 2); fin (1 / 2)].
Proof.
  intros w w'. split; [reflexivity |].
  subst w'. rewrite compute_jsd_unfold. simpl snd. simpl heap.
  destruct (heap_after_jsd_contents
              [[fin 1; fin 1]; [fin 1; fin 3]] 0%nat 1%nat [1; 1] [1; 3])
    as [E _]; try reflexivity; simpl; try lia; try lra.
  simpl in E |- *. rewrite E. unfold fin. repeat f_equal; lra.
Qed.

(** A list passed to [compute_jsd] is copied by [np.asarray]: the arrays
    that existed before the call keep their contents. *)
Lemma compute_jsd_copies_lists (w : world) (xs ys : list R) (l : loc) :
  (l < length (heap w))%nat ->
  heap_get (heap (snd (compute_jsd (PyList xs) (PyList ys) w))) l =
  heap_get (heap w) l.
Proof.
  intros Hl. rewrite compute_jsd_unfold. simpl.
  unfold heap_after_jsd. cbv zeta.
  rewrite !heap_get_set_other by (rewrite ?length_app; simpl; lia).
  rewrite !heap_get_app_old by (rewrite ?length_app; simpl; lia).
  reflexivity.
Qed.

(** ** Counting labels *)

Lemma sum_nat_indicator (U : list Z) (a : Z) :
  NoDup U -> In a U ->
  sum_nat (map (fun x => if Z.eq_dec a x then 1%nat else 0%nat) U) = 1%nat.
Proof.
  induction 1 as [| x U Hx HU IH]; intros Hin; [contradiction |].
  simpl. destruct (Z.eq_dec a x) as [-> | Hne].
  - assert (Hz : sum_nat (map (fun y => if Z.eq_dec x y then 1%nat else 0%nat) U) = 0%nat).
    { clear IH HU Hin. induction U as [| y U IHU]; [reflexivity |].
      simpl. destruct (Z.eq_dec x y) as [-> | _].
      - exfalso. apply Hx. now left.
      - apply IHU. intros H. apply Hx. now right. }
    rewrite Hz. reflexivity.
  - destruct Hin as [-> | Hin]; [contradiction |]. now rewrite IH.
Qed.

Lemma sum_nat_plus {A} (f g : A -> nat) (U : list A) :
  sum_nat (map (fun x => (f x + g x)%nat) U) =
  (sum_nat (map f U) + sum_nat (map g U))%nat.
Proof.
  induction U as [| x U IH]; [reflexivity |]. simpl. rewrite IH. lia.
Qed.

(** The counts of the labels of [labels], taken over a duplicate-free
    list that has all of them, add up to the length of [labels]. *)
Lemma sum_counts (U labels : list Z) :
  NoDup U -> (forall x, In x labels -> In x U) ->
  sum_nat (map (Counter labels) U) = length labels.
Proof.
  intros HU. induction labels as [| a labels IH]; intros Hin.
  - clear. induction U as [| x U IHU]; [reflexivity | exact IHU].
  - rewrite (map_ext (Counter (a :: labels))
               (fun x => ((if Z.eq_dec a x then 1 else 0) + Counter labels x)%nat)).
    + rewrite sum_nat_plus, sum_nat_indicator, IH;
        simpl; auto; intros; apply Hin; simpl; auto.
    + intros x. unfold Counter. simpl. destruct (Z.eq_dec a x); reflexivity.
Qed.

Lemma sumR_map_INR (l : list nat) : sumR (map INR l) = INR (sum_nat l).
Proof.
  induction l as [| n l IH]; [reflexivity |].
  simpl. rewrite IH, plus_INR. reflexivity.
Qed.

Lemma INR_length_nonzero {A} (l : list A) : l <> [] -> INR (length l) <> 0.
Proof.
  intros H. destruct l as [| a l]; [contradiction |].
  apply not_0_INR. simpl. discriminate.
Qed.

Lemma frequency_distribution (U labels : list Z) :
  labels <> [] -> NoDup U -> (forall x, In x labels -> In x U) ->
  is_distribution (map (frequency labels) U).
Proof.
  intros Hne HU Hin.
  pose proof (INR_length_nonzero labels Hne) as Hlen.
  split.
  - apply Forall_map, Forall_forall. intros x _. unfold frequency.
    apply Rmult_le_pos; [apply pos_INR |].
    left. apply Rinv_0_lt_compat.
    pose proof (pos_INR (length labels)). lra.
  - unfold frequency.
    rewrite <- (map_map (fun x => INR (count_occ Z.eq_dec labels x))
                        (fun r => r / INR (length labels))).
    rewrite sumR_map_div.
    rewrite <- (map_map (Counter labels) INR), sumR_map_INR.
    rewrite sum_counts by assumption. now field.
Qed.

(** The array [t / t.sum()] of the counts of [labels] over [U]. *)
Lemma counts_normalised (U labels : list Z) :
  labels <> [] -> NoDup U -> (forall x, In x labels -> In x U) ->
  array_div (map (fun n => fin (INR n)) (map (Counter labels) U))
            (fin (INR (sum_nat (map (Counter labels) U)))) =
  map fin (map (frequency labels) U).
Proof.
  intros Hne HU Hin.
  rewrite sum_counts by assumption.
  rewrite <- (map_map INR fin).
  rewrite array_div_fin by (now apply INR_length_nonzero).
  rewrite !map_map. reflexivity.
Qed.

(** ** The order of the labels does not matter *)

Lemma sumR_Permutation (l l' : list R) : Permutation l l' -> sumR l = sumR l'.
Proof.
  induction 1; simpl; lra.
Qed.

Lemma KL_divergence_map {A} (f g : A -> R) (U : list A) :
  KL_divergence (map f U) (map g U) = sumR (map (fun x => KL_term (f x) (g x)) U).
Proof.
  unfold KL_divergence.
  induction U as [| x U IH]; [reflexivity |]. simpl. now rewrite IH.
Qed.

Lemma midpoint_map {A} (f g : A -> R) (U : list A) :
  midpoint (map f U) (map g U) = map (fun x => (1 / 2) * (f x + g x)) U.
Proof.
  induction U as [| x U IH]; [reflexivity |].
  simpl map. rewrite midpoint_cons. now rewrite IH.
Qed.

(** Whatever the order in which the set of labels is listed, the
    divergence is the same. *)
Lemma JS_divergence_perm {A} (f g : A -> R) (U U' : list A) :
  Permutation U U' ->
  JS_divergence (map f U) (map g U) = JS_divergence (map f U') (map g U').
Proof.
  intros HP. unfold JS_divergence.
  rewrite !midpoint_map, !KL_divergence_map.
  rewrite (sumR_Permutation _ _ (Permutation_map
             (fun x => KL_term (f x) (1 / 2 * (f x + g x))) HP)).
  rewrite (sumR_Permutation _ _ (Permutation_map
             (fun x => KL_term (g x) (1 / 2 * (f x + g x))) HP)).
  reflexivity.
Qed.

Lemma list_set_spec (labels : list Z) :
  NoDup (list_set labels) /\ forall x, In x (list_set labels) <-> In x labels.
Proof.
  split; [apply NoDup_nodup | intros x; apply nodup_In].
Qed.

(** ** C1: the divergence of two label lists *)

Lemma compute_jsd_frame (vp vq : pyval) (w : world) :
  stdout (snd (compute_jsd vp vq w)) = stdout w /\
  files (snd (compute_jsd vp vq w)) = files w.
Proof. rewrite compute_jsd_unfold. simpl. auto. Qed.

(** What [compute_divergence_from_cluster_labels] returns and what it
    leaves of the world: one more printed line, the files as they were. *)
Lemma compute_divergence_run (w : world) (labels1 labels2 : list Z) :
  labels1 <> [] -> labels2 <> [] ->
  let U := list_set (labels1 ++ labels2) in
  let d := JS_divergence (map (frequency labels1) U) (map (frequency labels2) U) in
  exists w',
    compute_divergence_from_cluster_labels labels1 labels2 w = (Ok (fin d), w') /\
    files w' = files w /\
    stdout w' = stdout w ++ [[PyStr "clustering JSD:"; PyFloat (fin d)]].
Proof.
  intros H1 H2 U d.
  destruct (list_set_spec (labels1 ++ labels2)) as [HU HIn]. fold U in HU, HIn.
  assert (In1 : forall x, In x labels1 -> In x U)
    by (intros x Hx; apply HIn, in_or_app; now left).
  assert (In2 : forall x, In x labels2 -> In x U)
    by (intros x Hx; apply HIn, in_or_app; now right).
  pose proof (frequency_distribution U labels1 H1 HU In1) as D1.
  pose proof (frequency_distribution U labels2 H2 HU In2) as D2.
  unfold compute_divergence_from_cluster_labels. fold U.
  fold (sum_nat (map (Counter labels1) U)) (sum_nat (map (Counter labels2) U)).
  rewrite !counts_normalised by assumption.
  unfold bind, alloc, print, ret. cbn [heap stdout files].
  set (p := map (frequency labels1) U) in *.
  set (q := map (frequency labels2) U) in *.
  match goal with
  | |- context [compute_jsd (NdArray ?a) (NdArray ?b) ?ww] =>
      set (lp := a); set (lq := b); set (w2 := ww)
  end.
  assert (Dp : denotes w2 (NdArray lp) p).
  { subst w2 lp. simpl. split; [rewrite !length_app; simpl; lia |].
    rewrite heap_get_app_old by (rewrite length_app; simpl; lia).
    apply heap_get_app_new. }
  assert (Dq : denotes w2 (NdArray lq) q).
  { subst w2 lq. simpl.
    split; [rewrite !length_app; simpl; lia | apply heap_get_app_new]. }
  destruct D1 as [N1 S1], D2 as [N2 S2].
  assert (Hlen : length p = length q) by (subst p q; now rewrite !length_map).
  assert (Z1 : sumR p <> 0) by lra.
  assert (Z2 : sumR q <> 0) by lra.
  pose proof (compute_jsd_value (NdArray lp) (NdArray lq) w2 p q
                Dp Dq N1 N2 Z1 Z2 Hlen) as Hv.
  rewrite !normalizeR_sum_one in Hv by assumption.
  destruct (compute_jsd_frame (NdArray lp) (NdArray lq) w2) as [Hs Hf].
  destruct (compute_jsd (NdArray lp) (NdArray lq) w2) as [o w3].
  simpl in Hv, Hs, Hf. subst o.
  eexists. split; [reflexivity |]. simpl. now rewrite Hs, Hf.
Qed.

(** C1.  For nonempty label lists, and for any duplicate-free listing [U]
    of the labels that occur in either of them,
    [compute_divergence_from_cluster_labels] returns the Jensen-Shannon
    divergence [0.5 KL(p || m) + 0.5 KL(q || m)], [m = 0.5 (p + q)], of the
    vectors [p] and [q] of the shares of each label of [U] in the first and
    in the second list; a label absent from a list has share zero there,
    and [p] and [q] are distributions (nonnegative, of sum one). *)
Theorem compute_divergence_is_JS_divergence
    (w : world) (labels1 labels2 : list Z) (U : list Z) :
  labels1 <> [] -> labels2 <> [] ->
  NoDup U -> (forall x, In x U <-> In x labels1 \/ In x labels2) ->
  let p := map (frequency labels1) U in
  let q := map (frequency labels2) U in
  fst (compute_divergence_from_cluster_labels labels1 labels2 w) =
    Ok (fin (JS_divergence p q)) /\
  is_distribution p /\ is_distribution q /\
  (forall x, ~ In x labels1 -> frequency labels1 x = 0) /\
  (forall x, ~ In x labels2 -> frequency labels2 x = 0).
Proof.
  intros H1 H2 HU HIn p q.
  destruct (compute_divergence_run w labels1 labels2 H1 H2) as (w' & E & _).
  destruct (list_set_spec (labels1 ++ labels2)) as [HU0 HIn0].
  assert (HP : Permutation (list_set (labels1 ++ labels2)) U).
  { apply NoDup_Permutation; [assumption | assumption |].
    intros x. rewrite HIn0, HIn, in_app_iff. reflexivity. }
  repeat split.
  - rewrite E. simpl. subst p q.
    now rewrite (JS_divergence_perm _ _ _ _ HP).
  - apply frequency_distribution; [assumption | assumption |].
    intros x Hx. apply HIn. now left.
  - apply frequency_distribution; [assumption | assumption |].
    intros x Hx. apply HIn. now left.
  - apply frequency_distribution; [assumption | assumption |].
    intros x Hx. apply HIn. now right.
  - apply frequency_distribution; [assumption | assumption |].
    intros x Hx. apply HIn. now right.
  - intros x Hx. unfold frequency.
    rewrite (proj1 (count_occ_not_In Z.eq_dec labels1 x) Hx). simpl. lra.
  - intros x Hx. unfold frequency.
    rewrite (proj1 (count_occ_not_In Z.eq_dec labels2 x) Hx). simpl. lra.
Qed.

Lemma compute_divergence_is_JS_divergence_witness :
  let labels1 := [0; 0; 1]%Z in
  let labels2 := [1; 2]%Z in
  let U := [2; 0; 1]%Z in
  let p := map (frequency labels1) U in
  let q := map (frequency labels2) U in
  fst (compute_divergence_from_cluster_labels labels1 labels2 empty_world) =
    Ok (fin (JS_divergence p q)) /\
  is_distribution p /\ is_distribution q /\
  (forall x, ~ In x labels1 -> frequency labels1 x = 0) /\
  (forall x, ~ In x labels2 -> frequency labels2 x = 0).
Proof.
  intros labels1 labels2 U.
  apply (compute_divergence_is_JS_divergence empty_world labels1 labels2 U).
  - discriminate.
  - discriminate.
  - repeat constructor; simpl; intuition lia.
  - intros x. subst labels1 labels2 U. simpl. intuition lia.
Defined.

(** ** C7: the mean of the pairwise cosine distances *)

Lemma dot_cons (x y : R) (a b : vec) : dot (x :: a) (y :: b) = x * y + dot a b.
Proof. reflexivity. Qed.

Lemma dot_self_nonneg (a : vec) : 0 <= dot a a.
Proof.
  induction a as [| x a IH]; [simpl; unfold dot; simpl; lra |].
  rewrite dot_cons. nra.
Qed.

Lemma dot_self_pos (a : vec) : nonzero_vec a -> 0 < dot a a.
Proof.
  induction 1 as [x a Hx | x a _ IH]; rewrite dot_cons.
  - pose proof (dot_self_nonneg a). nra.
  - nra.
Qed.

Lemma l2_norm_pos (a : vec) : nonzero_vec a -> 0 < l2_norm a.
Proof. intros H. apply sqrt_lt_R0. now apply dot_self_pos. Qed.

Lemma dot_scaled (a b : vec) (s t : R) :
  s <> 0 -> t <> 0 ->
  dot (map (fun x => x / s) a) (map (fun x => x / t) b) = dot a b / (s * t).
Proof.
  intros Hs Ht. revert b.
  induction a as [| x a IH]; intros [| y b]; simpl map;
    try (unfold dot; simpl; field; auto).
  rewrite !dot_cons, IH. field. auto.
Qed.

Lemma normalize_nonzero (a : vec) :
  nonzero_vec a -> normalize a = map (fun x => x / l2_norm a) a.
Proof.
  intros H. pose proof (l2_norm_pos a H). unfold normalize.
  destruct (Req_dec_T (l2_norm a) 0); [lra | reflexivity].
Qed.

Lemma cosine_similarity_nonzero (a b : vec) :
  nonzero_vec a -> nonzero_vec b -> length a = length b ->
  cosine_similarity a b = Ok (dot a b / (l2_norm a * l2_norm b)).
Proof.
  intros Ha Hb Hlen.
  pose proof (l2_norm_pos a Ha). pose proof (l2_norm_pos b Hb).
  unfold cosine_similarity.
  destruct a as [| x a]; [inversion Ha |].
  destruct b as [| y b]; [inversion Hb |].
  rewrite Hlen, Nat.eqb_refl.
  rewrite !normalize_nonzero by assumption.
  rewrite dot_scaled by lra. reflexivity.
Qed.

Lemma np_mean_fin (l : list R) :
  l <> [] -> np_mean (map fin l) = fin (sumR l / INR (length l)).
Proof.
  intros H. unfold np_mean. rewrite np_sum_fin, length_map.
  apply fdiv_fin. now apply INR_length_nonzero.
Qed.

(** The inner loop: the distances of [x1] to the vectors of [Y]. *)
Lemma inner_distances (d : nat) (x1 : vec) (Y : list vec) (w : world) :
  nonzero_vec x1 -> length x1 = d ->
  Forall (fun y => nonzero_vec y /\ length y = d) Y ->
  mapM (fun x2 => c <- lift (cosine_similarity x1 x2) ;; ret (fin (1 - c))) Y w =
  (Ok (map fin (map (cosine_distance x1) Y)), w).
Proof.
  intros Hx Hd. induction 1 as [| y Y [Hy Hl] _ IH]; [reflexivity |].
  simpl. unfold bind at 1. unfold bind at 1. unfold lift at 1.
  rewrite cosine_similarity_nonzero by (assumption || congruence).
  unfold ret at 1. unfold bind at 1. rewrite IH. reflexivity.
Qed.

(** The outer loop: for every vector of [X], the mean of its distances
    to the vectors of [Y]. *)
Lemma outer_means (d : nat) (X Y : list vec) (w : world) :
  Y <> [] ->
  Forall (fun x => nonzero_vec x /\ length x = d) X ->
  Forall (fun y => nonzero_vec y /\ length y = d) Y ->
  mapM (fun x1 =>
          mean_i <- mapM (fun x2 =>
                            c <- lift (cosine_similarity x1 x2) ;;
                            ret (fin (1 - c))) Y ;;
          ret (np_mean mean_i)) X w =
  (Ok (map fin (map (fun x => sumR (map (cosine_distance x) Y) / INR (length Y)) X)), w).
Proof.
  intros HY HX HYs. induction HX as [| x X [Hx Hl] _ IH]; [reflexivity |].
  simpl. unfold bind at 1. unfold bind at 1.
  rewrite (inner_distances d) by assumption.
  unfold ret at 1. unfold bind at 1. rewrite IH. unfold ret.
  rewrite np_mean_fin by (destruct Y; [contradiction | discriminate]).
  rewrite length_map. reflexivity.
Qed.

Lemma sumR_app (l l' : list R) : sumR (l ++ l') = sumR l + sumR l'.
Proof. induction l as [| a l IH]; simpl; [lra | rewrite IH; lra]. Qed.

Lemma sumR_list_prod {A B} (f : A -> B -> R) (X : list A) (Y : list B) :
  sumR (map (fun xy => f (fst xy) (snd xy)) (list_prod X Y)) =
  sumR (map (fun x => sumR (map (f x) Y)) X).
Proof.
  induction X as [| x X IH]; [reflexivity |].
  simpl. rewrite map_app, sumR_app, IH, map_map. reflexivity.
Qed.

Lemma mean_of_means (X Y : list vec) :
  X <> [] -> Y <> [] ->
  sumR (map (fun x => sumR (map (cosine_distance x) Y) / INR (length Y)) X) /
    INR (length X) =
  mean_pairwise_cosine_distance X Y.
Proof.
  intros HX HY. unfold mean_pairwise_cosine_distance.
  rewrite (sumR_list_prod cosine_distance), length_prod, mult_INR.
  rewrite <- (map_map (fun x => sumR (map (cosine_distance x) Y))
                      (fun s => s / INR (length Y))).
  rewrite sumR_map_div. field.
  split; now apply INR_length_nonzero.
Qed.

(** C7.  For nonempty [X] and [Y] of nonzero vectors of one dimension,
    [compute_mean_dist] computes the average of the cosine distance over
    every pair and prints it; what it returns is [None], not that float:
    the function has no [return]. *)
Theorem compute_mean_dist_prints_mean_returns_None
    (d : nat) (X Y : list vec) (w : world) :
  X <> [] -> Y <> [] ->
  Forall (fun x => nonzero_vec x /\ length x = d) X ->
  Forall (fun y => nonzero_vec y /\ length y = d) Y ->
  compute_mean_dist X Y w =
  (Ok PyNone,
   mk_world (heap w)
            (stdout w ++ [[PyStr "Mean cosine dist:";
                           PyFloat (fin (mean_pairwise_cosine_distance X Y))]])
            (files w) (dirs w)).
Proof.
  intros HX HY FX FY. unfold compute_mean_dist. cbv zeta.
  unfold bind at 1. rewrite (outer_means d) by assumption.
  rewrite np_mean_fin by (destruct X; [contradiction | discriminate]).
  rewrite length_map, mean_of_means by assumption.
  reflexivity.
Qed.

Lemma compute_mean_dist_prints_mean_returns_None_witness :
  compute_mean_dist [[1; 0]] [[0; 1]] empty_world =
  (Ok PyNone,
   mk_world []
            [[PyStr "Mean cosine dist:";
              PyFloat (fin (mean_pairwise_cosine_distance [[1; 0]] [[0; 1]]))]]
            [] []).
Proof.
  apply (compute_mean_dist_prints_mean_returns_None 2 [[1; 0]] [[0; 1]] empty_world).
  - discriminate.
  - discriminate.
  - constructor; [split; [apply Exists_cons_hd; lra | reflexivity] | constructor].
  - constructor; [split; [apply Exists_cons_tl, Exists_cons_hd; lra | reflexivity]
                 | constructor].
Defined.

(** ** Whole-word occurrences *)

Open Scope string_scope.

Lemma prefix_spec (w text : string) :
  String.prefix w text = true <-> exists post, text = w ++ post.
Proof.
  revert text. induction w as [| c w IH]; intros text.
  - simpl. split; [intros _; now exists text | intros _; now destruct text].
  - destruct text as [| c' text]; simpl.
    + split; [discriminate | intros [post H]; discriminate].
    + destruct (Ascii.ascii_dec c c') as [-> | Hne].
      * rewrite IH. split; intros [post H]; exists post; congruence.
      * split; [discriminate | intros [post H]; congruence].
Qed.

Lemma drop_append (w post : string) : drop (String.length w) (w ++ post) = post.
Proof. induction w as [| c w IH]; [now destruct post | exact IH]. Qed.




Close Scope string_scope.

(** ** The loop over the occurrences of a slice *)

Section FilterLoop.

Variable lib : Library.
Variable regex : string.

Lemma nth_error_middle {A} (pre : list A) (x : A) (suf : list A) :
  nth_error (pre ++ x :: suf) (length pre) = Some x.
Proof. induction pre as [| y pre IH]; [reflexivity | exact IH]. Qed.

Lemma matches_found (e : vec) (t : string) (found : bool) :
  re_search lib regex t = Ok found -> matches lib regex (e, t) = found.
Proof. intros H. unfold matches. cbn [snd]. now rewrite H. Qed.

Lemma slice_loop_spec (oneEmb : bool) (es : list vec) :
  forall (ts : list string) (pre_e : list vec) (pre_t seen : list string)
         (embeddings : list vec) (sents : list string),
    length pre_e = length pre_t -> (length es <= length ts)%nat ->
    searchable lib regex (firstn (length es) ts) ->
    slice_loop lib regex oneEmb (pre_e ++ es) (pre_t ++ ts)
               (seq (length pre_e) (length es)) seen embeddings sents =
    let kept := select oneEmb seen (filter (matches lib regex) (combine es ts)) in
    Ok (embeddings ++ map fst kept, sents ++ map snd kept).
Proof.
  induction es as [| e es IH];
    intros ts pre_e pre_t seen embeddings sents Hpre Hlen Hok.
  - simpl. destruct oneEmb; simpl; now rewrite !app_nil_r.
  - destruct ts as [| t ts]; [simpl in Hlen; lia |].
    simpl in Hlen. apply le_S_n in Hlen.
    cbn [length firstn] in Hok. inversion Hok as [| t' ts' [found Hfound] Hok']; subst.
    cbn [length seq slice_loop].
    rewrite nth_error_middle, Hpre, nth_error_middle.
    assert (Hpre' : length (pre_e ++ [e]) = length (pre_t ++ [t]))
      by (rewrite !length_app; simpl; lia).
    assert (Hidx : S (length pre_t) = length (pre_e ++ [e]))
      by (rewrite length_app; simpl; lia).
    rewrite Hidx.
    replace (pre_e ++ e :: es) with ((pre_e ++ [e]) ++ es)
      by (now rewrite <- app_assoc).
    replace (pre_t ++ t :: ts) with ((pre_t ++ [t]) ++ ts)
      by (now rewrite <- app_assoc).
    cbn [combine filter].
    rewrite (matches_found e t found Hfound), Hfound.
    destruct found; cbn [negb].
    + destruct oneEmb.
      * unfold select. cbn [first_per_text_from].
        destruct (text_in t seen).
        -- rewrite (IH ts _ _ seen embeddings sents Hpre' Hlen Hok'). reflexivity.
        -- rewrite (IH ts _ _ (t :: seen) _ _ Hpre' Hlen Hok').
           unfold select. cbn [map fst snd]. now rewrite <- !app_assoc.
      * rewrite (IH ts _ _ seen _ _ Hpre' Hlen Hok').
        unfold select. cbn [map fst snd]. now rewrite <- !app_assoc.
    + rewrite (IH ts _ _ seen embeddings sents Hpre' Hlen Hok'). reflexivity.
Qed.

(** Every index of [emb[ts]] needs a sentence: with too few sentences the
    loop ends in an [IndexError], when [re.search] has raised on none of
    the sentences there are. *)
Lemma slice_loop_index_error (oneEmb : bool) (es : list vec) :
  forall (ts : list string) (pre_e : list vec) (pre_t seen : list string)
         (embeddings : list vec) (sents : list string),
    length pre_e = length pre_t -> (length ts < length es)%nat ->
    searchable lib regex ts ->
    slice_loop lib regex oneEmb (pre_e ++ es) (pre_t ++ ts)
               (seq (length pre_e) (length es)) seen embeddings sents =
    Raise IndexError.
Proof.
  induction es as [| e es IH];
    intros ts pre_e pre_t seen embeddings sents Hpre Hlen Hok.
  - simpl in Hlen. lia.
  - cbn [length seq slice_loop]. rewrite nth_error_middle.
    destruct ts as [| t ts].
    + rewrite app_nil_r.
      rewrite (proj2 (nth_error_None pre_t (length pre_e))) by lia.
      reflexivity.
    + simpl in Hlen. apply Nat.succ_lt_mono in Hlen.
      inversion Hok as [| t' ts' [found Hfound] Hok']; subst.
      rewrite Hpre, nth_error_middle.
      assert (Hpre' : length (pre_e ++ [e]) = length (pre_t ++ [t]))
        by (rewrite !length_app; simpl; lia).
      assert (Hidx : S (length pre_t) = length (pre_e ++ [e]))
        by (rewrite length_app; simpl; lia).
      rewrite Hidx.
      replace (pre_e ++ e :: es) with ((pre_e ++ [e]) ++ es)
        by (now rewrite <- app_assoc).
      replace (pre_t ++ t :: ts) with ((pre_t ++ [t]) ++ ts)
        by (now rewrite <- app_assoc).
      rewrite Hfound.
      destruct (negb found); [now apply IH |].
      destruct oneEmb; [destruct (text_in t seen) |]; now apply IH.
Qed.

(** The loop ends at the first sentence on which [re.search] raises, with
    that exception. *)
Lemma slice_loop_search_error (oneEmb : bool) (es : list vec) :
  forall (ts1 : list string) (t : string) (ts2 : list string) (err : exn)
         (pre_e : list vec) (pre_t seen : list string)
         (embeddings : list vec) (sents : list string),
    length pre_e = length pre_t -> (length ts1 < length es)%nat ->
    searchable lib regex ts1 -> re_search lib regex t = Raise err ->
    slice_loop lib regex oneEmb (pre_e ++ es) (pre_t ++ ts1 ++ t :: ts2)
               (seq (length pre_e) (length es)) seen embeddings sents =
    Raise err.
Proof.
  induction es as [| e es IH];
    intros ts1 t ts2 err pre_e pre_t seen embeddings sents Hpre Hlen Hok Herr.
  - simpl in Hlen. lia.
  - cbn [length seq slice_loop]. rewrite nth_error_middle.
    destruct ts1 as [| t1 ts1].
    + cbn [app]. rewrite Hpre, nth_error_middle, Herr. reflexivity.
    + simpl in Hlen. apply Nat.succ_lt_mono in Hlen.
      inversion Hok as [| t' ts' [found Hfound] Hok']; subst.
      cbn [app]. rewrite Hpre, nth_error_middle.
      assert (Hpre' : length (pre_e ++ [e]) = length (pre_t ++ [t1]))
        by (rewrite !length_app; simpl; lia).
      assert (Hidx : S (length pre_t) = length (pre_e ++ [e]))
        by (rewrite length_app; simpl; lia).
      rewrite Hidx.
      replace (pre_e ++ e :: es) with ((pre_e ++ [e]) ++ es)
        by (now rewrite <- app_assoc).
      replace (pre_t ++ t1 :: ts1 ++ t :: ts2)
        with ((pre_t ++ [t1]) ++ ts1 ++ t :: ts2)
        by (now rewrite <- app_assoc).
      rewrite Hfound.
      destruct (negb found); [now apply IH |].
      destruct oneEmb; [destruct (text_in t1 seen) |]; now apply IH.
Qed.

Lemma filter_slice_spec (oneEmb : bool) (embs : list vec) (texts : list string) :
  (length embs <= length texts)%nat ->
  searchable lib regex (firstn (length embs) texts) ->
  filter_slice lib regex oneEmb embs texts =
  let kept := select oneEmb [] (filter (matches lib regex) (occurrences embs texts)) in
  Ok (map fst kept, map snd kept).
Proof.
  intros Hlen Hok. unfold filter_slice.
  apply (slice_loop_spec oneEmb embs texts [] [] [] [] [] eq_refl Hlen Hok).
Qed.

Lemma filter_slice_index_error (oneEmb : bool) (embs : list vec) (texts : list string) :
  (length texts < length embs)%nat -> searchable lib regex texts ->
  filter_slice lib regex oneEmb embs texts = Raise IndexError.
Proof.
  intros Hlen Hok. unfold filter_slice.
  apply (slice_loop_index_error oneEmb embs texts [] [] [] [] [] eq_refl Hlen Hok).
Qed.

Lemma filter_slice_search_error (oneEmb : bool) (embs : list vec)
    (ts1 : list string) (t : string) (ts2 : list string) (err : exn) :
  (length ts1 < length embs)%nat ->
  searchable lib regex ts1 -> re_search lib regex t = Raise err ->
  filter_slice lib regex oneEmb embs (ts1 ++ t :: ts2) = Raise err.
Proof.
  intros Hlen Hok Herr. unfold filter_slice.
  apply (slice_loop_search_error oneEmb embs ts1 t ts2 err [] [] [] [] []
           eq_refl Hlen Hok Herr).
Qed.

(** A loop that ends well has met no exception of [re.search], and had a
    sentence for every embedding. *)
Lemma filter_slice_Ok_inv (oneEmb : bool) (embs : list vec) (texts : list string)
    (r : list vec * list string) :
  filter_slice lib regex oneEmb embs texts = Ok r ->
  (length embs <= length texts)%nat /\
  searchable lib regex (firstn (length embs) texts).
Proof.
  intros H.
  assert (Hcases :
            (exists ts1 t ts2 err,
                texts = ts1 ++ t :: ts2 /\ (length ts1 < length embs)%nat /\
                searchable lib regex ts1 /\ re_search lib regex t = Raise err) \/
            searchable lib regex (firstn (length embs) texts)).
  { clear H. generalize (length embs) as n.
    induction texts as [| t ts IH]; intros n.
    - right. rewrite firstn_nil. constructor.
    - destruct n as [| n]; [right; constructor |].
      destruct (re_search lib regex t) as [found | err] eqn:E.
      + destruct (IH n) as [(ts1 & t' & ts2 & err & -> & Hl & Hok & Herr) | Hok].
        * left. exists (t :: ts1), t', ts2, err.
          repeat split; [simpl; lia | constructor; eauto | exact Herr].
        * right. cbn [firstn]. constructor; eauto.
      + left. exists [], t, ts, err. repeat split; [simpl; lia | constructor | exact E]. }
  destruct Hcases as [(ts1 & t & ts2 & err & -> & Hl & Hok & Herr) | Hok].
  - rewrite (filter_slice_search_error oneEmb embs ts1 t ts2 err Hl Hok Herr) in H.
    discriminate.
  - split; [| exact Hok].
    destruct (Nat.le_gt_cases (length embs) (length texts)) as [Hle | Hgt];
      [exact Hle | exfalso].
    rewrite firstn_all2 in Hok by lia.
    rewrite (filter_slice_index_error oneEmb embs texts Hgt Hok) in H.
    discriminate.
Qed.

End FilterLoop.

(** ** Keeping the first occurrence of every sentence *)

Lemma text_in_spec (t : string) (l : list string) : text_in t l = true <-> In t l.
Proof.
  unfold text_in. rewrite existsb_exists. split.
  - intros (x & Hin & E). apply String.eqb_eq in E. now subst.
  - intros Hin. exists t. split; [assumption | apply String.eqb_refl].
Qed.

(** No sentence is kept twice, and none that has been seen. *)
Lemma first_per_text_from_NoDup (items : list (vec * string)) :
  forall seen : list string,
    NoDup (map snd (first_per_text_from seen items)) /\
    forall t, In t (map snd (first_per_text_from seen items)) -> ~ In t seen.
Proof.
  induction items as [| [e t] items IH]; intros seen.
  - simpl. split; [constructor | contradiction].
  - cbn [first_per_text_from]. destruct (text_in t seen) eqn:E; [apply IH |].
    destruct (IH (t :: seen)) as [Hnd Hnot]. cbn [map snd]. split.
    + constructor; [| exact Hnd]. intros Hin. apply (Hnot t Hin). now left.
    + intros t' [<- | Hin].
      * intros Hs. apply text_in_spec in Hs. congruence.
      * intros Hs. apply (Hnot t' Hin). now right.
Qed.

(** Every sentence that was not seen before is kept. *)
Lemma first_per_text_from_complete (items : list (vec * string)) :
  forall (seen : list string) (t : string),
    In t (map snd items) -> ~ In t seen ->
    In t (map snd (first_per_text_from seen items)).
Proof.
  induction items as [| [e t0] items IH]; intros seen t Hin Hseen;
    [contradiction |].
  cbn [first_per_text_from]. cbn [map snd] in Hin.
  destruct (text_in t0 seen) eqn:E.
  - apply text_in_spec in E. destruct Hin as [-> | Hin]; [contradiction |].
    now apply IH.
  - cbn [map snd]. destruct (string_dec t0 t) as [-> | Hne]; [now left |].
    right. destruct Hin as [-> | Hin]; [contradiction |].
    apply IH; [assumption |]. intros [-> | Hs]; contradiction.
Qed.

(** *** Parts of a list, in its order *)

Lemma subsequence_refl {A} (l : list A) : subsequence l l.
Proof. induction l; constructor; assumption. Qed.

Lemma subsequence_In {A} (l l' : list A) (x : A) :
  subsequence l l' -> In x l -> In x l'.
Proof.
  induction 1 as [| y l l' _ IH | y l l' _ IH]; simpl; auto.
  intros [-> | H]; auto.
Qed.

Lemma subsequence_trans {A} (l1 l2 l3 : list A) :
  subsequence l1 l2 -> subsequence l2 l3 -> subsequence l1 l3.
Proof.
  intros H12 H23. revert l1 H12.
  induction H23 as [| x l2 l3 _ IH | x l2 l3 _ IH]; intros l1 H12.
  - exact H12.
  - constructor. now apply IH.
  - inversion H12; subst; constructor; now apply IH.
Qed.

Lemma subsequence_filter {A} (f : A -> bool) (l : list A) :
  subsequence (filter f l) l.
Proof.
  induction l as [| x l IH]; simpl; [constructor |].
  destruct (f x); constructor; assumption.
Qed.

Lemma subsequence_first_per_text (items : list (vec * string)) :
  forall seen, subsequence (first_per_text_from seen items) items.
Proof.
  induction items as [| [e t] items IH]; intros seen; simpl; [constructor |].
  destruct (text_in t seen); constructor; apply IH.
Qed.

Lemma subsequence_select (oneEmb : bool) (seen : list string)
    (items : list (vec * string)) :
  subsequence (select oneEmb seen items) items.
Proof.
  destruct oneEmb; [apply subsequence_first_per_text | apply subsequence_refl].
Qed.

Lemma combine_fst_snd {A B} (l : list (A * B)) :
  combine (map fst l) (map snd l) = l.
Proof.
  induction l as [| [a b] l IH]; [reflexivity |]. simpl. now rewrite IH.
Qed.

(** *** The first occurrence of every sentence *)

(** An occurrence that is kept has no occurrence with its sentence before
    it. *)
Lemma first_per_text_from_first (items : list (vec * string)) :
  forall (seen : list string) (e : vec) (t : string),
    In (e, t) (first_per_text_from seen items) ->
    exists pre post,
      items = pre ++ (e, t) :: post /\ ~ In t (map snd pre).
Proof.
  induction items as [| [e0 t0] items IH]; intros seen e t Hin;
    [contradiction |].
  cbn [first_per_text_from] in Hin.
  destruct (text_in t0 seen) eqn:E.
  - destruct (IH seen e t Hin) as (pre & post & -> & Hpre).
    exists ((e0, t0) :: pre), post. split; [reflexivity |].
    cbn [map snd]. intros [<- | H]; [| contradiction].
    apply text_in_spec in E.
    destruct (first_per_text_from_NoDup (pre ++ (e, t0) :: post) seen) as [_ Hnot].
    apply (Hnot t0); [| exact E].
    apply (in_map snd) in Hin. exact Hin.
  - destruct Hin as [Heq | Hin].
    + injection Heq as <- <-. exists [], items. split; [reflexivity | auto].
    + destruct (IH (t0 :: seen) e t Hin) as (pre & post & -> & Hpre).
      exists ((e0, t0) :: pre), post. split; [reflexivity |].
      cbn [map snd]. intros [<- | H]; [| contradiction].
      destruct (first_per_text_from_NoDup (pre ++ (e, t0) :: post) (t0 :: seen))
        as [_ Hnot].
      apply (Hnot t0); [| now left].
      apply (in_map snd) in Hin. exact Hin.
Qed.

(** What the loop keeps with one embedding per sentence. *)
Lemma first_per_text_from_nil_spec (items : list (vec * string)) :
  first_of_each_sentence (first_per_text_from [] items) items.
Proof.
  destruct (first_per_text_from_NoDup items []) as [Hnd _].
  repeat split.
  - apply subsequence_first_per_text.
  - exact Hnd.
  - intros t Hin. apply first_per_text_from_complete; auto.
  - intros e t. apply first_per_text_from_first.
Qed.

(** ** A library to run the script on *)


Lemma string_length_append (w s : string) :
  String.length (String.append w s) = (String.length w + String.length s)%nat.
Proof. induction w as [| c w IH]; simpl; [reflexivity | now rewrite IH]. Qed.



Lemma reference_library_searchable (regex : string) (texts : list string) :
  searchable reference_library regex texts.
Proof. apply Forall_forall. intros t _. eexists. reflexivity. Qed.




(** ** The word without its part-of-speech tags *)

Open Scope string_scope.

Lemma replace_from_skip (old new : string) (s : string) :
  forall k : nat, replace_from old new k s = replace_from old new 0 (drop k s).
Proof.
  induction s as [| c s IH]; intros [| k]; try reflexivity.
  cbn [replace_from drop]. apply IH.
Qed.

Lemma prefix_append (old rest : string) : String.prefix old (old ++ rest) = true.
Proof. apply prefix_spec. now exists rest. Qed.

(** [replace] passes over an occurrence at the start. *)
Lemma replace_at_occurrence (old rest : string) :
  old <> EmptyString ->
  replace (old ++ rest) old EmptyString = replace rest old EmptyString.
Proof.
  intros Hne. destruct old as [| c old]; [contradiction |].
  unfold replace. cbn [String.append replace_from].
  change (String c (old ++ rest)) with (String c old ++ rest).
  rewrite prefix_append. cbn [String.append String.length].
  replace (S (String.length old) - 1)%nat with (String.length old) by lia.
  rewrite replace_from_skip, drop_append. reflexivity.
Qed.

Lemma replace_at_other (old : string) (c : ascii) (s : string) :
  String.prefix old (String c s) = false ->
  replace (String c s) old EmptyString = String c (replace s old EmptyString).
Proof. intros H. unfold replace. cbn [replace_from]. now rewrite H. Qed.


Lemma replace_removed (old : string) :
  old <> EmptyString ->
  forall (n : nat) (s : string),
    (String.length s <= n)%nat -> removed old s (replace s old EmptyString).
Proof.
  intros Hne. induction n as [| n IH]; intros s Hlen.
  - destruct s; [apply removed_end | simpl in Hlen; lia].
  - destruct s as [| c s]; [apply removed_end |].
    destruct (String.prefix old (String c s)) eqn:Hp.
    + apply prefix_spec in Hp as [rest E]. rewrite E.
      rewrite replace_at_occurrence by assumption.
      apply removed_here, IH.
      assert (L : String.length (String c s) = (String.length old + String.length rest)%nat)
        by (rewrite E; apply string_length_append).
      destruct old; [contradiction |]. simpl in L, Hlen. lia.
    + rewrite replace_at_other by assumption.
      apply removed_next; [assumption |]. apply IH. simpl in Hlen. lia.
Qed.

(** The two [replace] calls of line 143 strip the tags, and nothing else
    does. *)
Lemma without_pos_tags_strip_pos (word : string) :
  without_pos_tags word (strip_pos word).
Proof.
  exists (replace word "_vb" EmptyString). split.
  - apply (replace_removed "_vb") with (n := String.length word);
      [discriminate | lia].
  - apply (replace_removed "_nn")
      with (n := String.length (replace word "_vb" EmptyString));
      [discriminate | lia].
Qed.


Close Scope string_scope.

(** ** C5: the occurrences that pass the filter *)

Lemma strip_pos_examples :
  strip_pos "plane_nn" = "plane"%string /\
  strip_pos "attack_vb" = "attack"%string /\
  strip_pos "plane" = "plane"%string.
Proof. repeat split; reflexivity. Qed.





(** ** Running the monad *)

Lemma bind_Ok_inv {A B} (m : M A) (k : A -> M B) (w w' : world) (b : B) :
  bind m k w = (Ok b, w') ->
  exists a w1, m w = (Ok a, w1) /\ k a w1 = (Ok b, w').
Proof.
  unfold bind. destruct (m w) as [[a | e] w1]; [eauto | discriminate].
Qed.

Lemma bind_run {A B} (m : M A) (k : A -> M B) (w w1 : world) (a : A) :
  m w = (Ok a, w1) -> bind m k w = k a w1.
Proof. intros H. unfold bind. now rewrite H. Qed.

Lemma bind_raise {A B} (m : M A) (k : A -> M B) (w w1 : world) (e : exn) :
  m w = (Raise e, w1) -> bind m k w = (Raise e, w1).
Proof. intros H. unfold bind. now rewrite H. Qed.

Lemma lift_Ok_inv {A} (o : outcome A) (w w' : world) (a : A) :
  lift o w = (Ok a, w') -> o = Ok a /\ w' = w.
Proof. unfold lift. intros H. injection H as -> ->. auto. Qed.

(** ** [compute_divergence_from_cluster_labels] always returns *)

Lemma array_div_length (a : ndarray) (s : float64) :
  length (array_div a s) = length a.
Proof. apply length_map. Qed.

Lemma entropy_total (pk qk : ndarray) :
  length pk = length qk -> exists e, entropy pk qk = Ok e.
Proof.
  intros H. unfold entropy.
  rewrite broadcast_arrays_same by (now rewrite array_div_length).
  eauto.
Qed.

Lemma jsd_of_arrays_total (pa qa : ndarray) :
  length pa = length qa -> exists d, jsd_of_arrays pa qa = Ok d.
Proof.
  intros H. unfold jsd_of_arrays, array_add.
  rewrite broadcast_arrays_same by assumption.
  assert (Hm : length (array_div (zip_with fadd pa qa) (Some 2)) = length pa)
    by (rewrite array_div_length; now apply zip_with_length).
  destruct (entropy_total pa _ (eq_sym Hm)) as [e1 ->].
  destruct (entropy_total qa (array_div (zip_with fadd pa qa) (Some 2)))
    as [e2 ->]; [congruence | eauto].
Qed.

Lemma heap_after_jsd_lengths (h : list ndarray) (lp lq : loc) :
  (lp < length h)%nat -> (lq < length h)%nat ->
  length (heap_get (heap_after_jsd h lp lq) lp) = length (heap_get h lp) /\
  length (heap_get (heap_after_jsd h lp lq) lq) = length (heap_get h lq).
Proof.
  intros Hp Hq. unfold heap_after_jsd. cbv zeta.
  destruct (Nat.eq_dec lp lq) as [<- | Hne].
  - rewrite !heap_get_set_same by (rewrite ?heap_set_length; assumption).
    rewrite !array_div_length. auto.
  - rewrite (heap_get_set_other _ lq lp) by congruence.
    rewrite (heap_get_set_same _ lq) by (rewrite ?heap_set_length; assumption).
    rewrite (heap_get_set_other _ lp lq) by assumption.
    rewrite heap_get_set_same by assumption.
    rewrite !array_div_length. auto.
Qed.

Lemma compute_divergence_total (labels1 labels2 : list Z) (w : world) :
  exists d w',
    compute_divergence_from_cluster_labels labels1 labels2 w = (Ok d, w') /\
    files w' = files w /\ dirs w' = dirs w.
Proof.
  unfold compute_divergence_from_cluster_labels.
  unfold bind, alloc, print, ret. cbn [heap stdout files].
  match goal with
  | |- context [compute_jsd (NdArray ?a) (NdArray ?b) ?ww] =>
      set (lp := a); set (lq := b); set (w2 := ww)
  end.
  rewrite compute_jsd_unfold. cbn [asarray_world asarray_loc].
  assert (Hp : (lp < length (heap w2))%nat)
    by (subst lp w2; cbn [heap]; rewrite !length_app; simpl; lia).
  assert (Hq : (lq < length (heap w2))%nat)
    by (subst lq w2; cbn [heap]; rewrite !length_app; simpl; lia).
  destruct (heap_after_jsd_lengths (heap w2) lp lq Hp Hq) as [Lp Lq].
  assert (Hlen : length (heap_get (heap_after_jsd (heap w2) lp lq) lp) =
                 length (heap_get (heap_after_jsd (heap w2) lp lq) lq)).
  { rewrite Lp, Lq. subst lp lq w2. cbn [heap].
    rewrite heap_get_app_old by (rewrite length_app; simpl; lia).
    rewrite !heap_get_app_new.
    now rewrite !array_div_length, !length_map. }
  destruct (jsd_of_arrays_total _ _ Hlen) as [d ->].
  eexists. eexists. split; [reflexivity | split; reflexivity].
Qed.

(** ** One word *)

(** *** The computations leave the disk alone *)

Lemma keeps_disk_print (items : list pyobj) : keeps_disk (print items).
Proof. intros w o w' H. unfold print in H. injection H as _ <-. auto. Qed.

Lemma keeps_disk_lift {A} (o : outcome A) : keeps_disk (lift o).
Proof. intros w o' w' H. unfold lift in H. injection H as _ <-. auto. Qed.

Lemma keeps_disk_ret {A} (a : A) : keeps_disk (ret a).
Proof. intros w o w' H. unfold ret in H. injection H as _ <-. auto. Qed.

Lemma keeps_disk_raise {A} (e : exn) : keeps_disk (@raise A e).
Proof. intros w o w' H. unfold raise in H. injection H as _ <-. auto. Qed.

Lemma keeps_disk_path_exists (path : string) : keeps_disk (os_path_exists path).
Proof. intros w o w' H. unfold os_path_exists in H. injection H as _ <-. auto. Qed.

Lemma keeps_disk_bind {A B} (m : M A) (k : A -> M B) :
  keeps_disk m -> (forall a, keeps_disk (k a)) -> keeps_disk (bind m k).
Proof.
  intros Hm Hk w o w' H. unfold bind in H.
  destruct (m w) as [[a | e] w1] eqn:E.
  - destruct (Hk a _ _ _ H) as [F D]. destruct (Hm _ _ _ E) as [F' D'].
    split; congruence.
  - injection H as _ <-. apply (Hm _ _ _ E).
Qed.

Lemma keeps_disk_averaged (e1 e2 : list vec) :
  keeps_disk (compute_averaged_embedding_dist e1 e2).
Proof.
  unfold compute_averaged_embedding_dist.
  destruct (np_mean_axis0 e1); [| apply keeps_disk_raise].
  destruct (np_mean_axis0 e2); [| apply keeps_disk_raise].
  apply keeps_disk_bind; [apply keeps_disk_lift |]. intros c.
  apply keeps_disk_bind; [apply keeps_disk_print |]. intros _.
  apply keeps_disk_ret.
Qed.

Lemma keeps_disk_aff_prop (lib : Library) (X : list vec) (pref : option R) :
  keeps_disk (cluster_word_embeddings_aff_prop lib X pref).
Proof.
  unfold cluster_word_embeddings_aff_prop.
  apply keeps_disk_bind; [apply keeps_disk_lift |]. intros c.
  apply keeps_disk_bind; [apply keeps_disk_print |]. intros _.
  apply keeps_disk_ret.
Qed.

Lemma keeps_disk_k_means (lib : Library) (X : list vec) (k : nat) :
  keeps_disk (cluster_word_embeddings_k_means lib X k).
Proof.
  unfold cluster_word_embeddings_k_means.
  apply keeps_disk_bind; [apply keeps_disk_lift |]. intros c.
  apply keeps_disk_ret.
Qed.

Lemma keeps_disk_divergence (labels1 labels2 : list Z) :
  keeps_disk (compute_divergence_from_cluster_labels labels1 labels2).
Proof.
  intros w o w' H.
  destruct (compute_divergence_total labels1 labels2 w) as (d & w1 & E & Hf).
  rewrite E in H. injection H as _ <-. exact Hf.
Qed.

Lemma keeps_disk_files {A} (m : M A) : keeps_disk m -> keeps_files m.
Proof. intros H w o w' E. apply (H w o w' E). Qed.

Lemma path_exists_same_disk (w w1 : world) (path : string) :
  files w1 = files w -> dirs w1 = dirs w ->
  path_exists w1 path = path_exists w path.
Proof. intros F D. unfold path_exists. now rewrite F, D. Qed.

Lemma results_dir_ready_same_disk (lib : Library) (w w1 : world) (rd : string) :
  files w1 = files w -> dirs w1 = dirs w ->
  results_dir_ready lib w rd -> results_dir_ready lib w1 rd.
Proof.
  intros F D. unfold results_dir_ready.
  now rewrite (path_exists_same_disk w w1 rd F D).
Qed.

(** *** Writing *)

Lemma write_file_run (lib : Library) (path : string) (c : file_content) (w : world) :
  can_open lib path = true ->
  write_file lib path c w =
  (Ok tt, mk_world (heap w) (stdout w) (dict_set (files w) path c) (dirs w)).
Proof. intros H. unfold write_file. now rewrite H. Qed.

Lemma write_file_Ok_inv (lib : Library) (path : string) (c : file_content)
    (w w' : world) (u : unit) :
  write_file lib path c w = (Ok u, w') ->
  can_open lib path = true /\
  w' = mk_world (heap w) (stdout w) (dict_set (files w) path c) (dirs w).
Proof.
  unfold write_file. destruct (can_open lib path); [| discriminate].
  intros H. injection H as _ <-. auto.
Qed.

(** A write that fails raises an [OSError] and leaves the world as it
    is. *)
Lemma write_file_raise_inv (lib : Library) (path : string) (c : file_content)
    (w w' : world) (e : exn) :
  write_file lib path c w = (Raise e, w') ->
  e = OSError /\ w' = w /\ can_open lib path = false.
Proof.
  unfold write_file. destruct (can_open lib path); [discriminate |].
  unfold raise. intros H. injection H as <- <-. auto.
Qed.

Lemma save_pickles_run (lib : Library) (results_dir lang : string)
    (acc : accumulators) (w : world) :
  can_open_pickles lib results_dir lang ->
  save_pickles lib results_dir lang acc w =
  (Ok tt, mk_world (heap w) (stdout w)
                   (pickle_files results_dir lang acc (files w)) (dirs w)).
Proof.
  intros H. unfold can_open_pickles, pickle_names in H.
  repeat match type of H with
         | Forall _ (_ :: _) =>
             let H1 := fresh "O" in
             inversion H as [| ? ? H1 H']; subst; clear H; rename H' into H
         end.
  unfold save_pickles. cbv zeta.
  repeat (erewrite bind_run; [| apply write_file_run; assumption];
          cbn [heap stdout files dirs]).
  rewrite write_file_run by assumption. reflexivity.
Qed.

Lemma save_pickles_Ok_inv (lib : Library) (results_dir lang : string)
    (acc : accumulators) (w w' : world) (u : unit) :
  save_pickles lib results_dir lang acc w = (Ok u, w') ->
  can_open_pickles lib results_dir lang /\
  w' = mk_world (heap w) (stdout w)
                (pickle_files results_dir lang acc (files w)) (dirs w).
Proof.
  unfold save_pickles. cbv zeta. intros H.
  repeat match type of H with
         | bind _ _ _ = _ =>
             let w1 := fresh "w" in
             let H1 := fresh "H" in
             let O := fresh "O" in
             apply bind_Ok_inv in H as (? & w1 & H1 & H);
             apply write_file_Ok_inv in H1 as [O ->];
             cbn [heap stdout files dirs] in H
         end.
  apply write_file_Ok_inv in H as [Olast ->]. cbn [heap stdout files dirs].
  split; [| reflexivity].
  unfold can_open_pickles, pickle_names. repeat constructor; assumption.
Qed.

(** Line 217 and 218: the results directory is made when it is not
    there. *)
Lemma makedirs_step_run (lib : Library) (results_dir : string) (w : world) :
  results_dir_ready lib w results_dir ->
  exists w1,
    (if negb (path_exists w results_dir)
     then os_makedirs lib results_dir else ret tt) w = (Ok tt, w1) /\
    heap w1 = heap w /\ stdout w1 = stdout w /\ files w1 = files w.
Proof.
  intros [H | [Hne Hmk]].
  - rewrite H. cbn [negb]. exists w. unfold ret. auto.
  - destruct (path_exists w results_dir); cbn [negb].
    + exists w. unfold ret. auto.
    + unfold os_makedirs.
      apply String.eqb_neq in Hne. rewrite Hne, Hmk.
      eexists. split; [reflexivity |]. auto.
Qed.

Lemma makedirs_step_Ok_inv (lib : Library) (results_dir : string)
    (w w1 : world) (u : unit) :
  (if negb (path_exists w results_dir)
   then os_makedirs lib results_dir else ret tt) w = (Ok u, w1) ->
  results_dir_ready lib w results_dir /\
  heap w1 = heap w /\ stdout w1 = stdout w /\ files w1 = files w.
Proof.
  unfold results_dir_ready.
  destruct (path_exists w results_dir); cbn [negb].
  - unfold ret. intros H. injection H as _ <-. auto.
  - unfold os_makedirs.
    destruct (String.eqb results_dir EmptyString) eqn:E; [discriminate |].
    destruct (can_makedirs lib results_dir); [| discriminate].
    intros H. injection H as _ <-. cbn [heap stdout files].
    apply String.eqb_neq in E. auto.
Qed.


Lemma compute_averaged_inv (e1 e2 : list vec) (w w1 : world) (d : R) :
  compute_averaged_embedding_dist e1 e2 w = (Ok d, w1) ->
  e1 <> [] /\ e2 <> [] /\ files w1 = files w.
Proof.
  unfold compute_averaged_embedding_dist.
  destruct e1 as [| x e1]; [discriminate |].
  destruct e2 as [| y e2]; [discriminate |].
  cbn [np_mean_axis0]. intros H.
  apply bind_Ok_inv in H as (c & w2 & Hc & H).
  apply lift_Ok_inv in Hc as [_ ->].
  unfold bind, print, ret in H. injection H as _ <-.
  repeat split; discriminate.
Qed.

Lemma np_concatenate_inv (e1 e2 X : list vec) :
  np_concatenate e1 e2 = Ok X -> X = e1 ++ e2.
Proof.
  unfold np_concatenate.
  destruct e1 as [| x e1], e2 as [| y e2]; try discriminate.
  - intros H. now injection H as <-.
  - destruct (Nat.eqb (length x) (length y)); [| discriminate].
    intros H. now injection H as <-.
Qed.

Lemma aff_prop_inv (lib : Library) (X : list vec) (w w1 : world)
    (r : list Z * list vec) :
  cluster_word_embeddings_aff_prop lib X None w = (Ok r, w1) ->
  AffinityPropagation_fit lib None X = Ok r /\ files w1 = files w.
Proof.
  unfold cluster_word_embeddings_aff_prop. intros H.
  apply bind_Ok_inv in H as (c & w2 & Hc & H).
  apply lift_Ok_inv in Hc as [Hc ->].
  unfold bind, print, ret in H. injection H as <- <-.
  rewrite Hc. now destruct c.
Qed.

Lemma k_means_inv (lib : Library) (X : list vec) (k : nat) (w w1 : world)
    (r : list Z * list vec) :
  cluster_word_embeddings_k_means lib X k w = (Ok r, w1) ->
  KMeans_fit lib k 0 X = Ok r /\ files w1 = files w.
Proof.
  unfold cluster_word_embeddings_k_means. intros H.
  apply bind_Ok_inv in H as (c & w2 & Hc & H).
  apply lift_Ok_inv in Hc as [Hc ->].
  unfold ret in H. injection H as <- <-.
  rewrite Hc. now destruct c.
Qed.

Lemma compute_divergence_inv (labels1 labels2 : list Z) (w w1 : world) (d : float64) :
  compute_divergence_from_cluster_labels labels1 labels2 w = (Ok d, w1) ->
  files w1 = files w.
Proof.
  destruct (compute_divergence_total labels1 labels2 w) as (d' & w' & E & Hf & _).
  rewrite E. intros H. now injection H as _ <-.
Qed.

(** A successful pass of the loop body, read backwards. *)
Lemma process_word_inv (lib : Library) (a : args) (i : nat) (word : string)
    (emb : word_embeddings) (acc acc' : accumulators) (w w' : world) :
  process_word lib a i word emb acc w = (Ok acc', w') ->
  exists (an : analysis) (table : list row),
    filter_occurrences lib (one_embedding_per_sentence a) word emb =
      Ok ((an_embeddings1 an, an_texts1 an), (an_embeddings2 an, an_texts2 an)) /\
    an_embeddings1 an <> [] /\ an_embeddings2 an <> [] /\
    AffinityPropagation_fit lib None (an_embeddings1 an ++ an_embeddings2 an) =
      Ok (an_aff_prop an) /\
    KMeans_fit lib 5 0 (an_embeddings1 an ++ an_embeddings2 an) = Ok (an_kmeans_5 an) /\
    KMeans_fit lib 7 0 (an_embeddings1 an ++ an_embeddings2 an) = Ok (an_kmeans_7 an) /\
    acc' = record_word acc word an /\
    from_dict (results_dict acc') = Ok table /\
    files w' =
      pickle_files (semeval_results a) (language a) acc'
        (dict_set (files w) (csv_path (semeval_results a) (language a))
                  (Csv (sort_values table))).
Proof.
  unfold process_word. intros H. cbv zeta in H.
  apply bind_Ok_inv in H as (? & w1 & H1 & H). injection H1 as _ <-.
  apply bind_Ok_inv in H as ([[e1 t1] [e2 t2]] & w2 & H2 & H).
  apply lift_Ok_inv in H2 as [Hf ->]. cbn [fst snd] in H.
  apply bind_Ok_inv in H as (? & w3 & H3 & H). injection H3 as _ <-.
  apply bind_Ok_inv in H as (? & w4 & H4 & H). injection H4 as _ <-.
  apply bind_Ok_inv in H as (avg & w5 & H5 & H).
  apply compute_averaged_inv in H5 as (N1 & N2 & F5).
  apply bind_Ok_inv in H as (X & w6 & H6 & H).
  apply lift_Ok_inv in H6 as [HX ->]. apply np_concatenate_inv in HX. subst X.
  apply bind_Ok_inv in H as (aff & w7 & H7 & H).
  apply aff_prop_inv in H7 as [Haff F7].
  apply bind_Ok_inv in H as (d1 & w8 & H8 & H).
  apply compute_divergence_inv in H8 as F8.
  apply bind_Ok_inv in H as (km5 & w9 & H9 & H).
  apply k_means_inv in H9 as [Hkm5 F9].
  apply bind_Ok_inv in H as (d2 & w10 & H10 & H).
  apply compute_divergence_inv in H10 as F10.
  apply bind_Ok_inv in H as (km7 & w11 & H11 & H).
  apply k_means_inv in H11 as [Hkm7 F11].
  apply bind_Ok_inv in H as (d3 & w12 & H12 & H).
  apply compute_divergence_inv in H12 as F12.
  apply bind_Ok_inv in H as (there & w12' & Hex & H).
  unfold os_path_exists in Hex. injection Hex as <- <-.
  apply bind_Ok_inv in H as (? & wd & Hmk & H).
  apply makedirs_step_Ok_inv in Hmk as (_ & _ & _ & Fd).
  apply bind_Ok_inv in H as (table & w13 & H13 & H).
  apply lift_Ok_inv in H13 as [Htable ->].
  apply bind_Ok_inv in H as (? & w14 & H14 & H).
  apply write_file_Ok_inv in H14 as [_ ->].
  apply bind_Ok_inv in H as (? & w15 & H15 & H).
  apply save_pickles_Ok_inv in H15 as [_ ->].
  apply bind_Ok_inv in H as (? & w16 & H16 & H). injection H16 as _ <-.
  injection H as <- <-.
  exists (mk_analysis e1 t1 e2 t2 avg aff km5 km7 d1 d2 d3), table.
  cbn [an_embeddings1 an_texts1 an_embeddings2 an_texts2 an_aff_prop
       an_kmeans_5 an_kmeans_7].
  repeat (split; [assumption || reflexivity |]).
  cbn [files heap stdout].
  rewrite Fd, F12, F11, F10, F9, F8, F7, F5. reflexivity.
Qed.

(** What a successful pass of the loop body tells about the operating
    system. *)
Lemma process_word_inv_os (lib : Library) (a : args) (i : nat) (word : string)
    (emb : word_embeddings) (acc acc' : accumulators) (w w' : world) :
  process_word lib a i word emb acc w = (Ok acc', w') ->
  results_dir_ready lib w (semeval_results a) /\
  can_open lib (csv_path (semeval_results a) (language a)) = true /\
  can_open_pickles lib (semeval_results a) (language a).
Proof.
  unfold process_word. intros H. cbv zeta in H.
  apply bind_Ok_inv in H as (? & w1 & H1 & H).
  destruct (keeps_disk_print _ _ _ _ H1) as [F1 D1].
  apply bind_Ok_inv in H as ([[e1 t1] [e2 t2]] & w2 & H2 & H).
  apply lift_Ok_inv in H2 as [Hf ->]. cbn [fst snd] in H.
  apply bind_Ok_inv in H as (? & w3 & H3 & H).
  destruct (keeps_disk_print _ _ _ _ H3) as [F3 D3].
  apply bind_Ok_inv in H as (? & w4 & H4 & H).
  destruct (keeps_disk_print _ _ _ _ H4) as [F4 D4].
  apply bind_Ok_inv in H as (avg & w5 & H5 & H).
  destruct (keeps_disk_averaged _ _ _ _ _ H5) as [F5 D5].
  apply bind_Ok_inv in H as (X & w6 & H6 & H).
  apply lift_Ok_inv in H6 as [HX ->].
  apply bind_Ok_inv in H as (aff & w7 & H7 & H).
  destruct (keeps_disk_aff_prop _ _ _ _ _ _ H7) as [F7 D7].
  apply bind_Ok_inv in H as (d1 & w8 & H8 & H).
  destruct (keeps_disk_divergence _ _ _ _ _ H8) as [F8 D8].
  apply bind_Ok_inv in H as (km5 & w9 & H9 & H).
  destruct (keeps_disk_k_means _ _ _ _ _ _ H9) as [F9 D9].
  apply bind_Ok_inv in H as (d2 & w10 & H10 & H).
  destruct (keeps_disk_divergence _ _ _ _ _ H10) as [F10 D10].
  apply bind_Ok_inv in H as (km7 & w11 & H11 & H).
  destruct (keeps_disk_k_means _ _ _ _ _ _ H11) as [F11 D11].
  apply bind_Ok_inv in H as (d3 & w12 & H12 & H).
  destruct (keeps_disk_divergence _ _ _ _ _ H12) as [F12 D12].
  apply bind_Ok_inv in H as (there & w12' & Hex & H).
  unfold os_path_exists in Hex. injection Hex as <- <-.
  apply bind_Ok_inv in H as (? & wd & Hmk & H).
  apply makedirs_step_Ok_inv in Hmk as (Hready & _).
  apply bind_Ok_inv in H as (table & w13 & H13 & H).
  apply lift_Ok_inv in H13 as [Htable ->].
  apply bind_Ok_inv in H as (? & w14 & H14 & H).
  apply write_file_Ok_inv in H14 as [Ocsv ->].
  apply bind_Ok_inv in H as (? & w15 & H15 & H).
  apply save_pickles_Ok_inv in H15 as [Opkl ->].
  split; [| split; assumption].
  apply (results_dir_ready_same_disk lib w12 w); [congruence | congruence | exact Hready].
Qed.

(** ** Files *)

Lemma dict_get_set_same {V} (d : dict V) (k : string) (v : V) :
  dict_get (dict_set d k v) k = Some v.
Proof.
  induction d as [| [k' v'] d IH]; simpl.
  - now rewrite String.eqb_refl.
  - destruct (String.eqb k' k) eqn:E; simpl; rewrite E; [reflexivity | exact IH].
Qed.

Lemma dict_get_set_other {V} (d : dict V) (k k' : string) (v : V) :
  k <> k' -> dict_get (dict_set d k v) k' = dict_get d k'.
Proof.
  intros Hne. induction d as [| [k0 v0] d IH]; simpl.
  - destruct (String.eqb k k') eqn:E; [| reflexivity].
    apply String.eqb_eq in E. contradiction.
  - destruct (String.eqb k0 k) eqn:E; simpl.
    + apply String.eqb_eq in E. subst k0.
      destruct (String.eqb k k') eqn:E'; [| reflexivity].
      apply String.eqb_eq in E'. contradiction.
    + now rewrite IH.
Qed.

Lemma append_inj_l (s a b : string) :
  String.append s a = String.append s b -> a = b.
Proof.
  induction s as [| c s IH]; simpl; [auto |].
  intros H. injection H as H. auto.
Qed.

(** The table and the pickles are different files. *)
Lemma csv_path_not_pickle (results_dir lang name : string) (c : ascii) (rest : string) :
  name = String c rest -> c <> "r"%char ->
  String.append results_dir (String.append name (String.append lang ".pkl")) <>
  csv_path results_dir lang.
Proof.
  intros -> Hc H. unfold csv_path in H. apply append_inj_l in H.
  simpl in H. injection H as H _. contradiction.
Qed.

Lemma pickle_files_csv (results_dir lang : string) (acc : accumulators)
    (fs : dict file_content) :
  dict_get (pickle_files results_dir lang acc fs) (csv_path results_dir lang) =
  dict_get fs (csv_path results_dir lang).
Proof.
  unfold pickle_files. cbv zeta.
  repeat (rewrite dict_get_set_other;
          [| eapply csv_path_not_pickle; [reflexivity | discriminate]]).
  reflexivity.
Qed.

Lemma pickle_files_sents (results_dir lang : string) (acc : accumulators)
    (fs : dict file_content) :
  dict_get (pickle_files results_dir lang acc fs)
           (String.append results_dir (String.append "sents_" (String.append lang ".pkl"))) =
  Some (PickleSents (sentence_dict acc)).
Proof. unfold pickle_files. cbv zeta. apply dict_get_set_same. Qed.

(** ** Sorting the table *)



Lemma insert_row_perm (r : row) (t : list row) : Permutation (insert_row r t) (r :: t).
Proof.
  induction t as [| r' t IH]; simpl; [reflexivity |].
  destruct (precedes (r_aff_prop r) (r_aff_prop r')); [reflexivity |].
  rewrite IH. apply perm_swap.
Qed.



Lemma sort_values_perm (t : list row) : Permutation (sort_values t) t.
Proof.
  induction t as [| r t IH]; simpl; [reflexivity |].
  rewrite insert_row_perm. now constructor.
Qed.


(** ** The table of the accumulated results *)



Lemma from_dict_aligned (rd : results_dict_t) :
  aligned rd -> exists table, from_dict rd = Ok table.
Proof.
  intros (H1 & H2 & H3 & H4 & H5). unfold from_dict.
  rewrite H1, H2, H3, H4, H5, !Nat.eqb_refl. simpl. eauto.
Qed.

Lemma record_word_aligned (acc : accumulators) (word : string) (an : analysis) :
  aligned (results_dict acc) -> aligned (results_dict (record_word acc word an)).
Proof.
  intros (H1 & H2 & H3 & H4 & H5). unfold aligned, record_word. cbn.
  rewrite !length_app. cbn. lia.
Qed.

(** ** A pass of the loop body that succeeds *)

Lemma fold_left_zip_length (d : nat) (rest : list vec) :
  forall x : vec,
    length x = d -> Forall (fun y => length y = d) rest ->
    length (fold_left (zip_with Rplus) rest x) = d.
Proof.
  induction rest as [| y rest IH]; intros x Hx Hall; [exact Hx |].
  simpl. inversion Hall as [| ? ? Hy Hrest]; subst.
  apply IH; [| assumption].
  rewrite zip_with_length; congruence.
Qed.

Lemma np_mean_axis0_length (d : nat) (X : list vec) :
  X <> [] -> Forall (fun y => length y = d) X ->
  exists m, np_mean_axis0 X = Some m /\ length m = d.
Proof.
  intros HX Hall. destruct X as [| x rest]; [contradiction |].
  inversion Hall as [| ? ? Hx Hrest]; subst.
  eexists. split; [reflexivity |].
  rewrite length_map. now apply fold_left_zip_length.
Qed.

Lemma cosine_similarity_total (a b : vec) :
  length a = length b -> a <> [] -> exists c, cosine_similarity a b = Ok c.
Proof.
  intros Hlen Ha. unfold cosine_similarity.
  destruct a as [| x a]; [contradiction |].
  destruct b as [| y b]; [discriminate |].
  rewrite Hlen, Nat.eqb_refl. eauto.
Qed.

Lemma compute_averaged_run (d : nat) (e1 e2 : list vec) (w : world) :
  e1 <> [] -> e2 <> [] -> d <> O ->
  Forall (fun y => length y = d) e1 -> Forall (fun y => length y = d) e2 ->
  exists dist w1, compute_averaged_embedding_dist e1 e2 w = (Ok dist, w1).
Proof.
  intros N1 N2 Hd F1 F2. unfold compute_averaged_embedding_dist.
  destruct (np_mean_axis0_length d e1 N1 F1) as (m1 & -> & L1).
  destruct (np_mean_axis0_length d e2 N2 F2) as (m2 & -> & L2).
  destruct (cosine_similarity_total m1 m2) as [c Hc];
    [congruence | destruct m1; [simpl in L1; congruence | discriminate] |].
  unfold bind, lift, print, ret. rewrite Hc. eauto.
Qed.

Lemma np_concatenate_run (d : nat) (e1 e2 : list vec) :
  e1 <> [] -> e2 <> [] ->
  Forall (fun y => length y = d) e1 -> Forall (fun y => length y = d) e2 ->
  np_concatenate e1 e2 = Ok (e1 ++ e2).
Proof.
  intros N1 N2 F1 F2.
  destruct e1 as [| x e1]; [contradiction |].
  destruct e2 as [| y e2]; [contradiction |].
  inversion F1; inversion F2; subst. unfold np_concatenate.
  replace (length y) with (length x) by congruence.
  now rewrite Nat.eqb_refl.
Qed.

Lemma aff_prop_run (lib : Library) (X : list vec) (r : list Z * list vec) (w : world) :
  AffinityPropagation_fit lib None X = Ok r ->
  exists w1, cluster_word_embeddings_aff_prop lib X None w = (Ok r, w1).
Proof.
  intros H. unfold cluster_word_embeddings_aff_prop, bind, lift, print, ret.
  rewrite H. destruct r. simpl. eauto.
Qed.

Lemma k_means_run (lib : Library) (X : list vec) (k : nat)
    (r : list Z * list vec) (w : world) :
  KMeans_fit lib k 0 X = Ok r ->
  cluster_word_embeddings_k_means lib X k w = (Ok r, w).
Proof.
  intros H. unfold cluster_word_embeddings_k_means, bind, lift, ret.
  rewrite H. now destruct r.
Qed.

Ltac run_print := erewrite bind_run; [| reflexivity].

Ltac run_divergence :=
  match goal with
  | |- context [bind (compute_divergence_from_cluster_labels ?l1 ?l2) ?k ?ww] =>
      let d := fresh "d" in
      let w1 := fresh "w" in
      let E := fresh "E" in
      let F := fresh "F" in
      let D := fresh "D" in
      destruct (compute_divergence_total l1 l2 ww) as (d & w1 & E & F & D);
      rewrite (bind_run _ _ _ _ _ E)
  end.

(** With two nonempty slices of embeddings of one dimension, with
    estimators that give a result, and with an operating system that
    makes the results directory and opens the eight files, the loop body
    ends well. *)
Lemma process_word_run (lib : Library) (a : args) (i : nat) (word : string)
    (emb : word_embeddings) (acc : accumulators) (w : world) (d : nat)
    (e1 e2 : list vec) (s1 s2 : list string) (aff km5 km7 : list Z * list vec) :
  filter_occurrences lib (one_embedding_per_sentence a) word emb =
    Ok ((e1, s1), (e2, s2)) ->
  e1 <> [] -> e2 <> [] -> d <> O ->
  Forall (fun y => length y = d) e1 -> Forall (fun y => length y = d) e2 ->
  AffinityPropagation_fit lib None (e1 ++ e2) = Ok aff ->
  KMeans_fit lib 5 0 (e1 ++ e2) = Ok km5 ->
  KMeans_fit lib 7 0 (e1 ++ e2) = Ok km7 ->
  aligned (results_dict acc) ->
  results_dir_ready lib w (semeval_results a) ->
  can_open lib (csv_path (semeval_results a) (language a)) = true ->
  can_open_pickles lib (semeval_results a) (language a) ->
  exists acc' w', process_word lib a i word emb acc w = (Ok acc', w').
Proof.
  intros Hf N1 N2 Hd F1 F2 Haff Hkm5 Hkm7 Hal Hready Ocsv Opkl.
  unfold process_word. cbv zeta.
  run_print.
  erewrite bind_run; [| unfold lift; rewrite Hf; reflexivity]. cbn [fst snd].
  run_print. run_print.
  match goal with
  | |- context [bind (compute_averaged_embedding_dist e1 e2) ?k ?ww] =>
      destruct (compute_averaged_run d e1 e2 ww N1 N2 Hd F1 F2) as (dist & w5 & E5);
      destruct (keeps_disk_averaged _ _ _ _ _ E5) as [Fa Da];
      rewrite (bind_run _ _ _ _ _ E5)
  end.
  erewrite bind_run;
    [| unfold lift; rewrite (np_concatenate_run d) by assumption; reflexivity].
  destruct (aff_prop_run lib (e1 ++ e2) aff w5 Haff) as (w7 & E7).
  destruct (keeps_disk_aff_prop _ _ _ _ _ _ E7) as [Fb Db].
  rewrite (bind_run _ _ _ _ _ E7).
  run_divergence.
  rewrite (bind_run _ _ _ _ _ (k_means_run lib _ 5 km5 _ Hkm5)).
  run_divergence.
  rewrite (bind_run _ _ _ _ _ (k_means_run lib _ 7 km7 _ Hkm7)).
  run_divergence.
  erewrite bind_run; [| reflexivity]. cbv beta.
  match goal with
  | |- context [path_exists ?ww (semeval_results a)] =>
      destruct (makedirs_step_run lib (semeval_results a) ww)
        as (wd & Ed & _ & _ & _)
  end.
  { apply (results_dir_ready_same_disk lib w); [| | exact Hready];
      cbn [files dirs] in *; congruence. }
  rewrite (bind_run _ _ _ _ _ Ed).
  match goal with
  | |- context [from_dict ?rd] =>
      destruct (from_dict_aligned rd) as [table Ht]
  end.
  { destruct Hal as (H1 & H2 & H3 & H4 & H5). unfold aligned. cbn.
    rewrite !length_app. cbn. lia. }
  erewrite bind_run; [| unfold lift; rewrite Ht; reflexivity].
  erewrite bind_run; [| apply write_file_run; exact Ocsv].
  erewrite bind_run; [| apply save_pickles_run; exact Opkl].
  run_print.
  unfold ret. eauto.
Qed.

(** The reference library lets every file be written. *)
Lemma reference_library_writes (a : args) (w : world) :
  semeval_results a <> EmptyString ->
  results_dir_ready reference_library w (semeval_results a) /\
  can_open reference_library (csv_path (semeval_results a) (language a)) = true /\
  can_open_pickles reference_library (semeval_results a) (language a).
Proof.
  intros Hne. split; [right; split; [exact Hne | reflexivity] |].
  split; [reflexivity |].
  unfold can_open_pickles, pickle_names. repeat constructor.
Qed.

(** ** The loop over the words *)

Lemma words_loop_app (lib : Library) (a : args) (items1 items2 : dict word_embeddings) :
  forall (i : nat) (acc : accumulators) (w : world),
    words_loop lib a i (items1 ++ items2) acc w =
    match words_loop lib a i items1 acc w with
    | (Ok acc1, w1) => words_loop lib a (i + length items1) items2 acc1 w1
    | (Raise e, w1) => (Raise e, w1)
    end.
Proof.
  induction items1 as [| [word emb] items1 IH]; intros i acc w.
  - simpl. unfold ret. now rewrite Nat.add_0_r.
  - simpl. unfold bind.
    destruct (process_word lib a i word emb acc w) as [[acc1 | e] w1];
      [| reflexivity].
    rewrite IH. now rewrite Nat.add_succ_r.
Qed.

Lemma words_loop_inv (lib : Library) (a : args) (items : dict word_embeddings) :
  forall (i : nat) (acc acc' : accumulators) (w w' : world),
    words_loop lib a i items acc w = (Ok acc', w') ->
    col_word (results_dict acc') = col_word (results_dict acc) ++ map fst items /\
    (items <> [] ->
     exists table,
       from_dict (results_dict acc') = Ok table /\
       dict_get (files w') (csv_path (semeval_results a) (language a)) =
         Some (Csv (sort_values table))).
Proof.
  induction items as [| [word emb] items IH]; intros i acc acc' w w' H.
  - simpl in H. injection H as <- <-. rewrite app_nil_r. split; [reflexivity |].
    intros N. contradiction.
  - simpl in H. apply bind_Ok_inv in H as (acc1 & w1 & H1 & H).
    apply process_word_inv in H1
      as (an & table & _ & _ & _ & _ & _ & _ & Hacc & Ht & Hfiles).
    destruct (IH _ _ _ _ _ H) as [Hw Hcsv].
    split.
    + rewrite Hw, Hacc. unfold record_word. cbn. now rewrite <- app_assoc.
    + intros _. destruct items as [| item items].
      * simpl in H. injection H as <- <-.
        exists table. split; [exact Ht |].
        rewrite Hfiles, pickle_files_csv. apply dict_get_set_same.
      * apply Hcsv. discriminate.
Qed.

Lemma main_inv (lib : Library) (a : args) (items : dict word_embeddings)
    (acc' : accumulators) (w w' : world) :
  main lib a items w = (Ok acc', w') ->
  exists w0, files w0 = files w /\
             words_loop lib a 0 items initial_accumulators w0 = (Ok acc', w').
Proof.
  unfold main.
  destruct (negb (existsb (String.eqb (language a)) languages)).
  - intros H. apply bind_Ok_inv in H as (? & w1 & _ & H). discriminate.
  - cbv zeta. intros H. apply bind_Ok_inv in H as (? & w1 & H1 & H).
    injection H1 as _ <-. eexists. split; [| exact H]. reflexivity.
Qed.

(** ** C9: the results table on disk *)




(** ** A run on one word *)

Lemma plane_filter (oneEmb : bool) :
  filter_occurrences reference_library oneEmb "plane_nn" plane_embeddings =
  Ok (([[1]; [1]], ["a plane flew"; "the plane landed"]%string),
      ([[1]], ["the plane is late"]%string)).
Proof. destruct oneEmb; reflexivity. Qed.

(** The side conditions of [process_word_run] on the word ["plane_nn"]
    with the reference library. *)
Ltac plane_side_condition R1 R2 R3 :=
  first [ apply plane_filter | exact R1 | exact R2 | exact R3
        | discriminate | reflexivity | solve [repeat constructor] ].

Lemma default_results_dir : semeval_results default_args <> EmptyString.
Proof. discriminate. Qed.

Lemma main_plane_run (a : args) (w : world) :
  language a = "english"%string -> semeval_results a <> EmptyString ->
  exists acc' w', main reference_library a plane_items w = (Ok acc', w').
Proof.
  intros Hlang Hdir. unfold main. rewrite Hlang.
  assert (Hchk : negb (existsb (String.eqb "english") languages) = false)
    by reflexivity.
  rewrite Hchk. cbv zeta.
  run_print. unfold plane_items, words_loop.
  match goal with
  | |- context [bind (process_word _ _ _ _ _ _) _ ?ww] =>
      destruct (reference_library_writes a ww Hdir) as (R1 & R2 & R3);
      destruct (process_word_run reference_library a 0 "plane_nn" plane_embeddings
                  initial_accumulators ww
                  1 [[1]; [1]] [[1]]
                  ["a plane flew"; "the plane landed"]%string
                  ["the plane is late"]%string
                  (map (fun _ => 0%Z) [[1]; [1]; [1]], [[1]])
                  (map (fun _ => 0%Z) [[1]; [1]; [1]], [[1]])
                  (map (fun _ => 0%Z) [[1]; [1]; [1]], [[1]]))
        as (acc' & w' & E); [plane_side_condition R1 R2 R3 .. |]
  end.
  rewrite (bind_run _ _ _ _ _ E). unfold ret. eauto.
Qed.

(** ** A run on two words, over the table of an earlier run *)









(** ** C4: the labels are split at the slice boundary *)

Lemma split_at_slice_boundary (n1 n2 : nat) (labels : list Z) :
  length labels = (n1 + n2)%nat ->
  length (firstn n1 labels) = n1 /\ length (skipn n1 labels) = n2.
Proof.
  intros H. rewrite length_firstn, length_skipn. lia.
Qed.

Lemma reference_library_one_label : one_label_per_sample reference_library.
Proof.
  repeat split; simpl; unfold one_cluster; intros;
    match goal with H : Ok _ = Ok _ |- _ => injection H as <- end;
    try subst; apply length_map.
Qed.

Lemma dbscan_inv (lib : Library) (X : list vec) (w w1 : world) (labels : list Z) :
  cluster_word_embeddings_dbscan lib X w = (Ok labels, w1) ->
  DBSCAN_fit lib X = Ok labels.
Proof.
  unfold cluster_word_embeddings_dbscan. intros H.
  apply bind_Ok_inv in H as (c & w2 & Hc & H).
  apply lift_Ok_inv in Hc as [Hc ->].
  unfold bind, print, ret in H. now injection H as <- _.
Qed.

(** C4.  When the loop body ends well for a word, each of the three
    clusterings run on the pooled embeddings (affinity propagation,
    k-means with 5 and with 7 clusters) has its labels recorded in two
    parts: the first has as many labels as slice 1 has kept occurrences,
    the second as many as slice 2 has.  The same holds of the labels
    that the density-based clustering, which the script defines and does
    not call, gives on the pooled embeddings. *)
Theorem labels_split_by_slice
    (lib : Library) (a : args) (i : nat) (word : string) (emb : word_embeddings)
    (acc acc' : accumulators) (w w' : world) :
  one_label_per_sample lib ->
  process_word lib a i word emb acc w = (Ok acc', w') ->
  exists e1 s1 e2 s2,
    filter_occurrences lib (one_embedding_per_sentence a) word emb =
      Ok ((e1, s1), (e2, s2)) /\
    (forall labels_dict,
      In labels_dict [aff_prop_labels_dict acc'; kmeans_5_labels_dict acc';
                      kmeans_7_labels_dict acc'] ->
      exists c1 c2,
        dict_get labels_dict word = Some (c1, c2) /\
        length c1 = length e1 /\ length c2 = length e2) /\
    (forall (labels : list Z) (w0 w1 : world),
      cluster_word_embeddings_dbscan lib (e1 ++ e2) w0 = (Ok labels, w1) ->
      length (firstn (length e1) labels) = length e1 /\
      length (skipn (length e1) labels) = length e2).
Proof.
  intros (Haff & Hdb & Hkm) H.
  apply process_word_inv in H
    as (an & table & Hf & _ & _ & Eaff & Ekm5 & Ekm7 & -> & _ & _).
  exists (an_embeddings1 an), (an_texts1 an), (an_embeddings2 an), (an_texts2 an).
  split; [exact Hf |].
  destruct (an_aff_prop an) as [l_aff c_aff] eqn:E1.
  destruct (an_kmeans_5 an) as [l_km5 c_km5] eqn:E2.
  destruct (an_kmeans_7 an) as [l_km7 c_km7] eqn:E3.
  apply Haff in Eaff. apply Hkm in Ekm5. apply Hkm in Ekm7.
  rewrite length_app in Eaff, Ekm5, Ekm7.
  split.
  - intros labels_dict [<- | [<- | [<- | []]]];
      unfold record_word; cbn; rewrite ?E1, ?E2, ?E3; cbn [fst];
      rewrite dict_get_set_same; eexists; eexists;
      (split; [reflexivity | now apply split_at_slice_boundary]).
  - intros labels w0 w1 Hdbscan. apply dbscan_inv, Hdb in Hdbscan.
    rewrite length_app in Hdbscan. now apply split_at_slice_boundary.
Qed.

Lemma plane_word_run (a : args) (w : world) :
  semeval_results a <> EmptyString ->
  exists acc' w',
    process_word reference_library a 0 "plane_nn" plane_embeddings
                 initial_accumulators w = (Ok acc', w').
Proof.
  intros Hdir.
  destruct (reference_library_writes a w Hdir) as (R1 & R2 & R3).
  apply (process_word_run reference_library a 0 "plane_nn" plane_embeddings
           initial_accumulators w 1 [[1]; [1]] [[1]]
           ["a plane flew"; "the plane landed"]%string ["the plane is late"]%string
           (map (fun _ => 0%Z) [[1]; [1]; [1]], [[1]])
           (map (fun _ => 0%Z) [[1]; [1]; [1]], [[1]])
           (map (fun _ => 0%Z) [[1]; [1]; [1]], [[1]]));
    plane_side_condition R1 R2 R3.
Qed.

Lemma labels_split_by_slice_witness :
  exists acc' w',
    process_word reference_library default_args 0 "plane_nn" plane_embeddings
                 initial_accumulators empty_world = (Ok acc', w') /\
    exists e1 s1 e2 s2,
      filter_occurrences reference_library false "plane_nn" plane_embeddings =
        Ok ((e1, s1), (e2, s2)) /\
      (forall labels_dict,
        In labels_dict [aff_prop_labels_dict acc'; kmeans_5_labels_dict acc';
                        kmeans_7_labels_dict acc'] ->
        exists c1 c2,
          dict_get labels_dict "plane_nn" = Some (c1, c2) /\
          length c1 = length e1 /\ length c2 = length e2) /\
      (forall (labels : list Z) (w0 w1 : world),
        cluster_word_embeddings_dbscan reference_library (e1 ++ e2) w0 =
          (Ok labels, w1) ->
        length (firstn (length e1) labels) = length e1 /\
        length (skipn (length e1) labels) = length e2).
Proof.
  destruct (plane_word_run default_args empty_world default_results_dir) as (acc' & w' & E).
  exists acc', w'. split; [exact E |].
  apply (labels_split_by_slice reference_library default_args 0 "plane_nn"
           plane_embeddings initial_accumulators acc' empty_world w').
  - exact reference_library_one_label.
  - exact E.
Defined.

(** ** C8: one embedding per sentence *)

Lemma searchable_firstn (lib : Library) (regex : string) (n : nat)
    (texts : list string) :
  searchable lib regex texts -> searchable lib regex (firstn n texts).
Proof.
  unfold searchable. rewrite !Forall_forall.
  intros H t Hin. apply H. rewrite <- (firstn_skipn n texts).
  apply in_or_app. now left.
Qed.

(** C8.  The mode is off when the flag is not given.  When it is on, and
    [re.search] raises on no sentence, a slice keeps, of the occurrences
    that pass the filter, the first occurrence of every sentence and no
    other: what is kept is a part of these occurrences in their order, no
    sentence is kept twice, every sentence that passes is kept, and no
    kept occurrence comes after an occurrence with the same sentence.
    Embeddings and sentences are kept alike; when the loop body ends
    well, the kept sentences are the entry of the word in the sentences
    file, and the estimators were run on the kept embeddings, slice 1
    before slice 2. *)
Theorem dedupe_keeps_first_per_sentence
    (lib : Library) (word : string) (emb : word_embeddings) :
  (length (t1 emb) <= length (t1_text emb))%nat ->
  (length (t2 emb) <= length (t2_text emb))%nat ->
  searchable lib (word_regex word) (t1_text emb) ->
  searchable lib (word_regex word) (t2_text emb) ->
  one_embedding_per_sentence default_args = false /\
  exists kept1 kept2 : list (vec * string),
    filter_occurrences lib true word emb =
      Ok ((map fst kept1, map snd kept1), (map fst kept2, map snd kept2)) /\
    first_of_each_sentence
      kept1 (passing lib (word_regex word) (t1 emb) (t1_text emb)) /\
    first_of_each_sentence
      kept2 (passing lib (word_regex word) (t2 emb) (t2_text emb)) /\
    forall (a : args) (i : nat) (acc acc' : accumulators) (w w' : world),
      one_embedding_per_sentence a = true ->
      process_word lib a i word emb acc w = (Ok acc', w') ->
      dict_get (files w') (sents_path a) = Some (PickleSents (sentence_dict acc')) /\
      dict_get (sentence_dict acc') word = Some (map snd kept1, map snd kept2) /\
      exists labels centres,
        AffinityPropagation_fit lib None (map fst kept1 ++ map fst kept2) =
          Ok (labels, centres) /\
        dict_get (aff_prop_labels_dict acc') word =
          Some (firstn (length kept1) labels, skipn (length kept1) labels).
Proof.
  intros L1 L2 S1 S2.
  set (kept1 := first_per_text_from
                  [] (passing lib (word_regex word) (t1 emb) (t1_text emb))).
  set (kept2 := first_per_text_from
                  [] (passing lib (word_regex word) (t2 emb) (t2_text emb))).
  assert (Hf : filter_occurrences lib true word emb =
               Ok ((map fst kept1, map snd kept1), (map fst kept2, map snd kept2))).
  { unfold filter_occurrences. cbv zeta.
    rewrite !filter_slice_spec by (assumption || now apply searchable_firstn).
    reflexivity. }
  split; [reflexivity |]. exists kept1, kept2.
  split; [exact Hf |].
  split; [apply first_per_text_from_nil_spec |].
  split; [apply first_per_text_from_nil_spec |].
  intros a i acc acc' w w' Hone H.
  apply process_word_inv in H
    as (an & table & Hf' & _ & _ & Eaff & _ & _ & -> & _ & Hfiles).
  rewrite Hone, Hf in Hf'. injection Hf' as E1 E2 E3 E4.
  split; [| split].
  - rewrite Hfiles. apply pickle_files_sents.
  - unfold record_word. cbn. rewrite dict_get_set_same. now rewrite <- E2, <- E4.
  - destruct (an_aff_prop an) as [labels centres] eqn:E.
    exists labels, centres. split.
    + now rewrite E1, E3.
    + unfold record_word. cbn. rewrite dict_get_set_same, E. cbn [fst].
      now rewrite <- E1, length_map.
Qed.

Lemma dedupe_keeps_first_per_sentence_witness :
  one_embedding_per_sentence default_args = false /\
  exists kept1 kept2 : list (vec * string),
    filter_occurrences reference_library true "plane_nn" repeated_embeddings =
      Ok ((map fst kept1, map snd kept1), (map fst kept2, map snd kept2)) /\
    first_of_each_sentence
      kept1 (passing reference_library (word_regex "plane_nn")
                     (t1 repeated_embeddings) (t1_text repeated_embeddings)) /\
    first_of_each_sentence
      kept2 (passing reference_library (word_regex "plane_nn")
                     (t2 repeated_embeddings) (t2_text repeated_embeddings)) /\
    forall (a : args) (i : nat) (acc acc' : accumulators) (w w' : world),
      one_embedding_per_sentence a = true ->
      process_word reference_library a i "plane_nn" repeated_embeddings acc w =
        (Ok acc', w') ->
      dict_get (files w') (sents_path a) = Some (PickleSents (sentence_dict acc')) /\
      dict_get (sentence_dict acc') "plane_nn" =
        Some (map snd kept1, map snd kept2) /\
      exists labels centres,
        AffinityPropagation_fit reference_library None
                                (map fst kept1 ++ map fst kept2) =
          Ok (labels, centres) /\
        dict_get (aff_prop_labels_dict acc') "plane_nn" =
          Some (firstn (length kept1) labels, skipn (length kept1) labels).
Proof.
  apply (dedupe_keeps_first_per_sentence reference_library "plane_nn"
                                         repeated_embeddings).
  - simpl. lia.
  - simpl. lia.
  - apply reference_library_searchable.
  - apply reference_library_searchable.
Defined.

(** On that input the second of the two equal sentences goes, in both
    slices. *)
Lemma dedupe_example :
  filter_occurrences reference_library true "plane_nn" repeated_embeddings =
  Ok (([[1]; [3]], ["a plane flew"; "the plane landed"]%string),
      ([[4]], ["the plane is late"]%string)) /\
  filter_occurrences reference_library false "plane_nn" repeated_embeddings =
  Ok (([[1]; [2]; [3]], ["a plane flew"; "a plane flew"; "the plane landed"]%string),
      ([[4]; [5]], ["the plane is late"; "the plane is late"]%string)).
Proof. split; reflexivity. Qed.

(** ** C3: a slice without occurrences *)

Lemma compute_averaged_empty (e1 e2 : list vec) (w : world) :
  e1 = [] \/ e2 = [] ->
  compute_averaged_embedding_dist e1 e2 w = (Raise ValueError, w).
Proof.
  unfold compute_averaged_embedding_dist.
  intros [-> | ->]; [reflexivity |].
  destruct (np_mean_axis0 e1); reflexivity.
Qed.

(** With a slice that keeps no occurrence the loop body raises, and has
    written no file. *)
Lemma process_word_empty_slice (lib : Library) (a : args) (i : nat) (word : string)
    (emb : word_embeddings) (acc : accumulators) (w : world)
    (e1 e2 : list vec) (s1 s2 : list string) :
  filter_occurrences lib (one_embedding_per_sentence a) word emb =
    Ok ((e1, s1), (e2, s2)) ->
  e1 = [] \/ e2 = [] ->
  exists w', process_word lib a i word emb acc w = (Raise ValueError, w') /\
             files w' = files w.
Proof.
  intros Hf He. unfold process_word. cbv zeta.
  run_print.
  erewrite bind_run; [| unfold lift; rewrite Hf; reflexivity]. cbn [fst snd].
  run_print. run_print.
  erewrite bind_raise; [| now apply compute_averaged_empty].
  eexists. split; reflexivity.
Qed.

(** C3, as the script has it.  When the filtering leaves a word with a
    slice without occurrences, the loop body raises a [ValueError] that
    nothing catches: the run ends there with that exception, the words
    after it are not processed, and the files are as the words before it
    left them. *)
Theorem empty_slice_aborts_run
    (lib : Library) (a : args) (items1 items2 : dict word_embeddings)
    (word : string) (emb : word_embeddings)
    (acc1 : accumulators) (w w1 : world)
    (e1 e2 : list vec) (s1 s2 : list string) :
  main lib a items1 w = (Ok acc1, w1) ->
  filter_occurrences lib (one_embedding_per_sentence a) word emb =
    Ok ((e1, s1), (e2, s2)) ->
  e1 = [] \/ e2 = [] ->
  exists w',
    main lib a (items1 ++ (word, emb) :: items2) w = (Raise ValueError, w') /\
    files w' = files w1.
Proof.
  unfold main.
  destruct (negb (existsb (String.eqb (language a)) languages)).
  - intros H. apply bind_Ok_inv in H as (? & w0 & _ & H). discriminate.
  - cbv zeta. intros H Hf He.
    apply bind_Ok_inv in H as (? & w0 & H0 & H).
    rewrite (bind_run _ _ _ _ _ H0).
    rewrite words_loop_app, H. simpl.
    destruct (process_word_empty_slice lib a (0 + length items1) word emb acc1 w1
                e1 e2 s1 s2 Hf He) as (w' & E & Hfiles).
    exists w'. split; [| exact Hfiles].
    now apply bind_raise.
Qed.

Lemma car_filter (oneEmb : bool) :
  filter_occurrences reference_library oneEmb "car_nn" car_embeddings =
  Ok (([], []), ([[1]], ["the car stopped"]%string)).
Proof. destruct oneEmb; reflexivity. Qed.

Lemma empty_slice_aborts_run_witness :
  exists acc1 w1,
    main reference_library default_args plane_items empty_world = (Ok acc1, w1) /\
    exists w',
      main reference_library default_args
           (plane_items ++ ("car_nn"%string, car_embeddings) :: plane_items)
           empty_world = (Raise ValueError, w') /\
      files w' = files w1.
Proof.
  destruct (main_plane_run default_args empty_world eq_refl default_results_dir) as (acc1 & w1 & E).
  exists acc1, w1. split; [exact E |].
  apply (empty_slice_aborts_run
           reference_library default_args plane_items plane_items
           "car_nn" car_embeddings acc1 empty_world w1
           [] [[1]] [] ["the car stopped"]%string).
  - exact E.
  - apply car_filter.
  - now left.
Defined.

(** The word "car_nn" has no whole-word occurrence in its first slice: the
    run ends with the exception, no file has been written (no result and
    no record of the failure), and the word after it, which the script
    processes well when it comes alone, is never looked at. *)
Lemma empty_slice_is_not_skipped :
  (exists w',
      main reference_library default_args
           [("car_nn"%string, car_embeddings); ("plane_nn"%string, plane_embeddings)]
           empty_world = (Raise ValueError, w') /\
      files w' = []) /\
  (exists acc w',
      main reference_library default_args
           [("plane_nn"%string, plane_embeddings)] empty_world = (Ok acc, w')).
Proof.
  split; [| exact (main_plane_run default_args empty_world eq_refl default_results_dir)].
  unfold main.
  assert (Hchk : negb (existsb (String.eqb (language default_args)) languages) = false)
    by reflexivity.
  rewrite Hchk. cbv zeta. run_print. cbn [words_loop].
  match goal with
  | |- context [bind (process_word ?l ?a ?i ?wd ?e ?acc) ?k ?ww] =>
      destruct (process_word_empty_slice l a i wd e acc ww
                  [] [[1]] [] ["the car stopped"]%string
                  (car_filter false) (or_introl eq_refl))
        as (w' & E & Hfiles)
  end.
  exists w'. split; [now apply bind_raise | exact Hfiles].
Qed.

(** ** C6: the preference of the affinity propagation *)

(** C6.  The script calls [cluster_word_embeddings_aff_prop] without a
    preference, for every word, and [aff_prop_pref = -430] is never passed
    on: the run is the same whatever the affinity propagation does when it
    is given a preference, and the exemplars and the number of clusters
    recorded for a word are those of the estimator without preference on
    the pooled embeddings of that word. *)
Theorem preference_is_never_passed
    (lib : Library) (f : R -> list vec -> outcome (list Z * list vec))
    (a : args) (bert_embeddings : dict word_embeddings) (w : world) :
  main (with_preference_behaviour lib f) a bert_embeddings w =
    main lib a bert_embeddings w /\
  forall (i : nat) (word : string) (emb : word_embeddings)
         (acc acc' : accumulators) (w0 w' : world),
    process_word lib a i word emb acc w0 = (Ok acc', w') ->
    exists e1 s1 e2 s2 labels exemplars,
      filter_occurrences lib (one_embedding_per_sentence a) word emb =
        Ok ((e1, s1), (e2, s2)) /\
      AffinityPropagation_fit lib None (e1 ++ e2) = Ok (labels, exemplars) /\
      dict_get (aff_prop_centroids_dict acc') word = Some exemplars /\
      col_aff_prop_clusters (results_dict acc') =
        col_aff_prop_clusters (results_dict acc) ++ [length (list_set labels)].
Proof.
  split; [reflexivity |].
  intros i word emb acc acc' w0 w' H.
  apply process_word_inv in H
    as (an & table & Hf & _ & _ & Eaff & _ & _ & -> & _ & _).
  destruct (an_aff_prop an) as [labels exemplars] eqn:E.
  exists (an_embeddings1 an), (an_texts1 an), (an_embeddings2 an), (an_texts2 an),
         labels, exemplars.
  split; [exact Hf |]. split; [exact Eaff |].
  unfold record_word. cbn. rewrite E. cbn [fst snd].
  split; [apply dict_get_set_same | reflexivity].
Qed.

(** On the three occurrences of "plane_nn" the run reports three clusters:
    the estimator was called without a preference. *)
Lemma run_without_preference :
  exists acc' w',
    main preference_sensitive_library default_args plane_items empty_world =
      (Ok acc', w') /\
    col_aff_prop_clusters (results_dict acc') = [3%nat].
Proof.
  assert (Hf : filter_occurrences preference_sensitive_library false "plane_nn"
                 plane_embeddings =
               Ok (([[1]; [1]], ["a plane flew"; "the plane landed"]%string),
                   ([[1]], ["the plane is late"]%string))) by reflexivity.
  destruct (process_word_run preference_sensitive_library default_args 0 "plane_nn"
              plane_embeddings initial_accumulators
              (mk_world [] [[PyStr "Clustering BERT embeddings"]] [] [])
              1 [[1]; [1]] [[1]]
              ["a plane flew"; "the plane landed"]%string ["the plane is late"]%string
              ([0; 1; 2]%Z, [[1]; [1]; [1]])
              (map (fun _ => 0%Z) [[1]; [1]; [1]], [[1]])
              (map (fun _ => 0%Z) [[1]; [1]; [1]], [[1]]))
    as (acc' & w' & E);
    [solve [reflexivity | discriminate | repeat constructor
           | right; split; [discriminate | reflexivity]] .. |].
  exists acc', w'. split.
  - unfold main.
    assert (Hchk : negb (existsb (String.eqb (language default_args)) languages) = false)
      by reflexivity.
    rewrite Hchk. cbv zeta. run_print. cbn [plane_items words_loop].
    cbn [empty_world heap stdout files dirs app].
    rewrite (bind_run _ _ _ _ _ E). reflexivity.
  - apply process_word_inv in E
      as (an & table & Hf' & _ & _ & Eaff & _ & _ & -> & _ & _).
    cbn [one_embedding_per_sentence default_args] in Hf'.
    rewrite Hf in Hf'. injection Hf' as E1 _ E3 _.
    rewrite <- E1, <- E3 in Eaff. cbn in Eaff. injection Eaff as Eaff.
    unfold record_word. cbn. rewrite <- Eaff. reflexivity.
Qed.

(* ================================================================= *)
(** * Further properties of the script *)

(** ** [compute_jsd] on arrays that are not distributions *)

Lemma sumR_scale (c : R) (p : list R) : sumR (scale c p) = c * sumR p.
Proof.
  unfold scale. induction p as [| a p IH]; simpl; [lra | rewrite IH; lra].
Qed.

Lemma normalizeR_scale (c : R) (p : list R) :
  c <> 0 -> sumR p <> 0 -> normalizeR (scale c p) = normalizeR p.
Proof.
  intros Hc Hp. unfold normalizeR. rewrite sumR_scale. unfold scale.
  rewrite map_map. apply map_ext. intros a. now field.
Qed.

Lemma scale_nonneg (c : R) (p : list R) :
  0 < c -> Forall (fun x => 0 <= x) p -> Forall (fun x => 0 <= x) (scale c p).
Proof.
  intros Hc Hp. unfold scale. apply Forall_map.
  eapply Forall_impl; [| exact Hp]. intros a Ha. simpl. nra.
Qed.

(** X1.  [compute_jsd] normalises its arguments: for nonnegative arrays of
    equal length whose sums are not zero it returns a finite value between
    [0] and [ln 2], and the value is the same when either array is
    multiplied by a positive factor. *)
Theorem compute_jsd_scale_invariant
    (w : world) (vp vq : pyval) (p q : list R) :
  denotes w vp p -> denotes w vq q ->
  Forall (fun x => 0 <= x) p -> Forall (fun x => 0 <= x) q ->
  sumR p <> 0 -> sumR q <> 0 -> length p = length q ->
  exists d : R,
    fst (compute_jsd vp vq w) = Ok (fin d) /\
    0 <= d <= ln 2 /\
    forall (c e : R) (w' : world) (vp' vq' : pyval),
      0 < c -> 0 < e ->
      denotes w' vp' (scale c p) -> denotes w' vq' (scale e q) ->
      fst (compute_jsd vp' vq' w') = Ok (fin d).
Proof.
  intros Dp Dq Hp Hq Sp Sq Hlen.
  exists (JS_divergence (normalizeR p) (normalizeR q)).
  split; [now apply compute_jsd_value |]. split.
  - apply JS_divergence_bounds;
      [now apply normalizeR_distribution | now apply normalizeR_distribution |].
    now rewrite !normalizeR_length.
  - intros c e w' vp' vq' Hc He Dp' Dq'.
    rewrite (compute_jsd_value vp' vq' w' (scale c p) (scale e q));
      try assumption; try (now apply scale_nonneg).
    + rewrite !normalizeR_scale by (assumption || lra). reflexivity.
    + rewrite sumR_scale. nra.
    + rewrite sumR_scale. nra.
    + unfold scale. now rewrite !length_map.
Qed.

Lemma compute_jsd_scale_invariant_witness :
  exists d : R,
    fst (compute_jsd (PyList [2; 2]) (PyList [1; 3]) empty_world) = Ok (fin d) /\
    0 <= d <= ln 2 /\
    forall (c e : R) (w' : world) (vp' vq' : pyval),
      0 < c -> 0 < e ->
      denotes w' vp' (scale c [2; 2]) -> denotes w' vq' (scale e [1; 3]) ->
      fst (compute_jsd vp' vq' w') = Ok (fin d).
Proof.
  apply (compute_jsd_scale_invariant
           empty_world (PyList [2; 2]) (PyList [1; 3]) [2; 2] [1; 3]).
  - reflexivity.
  - reflexivity.
  - repeat constructor; lra.
  - repeat constructor; lra.
  - simpl; lra.
  - simpl; lra.
  - reflexivity.
Defined.

(** ** [compute_jsd] on an array of sum zero *)

Lemma array_div_nonfinite (a : ndarray) (s : float64) :
  s = fin 0 \/ s = nonfinite -> array_div a s = all_nonfinite (length a).
Proof.
  intros Hs. unfold array_div, all_nonfinite.
  induction a as [| x a IH]; [reflexivity |].
  simpl. rewrite IH. f_equal.
  destruct Hs as [-> | ->]; destruct x as [r |]; simpl; try reflexivity.
  destruct (Req_dec_T 0 0); [reflexivity | contradiction].
Qed.

Lemma array_div_all_nonfinite (n : nat) (s : float64) :
  array_div (all_nonfinite n) s = all_nonfinite n.
Proof.
  unfold array_div, all_nonfinite.
  induction n as [| n IH]; [reflexivity |]. simpl. now rewrite IH.
Qed.

Lemma np_sum_all_nonfinite (n : nat) : n <> O -> np_sum (all_nonfinite n) = nonfinite.
Proof. destruct n; [contradiction | reflexivity]. Qed.

Lemma all_nonfinite_length (n : nat) : length (all_nonfinite n) = n.
Proof. apply repeat_length. Qed.

Lemma zip_fadd_nonfinite_l (n : nat) (b : ndarray) :
  length b = n -> zip_with fadd (all_nonfinite n) b = all_nonfinite n.
Proof.
  revert b. unfold all_nonfinite.
  induction n as [| n IH]; intros [| y b] H; try discriminate; [reflexivity |].
  simpl. rewrite IH by (now injection H). reflexivity.
Qed.

Lemma zip_fadd_nonfinite_r (n : nat) (a : ndarray) :
  length a = n -> zip_with fadd a (all_nonfinite n) = all_nonfinite n.
Proof.
  revert a. unfold all_nonfinite.
  induction n as [| n IH]; intros [| x a] H; try discriminate; [reflexivity |].
  simpl. rewrite IH by (now injection H). now destruct x.
Qed.

Lemma zip_rel_entr_nonfinite_r (n : nat) (a : ndarray) :
  length a = n -> zip_with rel_entr a (all_nonfinite n) = all_nonfinite n.
Proof.
  revert a. unfold all_nonfinite.
  induction n as [| n IH]; intros [| x a] H; try discriminate; [reflexivity |].
  simpl. rewrite IH by (now injection H). now destruct x.
Qed.

(** The entropy relative to an array without a finite value is not
    finite. *)
Lemma entropy_nonfinite (n : nat) (a : ndarray) :
  n <> O -> length a = n -> entropy a (all_nonfinite n) = Ok nonfinite.
Proof.
  intros Hn Ha. unfold entropy.
  rewrite broadcast_arrays_same
    by (now rewrite array_div_length, all_nonfinite_length).
  rewrite array_div_all_nonfinite.
  rewrite zip_rel_entr_nonfinite_r by (now rewrite array_div_length).
  now rewrite np_sum_all_nonfinite.
Qed.

Lemma jsd_of_arrays_nonfinite (n : nat) (pa qa : ndarray) :
  n <> O -> length pa = n -> length qa = n ->
  pa = all_nonfinite n \/ qa = all_nonfinite n ->
  jsd_of_arrays pa qa = Ok nonfinite.
Proof.
  intros Hn Lp Lq Hnf. unfold jsd_of_arrays, array_add.
  rewrite broadcast_arrays_same by congruence.
  assert (Hm : zip_with fadd pa qa = all_nonfinite n).
  { destruct Hnf as [-> | ->];
      [now apply zip_fadd_nonfinite_l | now apply zip_fadd_nonfinite_r]. }
  rewrite Hm, array_div_all_nonfinite.
  rewrite !entropy_nonfinite by assumption. reflexivity.
Qed.

(** The contents of the two arrays after the in-place divisions, when
    they are different objects. *)
Lemma heap_after_jsd_distinct (h : list ndarray) (lp lq : loc) :
  lp <> lq -> (lp < length h)%nat -> (lq < length h)%nat ->
  heap_get (heap_after_jsd h lp lq) lp =
    array_div (heap_get h lp) (np_sum (heap_get h lp)) /\
  heap_get (heap_after_jsd h lp lq) lq =
    array_div (heap_get h lq) (np_sum (heap_get h lq)).
Proof.
  intros Hne Hp Hq. unfold heap_after_jsd. cbv zeta.
  rewrite (heap_get_set_other h lp lq) by assumption.
  rewrite (heap_get_set_other _ lq lp) by congruence.
  rewrite heap_get_set_same by assumption.
  rewrite heap_get_set_same by (now rewrite heap_set_length).
  auto.
Qed.

(** An array of sum zero is without a finite value after the in-place
    divisions. *)
Lemma heap_after_jsd_zero_sum (h : list ndarray) (lp lq l : loc) (p : list R) :
  (lp < length h)%nat -> (lq < length h)%nat -> l = lp \/ l = lq ->
  heap_get h l = map fin p -> p <> [] -> sumR p = 0 ->
  heap_get (heap_after_jsd h lp lq) l = all_nonfinite (length p).
Proof.
  intros Hp Hq Hl Hg Hne Hs.
  assert (Hn : length p <> O) by (destruct p; [contradiction | discriminate]).
  assert (E0 : array_div (map fin p) (np_sum (map fin p)) = all_nonfinite (length p)).
  { rewrite np_sum_fin, Hs, array_div_nonfinite by (now left).
    now rewrite length_map. }
  destruct (Nat.eq_dec lp lq) as [<- | Hd].
  - assert (l = lp) as -> by (destruct Hl; assumption).
    unfold heap_after_jsd. cbv zeta.
    rewrite (heap_get_set_same h lp) by assumption.
    rewrite heap_get_set_same by (now rewrite heap_set_length).
    rewrite Hg, E0, np_sum_all_nonfinite by assumption.
    apply array_div_all_nonfinite.
  - destruct (heap_after_jsd_distinct h lp lq Hd Hp Hq) as [Ep Eq].
    destruct Hl as [-> | ->]; [rewrite Ep | rewrite Eq]; now rewrite Hg.
Qed.

(** X2.  When one of the two arrays, nonempty and of the length of the
    other, has sum zero, [compute_jsd] raises nothing: it returns a value
    that is not finite (nan). *)
Theorem compute_jsd_zero_sum_is_nan
    (w : world) (vp vq : pyval) (p q : list R) :
  denotes w vp p -> denotes w vq q ->
  p <> [] -> length p = length q ->
  sumR p = 0 \/ sumR q = 0 ->
  fst (compute_jsd vp vq w) = Ok nonfinite.
Proof.
  intros Dp Dq Hne Hlen Hz.
  rewrite compute_jsd_unfold. simpl fst.
  pose proof (asarray_denotes vp w p Dp) as Dp1.
  pose proof (asarray_keeps vp vq w q Dq) as Dq1.
  pose proof (asarray_denotes vq _ q Dq1) as [Lq Gq].
  pose proof (asarray_keeps vq _ _ p Dp1) as [Lp Gp].
  set (h := heap (asarray_world vq (asarray_world vp w))) in *.
  set (lp := asarray_loc vp w) in *.
  set (lq := asarray_loc vq (asarray_world vp w)) in *.
  destruct (heap_after_jsd_lengths h lp lq Lp Lq) as [Ep Eq].
  rewrite Gp, length_map in Ep. rewrite Gq, length_map in Eq.
  assert (Hn : length p <> O) by (destruct p; [contradiction | discriminate]).
  assert (Hq : q <> []) by (destruct q; [simpl in Hlen; congruence | discriminate]).
  apply (jsd_of_arrays_nonfinite (length p)); try assumption; [congruence |].
  destruct Hz as [Hz | Hz].
  - left. apply (heap_after_jsd_zero_sum h lp lq lp p); auto.
  - right. rewrite Hlen.
    apply (heap_after_jsd_zero_sum h lp lq lq q); auto.
Qed.

Lemma compute_jsd_zero_sum_is_nan_witness :
  fst (compute_jsd (PyList [0; 0]) (PyList [1; 3]) empty_world) = Ok nonfinite.
Proof.
  apply (compute_jsd_zero_sum_is_nan
           empty_world (PyList [0; 0]) (PyList [1; 3]) [0; 0] [1; 3]).
  - reflexivity.
  - reflexivity.
  - discriminate.
  - reflexivity.
  - left. simpl. lra.
Defined.

(** ** [compute_jsd] on arrays of different lengths *)

Lemma broadcast_arrays_mismatch (a b : ndarray) :
  length a <> length b -> length a <> 1%nat -> length b <> 1%nat ->
  broadcast_arrays a b = Raise ValueError.
Proof.
  intros Hab Ha Hb. unfold broadcast_arrays.
  destruct (Nat.eqb (length a) (length b)) eqn:E;
    [apply Nat.eqb_eq in E; contradiction |].
  destruct a as [| x [| x' a]]; simpl in Ha; try contradiction;
    destruct b as [| y [| y' b]]; simpl in Hb; try contradiction; reflexivity.
Qed.

(** X3.  For two arrays of different lengths, none of them of length one,
    [compute_jsd] raises a [ValueError] at [p + q]; by then both array
    objects have been divided in place. *)
Theorem compute_jsd_length_mismatch
    (w : world) (vp vq : pyval) (p q : list R) :
  denotes w vp p -> denotes w vq q ->
  length p <> length q -> length p <> 1%nat -> length q <> 1%nat ->
  sumR p <> 0 -> sumR q <> 0 ->
  fst (compute_jsd vp vq w) = Raise ValueError /\
  let w' := snd (compute_jsd vp vq w) in
  (forall l, vp = NdArray l -> heap_get (heap w') l = map fin (normalizeR p)) /\
  (forall l, vq = NdArray l -> heap_get (heap w') l = map fin (normalizeR q)).
Proof.
  intros Dp Dq Hne H1 H2 Sp Sq.
  rewrite compute_jsd_unfold. simpl fst. simpl snd. simpl heap.
  pose proof (asarray_denotes vp w p Dp) as Dp1.
  pose proof (asarray_keeps vp vq w q Dq) as Dq1.
  pose proof (asarray_denotes vq _ q Dq1) as [Lq Gq].
  pose proof (asarray_keeps vq _ _ p Dp1) as [Lp Gp].
  destruct (heap_after_jsd_contents _ _ _ p q Lp Lq Gp Gq Sp Sq) as [Ep Eq].
  split.
  - rewrite Ep, Eq. unfold jsd_of_arrays, array_add.
    rewrite broadcast_arrays_mismatch;
      [reflexivity | | |]; rewrite ?length_map, ?normalizeR_length; assumption.
  - split; intros l ->; simpl in *; assumption.
Qed.

Lemma compute_jsd_length_mismatch_witness :
  let w := mk_world [[fin 1; fin 1]; [fin 1; fin 2; fin 3]] [] [] [] in
  fst (compute_jsd (NdArray 0%nat) (NdArray 1%nat) w) = Raise ValueError /\
  let w' := snd (compute_jsd (NdArray 0%nat) (NdArray 1%nat) w) in
  (forall l, NdArray 0%nat = NdArray l ->
             heap_get (heap w') l = map fin (normalizeR [1; 1])) /\
  (forall l, NdArray 1%nat = NdArray l ->
             heap_get (heap w') l = map fin (normalizeR [1; 2; 3])).
Proof.
  intros w.
  apply (compute_jsd_length_mismatch
           w (NdArray 0%nat) (NdArray 1%nat) [1; 1] [1; 2; 3]).
  - split; [simpl; lia | reflexivity].
  - split; [simpl; lia | reflexivity].
  - simpl; lia.
  - simpl; lia.
  - simpl; lia.
  - simpl; lra.
  - simpl; lra.
Defined.

(** ** [compute_divergence_from_cluster_labels]: range, order, extremes *)

Lemma frequency_Permutation (labels labels' : list Z) (x : Z) :
  Permutation labels labels' -> frequency labels x = frequency labels' x.
Proof.
  intros HP. unfold frequency.
  rewrite (Permutation_length HP).
  now rewrite (proj1 (Permutation_count_occ Z.eq_dec labels labels') HP x).
Qed.

Lemma list_set_Permutation (l l' : list Z) :
  (forall x, In x l <-> In x l') -> Permutation (list_set l) (list_set l').
Proof.
  intros H. destruct (list_set_spec l) as [N1 I1], (list_set_spec l') as [N2 I2].
  apply NoDup_Permutation; [assumption | assumption |].
  intros x. now rewrite I1, I2.
Qed.

Lemma JS_divergence_ext {A} (f f' g g' : A -> R) (U : list A) :
  (forall x, In x U -> f x = f' x) -> (forall x, In x U -> g x = g' x) ->
  JS_divergence (map f U) (map g U) = JS_divergence (map f' U) (map g' U).
Proof.
  intros Hf Hg.
  now rewrite (map_ext_in f f' U Hf), (map_ext_in g g' U Hg).
Qed.

(** X4.  For nonempty label lists the divergence is a finite value between
    [0] and [ln 2]. *)
Theorem compute_divergence_range (w : world) (labels1 labels2 : list Z) :
  labels1 <> [] -> labels2 <> [] ->
  exists d : R,
    fst (compute_divergence_from_cluster_labels labels1 labels2 w) = Ok (fin d) /\
    0 <= d <= ln 2.
Proof.
  intros H1 H2.
  destruct (compute_divergence_run w labels1 labels2 H1 H2) as (w' & E & _).
  destruct (list_set_spec (labels1 ++ labels2)) as [HU HIn].
  eexists. split; [rewrite E; reflexivity |].
  apply JS_divergence_bounds.
  - apply frequency_distribution; [assumption | assumption |].
    intros x Hx. apply HIn, in_or_app. now left.
  - apply frequency_distribution; [assumption | assumption |].
    intros x Hx. apply HIn, in_or_app. now right.
  - now rewrite !length_map.
Qed.

Lemma compute_divergence_range_witness :
  exists d : R,
    fst (compute_divergence_from_cluster_labels [0; 0; 1]%Z [1; 2]%Z empty_world) =
      Ok (fin d) /\
    0 <= d <= ln 2.
Proof.
  apply (compute_divergence_range empty_world [0; 0; 1]%Z [1; 2]%Z); discriminate.
Defined.

Lemma Permutation_nonempty {A} (l l' : list A) :
  Permutation l l' -> l <> [] -> l' <> [].
Proof.
  intros HP Hne ->. apply Permutation_sym, Permutation_nil in HP. contradiction.
Qed.

(** X5.  The divergence depends on how often each label occurs in each
    list and not on the order of the labels in them, and it is the same
    when the two lists change places. *)
Theorem compute_divergence_order_irrelevant
    (w w' : world) (labels1 labels2 labels1' labels2' : list Z) :
  labels1 <> [] -> labels2 <> [] ->
  Permutation labels1 labels1' -> Permutation labels2 labels2' ->
  fst (compute_divergence_from_cluster_labels labels1' labels2' w') =
    fst (compute_divergence_from_cluster_labels labels1 labels2 w) /\
  fst (compute_divergence_from_cluster_labels labels2 labels1 w') =
    fst (compute_divergence_from_cluster_labels labels1 labels2 w).
Proof.
  intros H1 H2 P1 P2.
  pose proof (Permutation_nonempty _ _ P1 H1) as H1'.
  pose proof (Permutation_nonempty _ _ P2 H2) as H2'.
  destruct (compute_divergence_run w labels1 labels2 H1 H2) as (w1 & E & _).
  destruct (compute_divergence_run w' labels1' labels2' H1' H2') as (w2 & E' & _).
  destruct (compute_divergence_run w' labels2 labels1 H2 H1) as (w3 & E'' & _).
  rewrite E, E', E''. simpl. split; do 2 f_equal.
  - rewrite (JS_divergence_perm _ _ (list_set (labels1' ++ labels2'))
                                (list_set (labels1 ++ labels2))).
    + apply JS_divergence_ext; intros x _; symmetry;
        now apply frequency_Permutation.
    + apply list_set_Permutation. intros x. rewrite !in_app_iff.
      now rewrite (Permutation_in' eq_refl P1), (Permutation_in' eq_refl P2).
  - rewrite JS_divergence_comm.
    apply JS_divergence_perm, list_set_Permutation.
    intros x. rewrite !in_app_iff. tauto.
Qed.

Lemma compute_divergence_order_irrelevant_witness :
  fst (compute_divergence_from_cluster_labels [1; 0; 0]%Z [2; 1]%Z empty_world) =
    fst (compute_divergence_from_cluster_labels [0; 0; 1]%Z [1; 2]%Z empty_world) /\
  fst (compute_divergence_from_cluster_labels [1; 2]%Z [0; 0; 1]%Z empty_world) =
    fst (compute_divergence_from_cluster_labels [0; 0; 1]%Z [1; 2]%Z empty_world).
Proof.
  apply (compute_divergence_order_irrelevant
           empty_world empty_world [0; 0; 1]%Z [1; 2]%Z [1; 0; 0]%Z [2; 1]%Z).
  - discriminate.
  - discriminate.
  - apply Permutation_sym, (Permutation_cons_app [0; 0]%Z []). reflexivity.
  - apply perm_swap.
Defined.

Lemma KL_term_zero (b : R) : KL_term 0 b = 0.
Proof. unfold KL_term. destruct (Req_dec_T 0 0); [reflexivity | contradiction]. Qed.

Lemma KL_term_half (a : R) : KL_term a (1 / 2 * (a + 0)) = a * ln 2.
Proof.
  unfold KL_term. destruct (Req_dec_T a 0) as [-> | Hne]; [lra |].
  replace (a / (1 / 2 * (a + 0))) with 2 by (now field). reflexivity.
Qed.

Lemma sumR_map_ext_in {A} (f g : A -> R) (U : list A) :
  (forall x, In x U -> f x = g x) -> sumR (map f U) = sumR (map g U).
Proof. intros H. now rewrite (map_ext_in f g U H). Qed.

Lemma sumR_map_mult_r {A} (f : A -> R) (c : R) (U : list A) :
  sumR (map (fun x => f x * c) U) = sumR (map f U) * c.
Proof. induction U as [| x U IH]; simpl; [lra | rewrite IH; lra]. Qed.

Lemma frequency_absent (labels : list Z) (x : Z) :
  ~ In x labels -> frequency labels x = 0.
Proof.
  intros H. unfold frequency.
  rewrite (proj1 (count_occ_not_In Z.eq_dec labels x) H). simpl. lra.
Qed.

(** X6.  When no label occurs in both lists, the divergence is [ln 2], the
    largest value it takes. *)
Theorem compute_divergence_disjoint (w : world) (labels1 labels2 : list Z) :
  labels1 <> [] -> labels2 <> [] ->
  (forall x, In x labels1 -> ~ In x labels2) ->
  fst (compute_divergence_from_cluster_labels labels1 labels2 w) = Ok (fin (ln 2)).
Proof.
  intros H1 H2 Hdis.
  destruct (compute_divergence_run w labels1 labels2 H1 H2) as (w' & E & _).
  rewrite E. simpl. do 2 f_equal.
  destruct (list_set_spec (labels1 ++ labels2)) as [HU HIn].
  set (U := list_set (labels1 ++ labels2)) in *.
  assert (D1 : is_distribution (map (frequency labels1) U)).
  { apply frequency_distribution; [assumption | assumption |].
    intros x Hx. apply HIn, in_or_app. now left. }
  assert (D2 : is_distribution (map (frequency labels2) U)).
  { apply frequency_distribution; [assumption | assumption |].
    intros x Hx. apply HIn, in_or_app. now right. }
  destruct D1 as [_ S1], D2 as [_ S2].
  unfold JS_divergence. rewrite midpoint_map, !KL_divergence_map.
  rewrite (sumR_map_ext_in _ (fun x => frequency labels1 x * ln 2) U).
  - rewrite (sumR_map_ext_in
               (fun x => KL_term (frequency labels2 x) _)
               (fun x => frequency labels2 x * ln 2) U).
    + rewrite !sumR_map_mult_r, S1, S2. lra.
    + intros x _.
      destruct (in_dec Z.eq_dec x labels1) as [Hin | Hnin].
      * rewrite (frequency_absent labels2 x (Hdis x Hin)), KL_term_zero. lra.
      * rewrite (frequency_absent labels1 x Hnin).
        rewrite Rplus_comm. apply KL_term_half.
  - intros x _.
    destruct (in_dec Z.eq_dec x labels1) as [Hin | Hnin].
    + rewrite (frequency_absent labels2 x (Hdis x Hin)). apply KL_term_half.
    + rewrite (frequency_absent labels1 x Hnin), KL_term_zero. lra.
Qed.

Lemma compute_divergence_disjoint_witness :
  fst (compute_divergence_from_cluster_labels [0; 0; 1]%Z [2; 3]%Z empty_world) =
  Ok (fin (ln 2)).
Proof.
  apply (compute_divergence_disjoint empty_world [0; 0; 1]%Z [2; 3]%Z).
  - discriminate.
  - discriminate.
  - simpl. intros x H1 H2. lia.
Defined.

(** X7.  When every label has the same share in both lists, the
    divergence is [0]. *)
Theorem compute_divergence_same_shares (w : world) (labels1 labels2 : list Z) :
  labels1 <> [] -> labels2 <> [] ->
  (forall x, frequency labels1 x = frequency labels2 x) ->
  fst (compute_divergence_from_cluster_labels labels1 labels2 w) = Ok (fin 0).
Proof.
  intros H1 H2 Hsame.
  destruct (compute_divergence_run w labels1 labels2 H1 H2) as (w' & E & _).
  rewrite E. simpl. do 2 f_equal.
  rewrite (JS_divergence_ext (frequency labels1) (frequency labels2)
                             (frequency labels2) (frequency labels2));
    [apply JS_divergence_same | auto | auto].
Qed.

Lemma compute_divergence_same_shares_witness :
  fst (compute_divergence_from_cluster_labels [0; 1]%Z [1; 0; 0; 1]%Z empty_world) =
  Ok (fin 0).
Proof.
  apply (compute_divergence_same_shares empty_world [0; 1]%Z [1; 0; 0; 1]%Z).
  - discriminate.
  - discriminate.
  - intros x. unfold frequency. cbn [count_occ length].
    destruct (Z.eq_dec 0 x), (Z.eq_dec 1 x); try lia; simpl; lra.
Defined.

(** ** [compute_divergence_from_cluster_labels] on an empty list *)

Lemma compute_divergence_unfold (labels1 labels2 : list Z) (w : world) :
  let U := list_set (labels1 ++ labels2) in
  let a1 := count_shares labels1 U in
  let a2 := count_shares labels2 U in
  fst (compute_divergence_from_cluster_labels labels1 labels2 w) =
  match jsd_of_arrays (array_div a1 (np_sum a1)) (array_div a2 (np_sum a2)) with
  | Ok d => Ok d
  | Raise e => Raise e
  end.
Proof.
  intros U a1 a2. unfold compute_divergence_from_cluster_labels.
  fold U. fold (count_shares labels1 U) (count_shares labels2 U). fold a1 a2.
  unfold bind, alloc, print, ret. cbn [heap stdout files].
  match goal with
  | |- context [compute_jsd (NdArray ?a) (NdArray ?b) ?ww] =>
      set (lp := a); set (lq := b); set (w2 := ww)
  end.
  rewrite compute_jsd_unfold. cbn [asarray_world asarray_loc heap].
  assert (Hp : (lp < length (heap w2))%nat)
    by (subst lp w2; cbn [heap]; rewrite !length_app; simpl; lia).
  assert (Hq : (lq < length (heap w2))%nat)
    by (subst lq w2; cbn [heap]; rewrite !length_app; simpl; lia).
  assert (Hd : lp <> lq) by (subst lp lq; rewrite length_app; simpl; lia).
  destruct (heap_after_jsd_distinct (heap w2) lp lq Hd Hp Hq) as [-> ->].
  assert (G1 : heap_get (heap w2) lp = a1).
  { subst lp w2. cbn [heap].
    rewrite heap_get_app_old by (rewrite length_app; simpl; lia).
    apply heap_get_app_new. }
  assert (G2 : heap_get (heap w2) lq = a2)
    by (subst lq w2; cbn [heap]; apply heap_get_app_new).
  rewrite G1, G2.
  destruct (jsd_of_arrays _ _); reflexivity.
Qed.

Lemma count_shares_length (labels U : list Z) :
  length (count_shares labels U) = length U.
Proof. unfold count_shares. now rewrite array_div_length, !length_map. Qed.

Lemma count_shares_nil (U : list Z) : count_shares [] U = all_nonfinite (length U).
Proof.
  unfold count_shares. cbv zeta.
  assert (E : fold_right Nat.add O (map (Counter []) U) = O)
    by (induction U as [| x U IH]; [reflexivity | exact IH]).
  rewrite E. change (fin (INR 0)) with (fin 0).
  rewrite array_div_nonfinite by (now left). now rewrite !length_map.
Qed.

(** X8.  The function raises on no input.  With two empty lists it returns
    [0.0]; with one empty list and one that is not, it returns a value that
    is not finite (nan). *)
Theorem compute_divergence_empty_list (w : world) (x : Z) (labels : list Z) :
  fst (compute_divergence_from_cluster_labels [] [] w) = Ok (fin 0) /\
  fst (compute_divergence_from_cluster_labels [] (x :: labels) w) = Ok nonfinite /\
  fst (compute_divergence_from_cluster_labels (x :: labels) [] w) = Ok nonfinite /\
  forall labels1 labels2,
    exists d, fst (compute_divergence_from_cluster_labels labels1 labels2 w) = Ok d.
Proof.
  split; [| split; [| split]].
  - rewrite compute_divergence_unfold. cbn.
    unfold fin. do 2 f_equal.
    destruct (Req_dec_T 2 0); [lra |]. f_equal. lra.
  - rewrite compute_divergence_unfold. cbv zeta.
    set (U := list_set ([] ++ x :: labels)).
    assert (HU : length U <> O).
    { destruct (list_set_spec ([] ++ x :: labels)) as [_ HIn]. fold U in HIn.
      destruct U; [| discriminate].
      exfalso. apply (HIn x). simpl. now left. }
    rewrite count_shares_nil, array_div_all_nonfinite.
    rewrite (jsd_of_arrays_nonfinite (length U)); auto.
    + apply all_nonfinite_length.
    + now rewrite array_div_length, count_shares_length.
  - rewrite compute_divergence_unfold. cbv zeta.
    set (U := list_set ((x :: labels) ++ [])).
    assert (HU : length U <> O).
    { destruct (list_set_spec ((x :: labels) ++ [])) as [_ HIn]. fold U in HIn.
      destruct U; [| discriminate].
      exfalso. apply (HIn x). simpl. now left. }
    rewrite count_shares_nil, array_div_all_nonfinite.
    rewrite (jsd_of_arrays_nonfinite (length U)); auto.
    + now rewrite array_div_length, count_shares_length.
    + apply all_nonfinite_length.
  - intros labels1 labels2.
    destruct (compute_divergence_total labels1 labels2 w) as (d & w' & E & _).
    exists d. now rewrite E.
Qed.

(** ** [compute_averaged_embedding_dist]: outcomes and range *)

Lemma dot_comm (a b : vec) : dot a b = dot b a.
Proof.
  revert b. induction a as [| x a IH]; intros [| y b]; try reflexivity.
  rewrite !dot_cons, IH. lra.
Qed.

(** The product of two vectors against their squares; the shorter vector
    sets the number of terms of [dot]. *)
Lemma dot_bound (a b : vec) :
  - (dot a a + dot b b) / 2 <= dot a b <= (dot a a + dot b b) / 2.
Proof.
  revert b. induction a as [| x a IH]; intros [| y b].
  - unfold dot. simpl. lra.
  - pose proof (dot_self_nonneg (y :: b)).
    change (dot [] (y :: b)) with 0. change (dot [] []) with 0. lra.
  - pose proof (dot_self_nonneg (x :: a)).
    change (dot (x :: a) []) with 0. change (dot [] []) with 0. lra.
  - rewrite !dot_cons. specialize (IH b).
    pose proof (Rle_0_sqr (x - y)) as Hm. pose proof (Rle_0_sqr (x + y)) as Hp.
    unfold Rsqr in Hm, Hp. split; nra.
Qed.

Lemma normalize_dot_self (a : vec) : dot (normalize a) (normalize a) <= 1.
Proof.
  unfold normalize. cbv zeta.
  destruct (Req_dec_T (l2_norm a) 0) as [E | Hne].
  - rewrite map_div_one. unfold l2_norm in E.
    apply sqrt_eq_0 in E; [lra | apply dot_self_nonneg].
  - rewrite dot_scaled by assumption.
    unfold l2_norm in *. rewrite sqrt_sqrt by apply dot_self_nonneg.
    assert (dot a a <> 0) by (intros E; rewrite E, sqrt_0 in Hne; contradiction).
    right. now field.
Qed.

Lemma cosine_similarity_range (a b : vec) (c : R) :
  cosine_similarity a b = Ok c -> -1 <= c <= 1.
Proof.
  unfold cosine_similarity.
  destruct a as [| x a]; [discriminate |].
  destruct b as [| y b]; [discriminate |].
  destruct (Nat.eqb _ _); [| discriminate].
  intros H. injection H as <-.
  pose proof (dot_bound (normalize (x :: a)) (normalize (y :: b))).
  pose proof (normalize_dot_self (x :: a)).
  pose proof (normalize_dot_self (y :: b)).
  lra.
Qed.

Lemma cosine_similarity_raises (a b : vec) (e : exn) :
  cosine_similarity a b = Raise e -> e = ValueError.
Proof.
  unfold cosine_similarity.
  destruct a as [| x a]; [congruence |].
  destruct b as [| y b]; [congruence |].
  destruct (Nat.eqb _ _); congruence.
Qed.

Lemma cosine_similarity_mismatch (a b : vec) :
  length a <> length b -> cosine_similarity a b = Raise ValueError.
Proof.
  intros H. unfold cosine_similarity.
  destruct a as [| x a]; [reflexivity |].
  destruct b as [| y b]; [reflexivity |].
  destruct (Nat.eqb _ _) eqn:E; [| reflexivity].
  apply Nat.eqb_eq in E. contradiction.
Qed.

(** X9.  [compute_averaged_embedding_dist] either returns a distance
    between [0] and [2], having printed it, or raises a [ValueError] and
    leaves no trace.  It raises when a slice is empty, and when the
    embeddings of the two slices have different dimensions. *)
Theorem compute_averaged_embedding_dist_outcomes
    (e1 e2 : list vec) (w : world) :
  ((exists d : R,
      compute_averaged_embedding_dist e1 e2 w =
        (Ok d, printed w [PyStr "Averaged embedding cosine dist:"; PyFloat (fin d)]) /\
      0 <= d <= 2) \/
   compute_averaged_embedding_dist e1 e2 w = (Raise ValueError, w)) /\
  (e1 = [] \/ e2 = [] ->
   compute_averaged_embedding_dist e1 e2 w = (Raise ValueError, w)) /\
  (forall d1 d2 : nat,
     e1 <> [] -> e2 <> [] ->
     Forall (fun x => length x = d1) e1 -> Forall (fun x => length x = d2) e2 ->
     d1 <> d2 ->
     compute_averaged_embedding_dist e1 e2 w = (Raise ValueError, w)).
Proof.
  split; [| split].
  - unfold compute_averaged_embedding_dist.
    destruct (np_mean_axis0 e1) as [m1 |]; [| now right].
    destruct (np_mean_axis0 e2) as [m2 |]; [| now right].
    unfold bind, lift, print, ret.
    destruct (cosine_similarity m1 m2) as [c | e] eqn:E.
    + left. exists (1 - c). split; [reflexivity |].
      apply cosine_similarity_range in E. lra.
    + right. apply cosine_similarity_raises in E. now subst.
  - apply compute_averaged_empty.
  - intros d1 d2 N1 N2 F1 F2 Hd. unfold compute_averaged_embedding_dist.
    destruct (np_mean_axis0_length d1 e1 N1 F1) as (m1 & -> & L1).
    destruct (np_mean_axis0_length d2 e2 N2 F2) as (m2 & -> & L2).
    unfold bind, lift. rewrite cosine_similarity_mismatch by congruence.
    reflexivity.
Qed.

Lemma cosine_similarity_comm (a b : vec) :
  cosine_similarity a b = cosine_similarity b a.
Proof.
  unfold cosine_similarity.
  destruct a as [| x a], b as [| y b]; try reflexivity.
  rewrite (Nat.eqb_sym (length (y :: b))).
  now rewrite (dot_comm (normalize (x :: a))).
Qed.

Lemma cosine_similarity_self (m : vec) :
  nonzero_vec m -> cosine_similarity m m = Ok 1.
Proof.
  intros H. rewrite cosine_similarity_nonzero by auto.
  pose proof (l2_norm_pos m H) as Hn.
  unfold l2_norm in *. rewrite sqrt_sqrt by apply dot_self_nonneg.
  pose proof (dot_self_pos m H). f_equal. field. lra.
Qed.

(** X10.  The distance is the same when the two slices change places, and
    it is [0] for two slices with the same mean embedding, when that mean
    is not the zero vector. *)
Theorem compute_averaged_embedding_dist_symmetric
    (e1 e2 : list vec) (w w' : world) :
  fst (compute_averaged_embedding_dist e1 e2 w) =
    fst (compute_averaged_embedding_dist e2 e1 w') /\
  forall m : vec,
    np_mean_axis0 e1 = Some m -> np_mean_axis0 e2 = Some m -> nonzero_vec m ->
    fst (compute_averaged_embedding_dist e1 e2 w) = Ok 0.
Proof.
  split.
  - unfold compute_averaged_embedding_dist.
    destruct (np_mean_axis0 e1) as [m1 |], (np_mean_axis0 e2) as [m2 |];
      try reflexivity.
    unfold bind, lift, print, ret. rewrite (cosine_similarity_comm m2 m1).
    destruct (cosine_similarity m1 m2); reflexivity.
  - intros m E1 E2 Hm. unfold compute_averaged_embedding_dist.
    rewrite E1, E2. unfold bind, lift, print, ret.
    rewrite cosine_similarity_self by assumption. simpl. f_equal. lra.
Qed.

(** ** [compute_mean_dist]: what it returns on every input *)

Lemma quiet_ret {A} (a : A) : quiet (ret a).
Proof. intros w. left. now exists a. Qed.

Lemma quiet_bind {A B} (m : M A) (k : A -> M B) :
  quiet m -> (forall a, quiet (k a)) -> quiet (bind m k).
Proof.
  intros Hm Hk w. unfold bind.
  destruct (Hm w) as [[a ->] | ->]; [apply Hk | now right].
Qed.

Lemma quiet_mapM {A B} (f : A -> M B) (l : list A) :
  (forall x, quiet (f x)) -> quiet (mapM f l).
Proof.
  intros Hf. induction l as [| x l IH]; [apply quiet_ret |].
  simpl. apply quiet_bind; [apply Hf |].
  intros y. apply quiet_bind; [exact IH |]. intros ys. apply quiet_ret.
Qed.

Lemma quiet_cosine (a b : vec) {B} (k : R -> M B) :
  (forall c, quiet (k c)) -> quiet (bind (lift (cosine_similarity a b)) k).
Proof.
  intros Hk w. unfold bind, lift.
  destruct (cosine_similarity a b) as [c | e] eqn:E; [apply Hk |].
  apply cosine_similarity_raises in E. subst. now right.
Qed.

Lemma np_mean_nil : np_mean [] = nonfinite.
Proof.
  unfold np_mean. simpl. destruct (Req_dec_T 0 0); [reflexivity | contradiction].
Qed.

Lemma np_mean_all_nonfinite (n : nat) : np_mean (all_nonfinite n) = nonfinite.
Proof.
  destruct n; [apply np_mean_nil | reflexivity].
Qed.

(** X11.  On every input [compute_mean_dist] returns [None] or raises a
    [ValueError]; when it raises, nothing has been printed.  With an empty
    first or second argument it does not raise: it prints a mean that is
    not finite (nan). *)
Theorem compute_mean_dist_outcomes (X Y : list vec) (w : world) :
  ((exists mean : float64,
      compute_mean_dist X Y w =
        (Ok PyNone, printed w [PyStr "Mean cosine dist:"; PyFloat mean])) \/
   compute_mean_dist X Y w = (Raise ValueError, w)) /\
  compute_mean_dist [] Y w =
    (Ok PyNone, printed w [PyStr "Mean cosine dist:"; PyFloat nonfinite]) /\
  compute_mean_dist X [] w =
    (Ok PyNone, printed w [PyStr "Mean cosine dist:"; PyFloat nonfinite]).
Proof.
  split; [| split].
  - unfold compute_mean_dist. cbv zeta.
    match goal with
    | |- context [bind ?m ?k w] =>
        assert (Hq : quiet m)
    end.
    { apply quiet_mapM. intros x1. apply quiet_bind; [| intros; apply quiet_ret].
      apply quiet_mapM. intros x2. apply quiet_cosine. intros c. apply quiet_ret. }
    destruct (Hq w) as [[means E] | E].
    + left. rewrite (bind_run _ _ _ _ _ E). eexists. reflexivity.
    + right. now apply bind_raise.
  - unfold compute_mean_dist. cbv zeta. simpl. unfold bind, ret, print. simpl.
    rewrite np_mean_nil. reflexivity.
  - unfold compute_mean_dist. cbv zeta. unfold bind at 1.
    cbn [mapM].
    replace (mapM (fun _ : vec => mean_i <- ret [];; ret (np_mean mean_i)) X w)
      with (Ok (all_nonfinite (length X)), w).
    + rewrite np_mean_all_nonfinite. reflexivity.
    + symmetry. clear. induction X as [| x X IH]; [reflexivity |].
      simpl. unfold bind at 1. unfold bind at 1. unfold ret at 1.
      unfold ret at 1. rewrite np_mean_nil. unfold bind at 1.
      rewrite IH. reflexivity.
Qed.

(** ** The filter of a slice: outcomes *)

(** X12.  The loop over a slice ends in one of three ways.  When
    [re.search] raises on a sentence that the loop comes to, the loop
    raises that exception, at the first such sentence.  When it raises on
    no sentence and the slice has fewer sentences than embeddings, the
    loop raises an [IndexError].  Otherwise it returns as many sentences
    as embeddings, paired as they were in the slice and in the order of
    the slice, and [re.search] finds a match in every sentence it
    returns.  The loop returns in no other case. *)
Theorem filter_slice_outcomes
    (lib : Library) (regex : string) (oneEmb : bool)
    (embs : list vec) (texts : list string) :
  (forall (ts1 : list string) (t : string) (ts2 : list string) (err : exn),
     texts = ts1 ++ t :: ts2 -> (length ts1 < length embs)%nat ->
     searchable lib regex ts1 -> re_search lib regex t = Raise err ->
     filter_slice lib regex oneEmb embs texts = Raise err) /\
  (searchable lib regex texts -> (length texts < length embs)%nat ->
   filter_slice lib regex oneEmb embs texts = Raise IndexError) /\
  (searchable lib regex (firstn (length embs) texts) ->
   (length embs <= length texts)%nat ->
   exists (es : list vec) (ts : list string),
     filter_slice lib regex oneEmb embs texts = Ok (es, ts) /\
     length es = length ts /\
     subsequence (combine es ts) (occurrences embs texts) /\
     Forall (fun t => re_search lib regex t = Ok true) ts) /\
  (forall r : list vec * list string,
     filter_slice lib regex oneEmb embs texts = Ok r ->
     (length embs <= length texts)%nat /\
     searchable lib regex (firstn (length embs) texts)).
Proof.
  split; [| split; [| split]].
  - intros ts1 t ts2 err -> Hlen Hok Herr.
    now apply filter_slice_search_error.
  - intros Hok Hlen. now apply filter_slice_index_error.
  - intros Hok Hlen. rewrite filter_slice_spec by assumption. cbv zeta.
    set (found := filter (matches lib regex) (occurrences embs texts)).
    set (kept := select oneEmb [] found).
    assert (Hsub : subsequence kept found) by apply subsequence_select.
    exists (map fst kept), (map snd kept).
    split; [reflexivity |]. split; [now rewrite !length_map |]. split.
    + rewrite combine_fst_snd.
      eapply subsequence_trans; [exact Hsub | apply subsequence_filter].
    + apply Forall_map, Forall_forall. intros et Hin.
      apply (subsequence_In _ _ _ Hsub) in Hin.
      apply filter_In in Hin as [_ Hm]. unfold matches in Hm.
      destruct (re_search lib regex (snd et)) as [b | err];
        [now subst b | discriminate].
  - intros r. apply filter_slice_Ok_inv.
Qed.

(** ** The filter of a slice: with and without one embedding per sentence *)

Lemma first_per_text_from_distinct (items : list (vec * string)) :
  forall seen,
    NoDup (map snd items) -> (forall t, In t (map snd items) -> ~ In t seen) ->
    first_per_text_from seen items = items.
Proof.
  induction items as [| [e t] items IH]; intros seen Hnd Hseen; [reflexivity |].
  cbn [first_per_text_from]. cbn [map snd] in Hnd, Hseen.
  inversion Hnd as [| ? ? Hnot Hnd']; subst.
  destruct (text_in t seen) eqn:E.
  - apply text_in_spec in E. exfalso. apply (Hseen t); [now left | assumption].
  - f_equal. apply IH; [assumption |].
    intros t' Hin [<- | Hs]; [contradiction |].
    apply (Hseen t'); [now right | assumption].
Qed.

(** X13.  With one embedding per sentence the loop keeps a part of what it
    keeps without: the same sentences, each once, every one with the
    embedding of its first occurrence that passes the filter (no
    occurrence with the same sentence comes before it in what is kept
    without the mode).  When the sentences that pass the filter are
    pairwise different, the mode changes nothing. *)
Theorem one_embedding_per_sentence_keeps_part
    (lib : Library) (regex : string) (embs : list vec) (texts : list string) :
  (length embs <= length texts)%nat -> searchable lib regex texts ->
  exists kept_all kept_first : list (vec * string),
    filter_slice lib regex false embs texts =
      Ok (map fst kept_all, map snd kept_all) /\
    filter_slice lib regex true embs texts =
      Ok (map fst kept_first, map snd kept_first) /\
    subsequence kept_first kept_all /\
    NoDup (map snd kept_first) /\
    (forall t, In t (map snd kept_all) <-> In t (map snd kept_first)) /\
    (forall e t, In (e, t) kept_first ->
       exists pre post,
         kept_all = pre ++ (e, t) :: post /\ ~ In t (map snd pre)) /\
    (NoDup (map snd kept_all) -> kept_first = kept_all).
Proof.
  intros Hlen Hok.
  set (found := filter (matches lib regex) (occurrences embs texts)).
  exists found, (first_per_text_from [] found).
  rewrite !filter_slice_spec by (assumption || now apply searchable_firstn).
  unfold select. cbv zeta. fold found.
  destruct (first_per_text_from_nil_spec found) as (Hsub & Hnd & Hall & Hfirst).
  repeat split; try assumption.
  - apply Hall.
  - intros Hin. apply in_map_iff in Hin as (et & <- & Hin).
    apply in_map. apply (subsequence_In _ _ _ Hsub Hin).
  - intros Hd. apply first_per_text_from_distinct; auto.
Qed.

Lemma one_embedding_per_sentence_keeps_part_witness :
  exists kept_all kept_first : list (vec * string),
    filter_slice reference_library (word_regex "plane_nn") false
                 (t1 repeated_embeddings) (t1_text repeated_embeddings) =
      Ok (map fst kept_all, map snd kept_all) /\
    filter_slice reference_library (word_regex "plane_nn") true
                 (t1 repeated_embeddings) (t1_text repeated_embeddings) =
      Ok (map fst kept_first, map snd kept_first) /\
    subsequence kept_first kept_all /\
    NoDup (map snd kept_first) /\
    (forall t, In t (map snd kept_all) <-> In t (map snd kept_first)) /\
    (forall e t, In (e, t) kept_first ->
       exists pre post,
         kept_all = pre ++ (e, t) :: post /\ ~ In t (map snd pre)) /\
    (NoDup (map snd kept_all) -> kept_first = kept_all).
Proof.
  apply (one_embedding_per_sentence_keeps_part
           reference_library (word_regex "plane_nn")
           (t1 repeated_embeddings) (t1_text repeated_embeddings)).
  - simpl. lia.
  - apply reference_library_searchable.
Defined.

(** ** A word that fails *)

Lemma raise_keeps_files_or_bind {A B} (Q : exn -> Prop) (m : M A) (k : A -> M B) :
  keeps_files m -> (forall a, raise_keeps_files_or Q (k a)) ->
  raise_keeps_files_or Q (bind m k).
Proof.
  intros Hm Hk w e w' H. unfold bind in H.
  destruct (m w) as [[a | e0] w1] eqn:E.
  - destruct (Hk a _ _ _ H) as [F | HQ]; [left | now right].
    rewrite F. apply (Hm _ _ _ E).
  - injection H as _ <-. left. apply (Hm _ _ _ E).
Qed.

(** Making the directory writes no file. *)
Lemma keeps_files_makedirs_step (lib : Library) (results_dir : string) (there : bool) :
  keeps_files (if negb there then os_makedirs lib results_dir else ret tt).
Proof.
  intros w o w' H. destruct there; cbn [negb] in H.
  - unfold ret in H. now injection H as _ <-.
  - unfold os_makedirs in H.
    destruct (String.eqb results_dir EmptyString);
      [unfold raise in H; now injection H as _ <- |].
    destruct (can_makedirs lib results_dir);
      [| unfold raise in H]; now injection H as _ <-.
Qed.

(** The pickles are written one after the other: the first that cannot
    be opened ends the loop body with an [OSError]. *)
Lemma save_pickles_raise_inv (lib : Library) (results_dir lang : string)
    (acc : accumulators) (w w' : world) (e : exn) :
  save_pickles lib results_dir lang acc w = (Raise e, w') ->
  e = OSError /\ ~ can_open_pickles lib results_dir lang.
Proof.
  intros H. split.
  - unfold save_pickles in H. cbv zeta in H.
    repeat match type of H with
           | bind (write_file ?l ?p ?c) ?k ?ww = _ =>
               let E := fresh "E" in
               let u := fresh "u" in
               let e0 := fresh "e" in
               let w1 := fresh "w" in
               unfold bind at 1 in H;
               destruct (write_file l p c ww) as [[u | e0] w1] eqn:E;
               [| injection H as <- <-;
                  now apply write_file_raise_inv in E as (-> & _)]
           end.
    now apply write_file_raise_inv in H as (-> & _).
  - intros Hopen. rewrite (save_pickles_run lib _ _ _ _ Hopen) in H.
    discriminate.
Qed.

(** The writes of the loop body: a raise after a file was written is the
    [OSError] of a pickle that does not open, after the table was
    written. *)
Lemma writes_raise (lib : Library) (results_dir lang : string)
    (table : list row) (acc : accumulators) (items : list pyobj) :
  raise_keeps_files_or
    (fun e => e = OSError /\
              can_open lib (csv_path results_dir lang) = true /\
              ~ can_open_pickles lib results_dir lang)
    (write_file lib (csv_path results_dir lang) (Csv table) ;;;
     save_pickles lib results_dir lang acc ;;;
     print items ;;; ret acc).
Proof.
  intros w e w' H. unfold bind at 1 in H.
  destruct (write_file lib (csv_path results_dir lang) (Csv table) w)
    as [[u | e0] w1] eqn:E.
  - apply write_file_Ok_inv in E as [Ocsv ->].
    unfold bind at 1 in H.
    destruct (save_pickles lib results_dir lang acc _) as [[u' | e1] w2] eqn:E2.
    + unfold bind, print, ret in H. discriminate.
    + injection H as <- <-. right.
      apply save_pickles_raise_inv in E2 as [-> Hno]. auto.
  - injection H as <- <-. left.
    now apply write_file_raise_inv in E as (_ & -> & _).
Qed.

Ltac keeps_files_step :=
  first [ apply keeps_files_makedirs_step
        | apply keeps_disk_files;
          first [ apply keeps_disk_print | apply keeps_disk_lift
                | apply keeps_disk_averaged | apply keeps_disk_aff_prop
                | apply keeps_disk_k_means | apply keeps_disk_divergence
                | apply keeps_disk_path_exists ] ].

(** Every step of the loop body before the first write keeps the files. *)
Ltac files_kept_until_written :=
  repeat first
    [ apply writes_raise
    | apply raise_keeps_files_or_bind; [keeps_files_step | intros ?] ].

Lemma process_word_raise (lib : Library) (a : args) (i : nat) (word : string)
    (emb : word_embeddings) (acc : accumulators) :
  raise_keeps_files_or
    (fun e => e = OSError /\
              can_open lib (csv_path (semeval_results a) (language a)) = true /\
              ~ can_open_pickles lib (semeval_results a) (language a))
    (process_word lib a i word emb acc).
Proof. unfold process_word. cbv zeta. files_kept_until_written. Qed.

(** X14.  When the loop body raises for a word, it has written no file,
    but in one case: the exception is the [OSError] of a pickle file that
    could not be opened, after the table was written.  So an exception
    that is not an [OSError], as the computations of the word raise
    them, leaves the files as they were, and so does every exception
    when the pickle files can be opened. *)
Theorem failed_word_writes_nothing
    (lib : Library) (a : args) (i : nat) (word : string) (emb : word_embeddings)
    (acc : accumulators) (w w' : world) (e : exn) :
  process_word lib a i word emb acc w = (Raise e, w') ->
  (files w' = files w \/
   (e = OSError /\
    can_open lib (csv_path (semeval_results a) (language a)) = true /\
    ~ can_open_pickles lib (semeval_results a) (language a))) /\
  (e <> OSError -> files w' = files w) /\
  (can_open_pickles lib (semeval_results a) (language a) -> files w' = files w).
Proof.
  intros H. pose proof (process_word_raise lib a i word emb acc w e w' H) as C.
  split; [exact C |]. split.
  - intros Hne. destruct C as [F | (He & _)]; [exact F | contradiction].
  - intros Hopen. destruct C as [F | (_ & _ & Hno)]; [exact F | contradiction].
Qed.

Lemma failed_word_writes_nothing_witness :
  exists w',
    process_word reference_library default_args 0 "car_nn" car_embeddings
                 initial_accumulators empty_world = (Raise ValueError, w') /\
    (files w' = files empty_world \/
     (ValueError = OSError /\
      can_open reference_library
               (csv_path (semeval_results default_args) (language default_args)) =
        true /\
      ~ can_open_pickles reference_library (semeval_results default_args)
                         (language default_args))) /\
    (ValueError <> OSError -> files w' = files empty_world) /\
    (can_open_pickles reference_library (semeval_results default_args)
                      (language default_args) ->
     files w' = files empty_world).
Proof.
  destruct (process_word_empty_slice
              reference_library default_args 0 "car_nn" car_embeddings
              initial_accumulators empty_world [] [[1]] [] ["the car stopped"]%string
              (car_filter false) (or_introl eq_refl)) as (w' & E & _).
  exists w'. split; [exact E |].
  apply (failed_word_writes_nothing
           reference_library default_args 0 "car_nn" car_embeddings
           initial_accumulators empty_world w' ValueError E).
Defined.

(** ** The files after a run *)

Lemma pickle_path_distinct (a : args) (n1 n2 : string) :
  (forall rest1 rest2, String.append n1 rest1 <> String.append n2 rest2) ->
  pickle_path a n1 <> pickle_path a n2.
Proof.
  intros Hne H. unfold pickle_path in H. apply append_inj_l in H.
  exact (Hne _ _ H).
Qed.

Ltac distinct_paths :=
  apply pickle_path_distinct; intros rest1 rest2 Heq; simpl in Heq; discriminate.

Lemma pickle_files_get (a : args) (acc : accumulators) (fs : dict file_content) :
  let fs' := pickle_files (semeval_results a) (language a) acc fs in
  dict_get fs' (pickle_path a "aff_prop_labels_") =
    Some (PickleLabels (aff_prop_labels_dict acc)) /\
  dict_get fs' (pickle_path a "aff_prop_centroids_") =
    Some (PickleCentroids (aff_prop_centroids_dict acc)) /\
  dict_get fs' (pickle_path a "kmeans_5_labels_") =
    Some (PickleLabels (kmeans_5_labels_dict acc)) /\
  dict_get fs' (pickle_path a "kmeans_5_centroids_") =
    Some (PickleCentroids (kmeans_5_centroids_dict acc)) /\
  dict_get fs' (pickle_path a "kmeans_7_labels_") =
    Some (PickleLabels (kmeans_7_labels_dict acc)) /\
  dict_get fs' (pickle_path a "kmeans_7_centroids_") =
    Some (PickleCentroids (kmeans_7_centroids_dict acc)) /\
  dict_get fs' (pickle_path a "sents_") = Some (PickleSents (sentence_dict acc)).
Proof.
  unfold pickle_files. cbv zeta.
  fold (pickle_path a "aff_prop_labels_") (pickle_path a "aff_prop_centroids_")
       (pickle_path a "kmeans_5_labels_") (pickle_path a "kmeans_5_centroids_")
       (pickle_path a "kmeans_7_labels_") (pickle_path a "kmeans_7_centroids_")
       (pickle_path a "sents_").
  repeat split;
    repeat (rewrite dict_get_set_other by distinct_paths);
    apply dict_get_set_same.
Qed.

Lemma words_loop_files (lib : Library) (a : args) (items : dict word_embeddings) :
  forall (i : nat) (acc acc' : accumulators) (w w' : world),
    words_loop lib a i items acc w = (Ok acc', w') -> items <> [] ->
    exists fs, files w' = pickle_files (semeval_results a) (language a) acc' fs.
Proof.
  induction items as [| [word emb] items IH]; intros i acc acc' w w' H N;
    [contradiction |].
  simpl in H. apply bind_Ok_inv in H as (acc1 & w1 & H1 & H).
  destruct items as [| item items].
  - simpl in H. injection H as <- <-.
    apply process_word_inv in H1
      as (an & table & _ & _ & _ & _ & _ & _ & _ & _ & Hfiles).
    eexists. exact Hfiles.
  - apply (IH _ _ _ _ _ H). discriminate.
Qed.

(** X15.  After a run that has processed at least one word, each of the
    seven pickle files holds the dict of the same name of the accumulators
    that the run ends with: the six label and centroid dicts and the
    sentences. *)
Theorem pickles_hold_the_accumulators
    (lib : Library) (a : args) (items : dict word_embeddings)
    (acc' : accumulators) (w w' : world) :
  main lib a items w = (Ok acc', w') -> items <> [] ->
  dict_get (files w') (pickle_path a "aff_prop_labels_") =
    Some (PickleLabels (aff_prop_labels_dict acc')) /\
  dict_get (files w') (pickle_path a "aff_prop_centroids_") =
    Some (PickleCentroids (aff_prop_centroids_dict acc')) /\
  dict_get (files w') (pickle_path a "kmeans_5_labels_") =
    Some (PickleLabels (kmeans_5_labels_dict acc')) /\
  dict_get (files w') (pickle_path a "kmeans_5_centroids_") =
    Some (PickleCentroids (kmeans_5_centroids_dict acc')) /\
  dict_get (files w') (pickle_path a "kmeans_7_labels_") =
    Some (PickleLabels (kmeans_7_labels_dict acc')) /\
  dict_get (files w') (pickle_path a "kmeans_7_centroids_") =
    Some (PickleCentroids (kmeans_7_centroids_dict acc')) /\
  dict_get (files w') (pickle_path a "sents_") =
    Some (PickleSents (sentence_dict acc')).
Proof.
  intros H N. apply main_inv in H as (w0 & _ & H).
  destruct (words_loop_files lib a items _ _ _ _ _ H N) as [fs ->].
  apply pickle_files_get.
Qed.

Lemma pickles_hold_the_accumulators_witness :
  exists acc' w',
    main reference_library default_args plane_items empty_world = (Ok acc', w') /\
    (dict_get (files w') (pickle_path default_args "aff_prop_labels_") =
       Some (PickleLabels (aff_prop_labels_dict acc')) /\
     dict_get (files w') (pickle_path default_args "aff_prop_centroids_") =
       Some (PickleCentroids (aff_prop_centroids_dict acc')) /\
     dict_get (files w') (pickle_path default_args "kmeans_5_labels_") =
       Some (PickleLabels (kmeans_5_labels_dict acc')) /\
     dict_get (files w') (pickle_path default_args "kmeans_5_centroids_") =
       Some (PickleCentroids (kmeans_5_centroids_dict acc')) /\
     dict_get (files w') (pickle_path default_args "kmeans_7_labels_") =
       Some (PickleLabels (kmeans_7_labels_dict acc')) /\
     dict_get (files w') (pickle_path default_args "kmeans_7_centroids_") =
       Some (PickleCentroids (kmeans_7_centroids_dict acc')) /\
     dict_get (files w') (pickle_path default_args "sents_") =
       Some (PickleSents (sentence_dict acc'))).
Proof.
  destruct (main_plane_run default_args empty_world eq_refl default_results_dir) as (acc' & w' & E).
  exists acc', w'. split; [exact E |].
  apply (pickles_hold_the_accumulators
           reference_library default_args plane_items acc' empty_world w' E).
  discriminate.
Defined.

(** ** The accumulators after a run *)

Lemma dict_set_keeps_entry {V} (d : dict V) (k k' : string) (v : V) :
  dict_get d k <> None -> dict_get (dict_set d k' v) k <> None.
Proof.
  intros H. destruct (string_dec k' k) as [-> | Hne].
  - rewrite dict_get_set_same. discriminate.
  - now rewrite dict_get_set_other.
Qed.

Lemma record_word_has_entries (acc : accumulators) (word word' : string)
    (an : analysis) :
  word' = word \/ has_entries acc word' ->
  has_entries (record_word acc word an) word'.
Proof.
  intros [-> | H]; unfold has_entries, record_word; cbn.
  - rewrite !dict_get_set_same. repeat split; discriminate.
  - destruct H as (H1 & H2 & H3 & H4 & H5 & H6 & H7).
    repeat split; now apply dict_set_keeps_entry.
Qed.

Lemma words_loop_accumulators (lib : Library) (a : args)
    (items : dict word_embeddings) :
  forall (i : nat) (acc acc' : accumulators) (w w' : world),
    words_loop lib a i items acc w = (Ok acc', w') ->
    aligned (results_dict acc) ->
    aligned (results_dict acc') /\
    forall word,
      In word (map fst items) \/ has_entries acc word -> has_entries acc' word.
Proof.
  induction items as [| [word emb] items IH]; intros i acc acc' w w' H Hal.
  - simpl in H. injection H as <- <-. split; [assumption |].
    intros word0 [[] | Hw]. assumption.
  - simpl in H. apply bind_Ok_inv in H as (acc1 & w1 & H1 & H).
    apply process_word_inv in H1
      as (an & table & _ & _ & _ & _ & _ & _ & -> & _ & _).
    destruct (IH _ _ _ _ _ H (record_word_aligned acc word an Hal)) as [Hal' Hent].
    split; [assumption |].
    intros word' Hw. apply Hent.
    destruct Hw as [[<- | Hin] | Hw].
    + right. apply record_word_has_entries. now left.
    + now left.
    + right. apply record_word_has_entries. now right.
Qed.

(** X16.  The accumulators that a run ends with list the processed words
    in the order of the input, have one value for each of them in every
    column of the results, and have an entry for each of them in the
    sentence dict and in the six label and centroid dicts. *)
Theorem accumulators_cover_the_words
    (lib : Library) (a : args) (items : dict word_embeddings)
    (acc' : accumulators) (w w' : world) :
  main lib a items w = (Ok acc', w') ->
  col_word (results_dict acc') = map fst items /\
  length (col_aff_prop (results_dict acc')) = length items /\
  length (col_kmeans_5 (results_dict acc')) = length items /\
  length (col_kmeans_7 (results_dict acc')) = length items /\
  length (col_averaging (results_dict acc')) = length items /\
  length (col_aff_prop_clusters (results_dict acc')) = length items /\
  forall word, In word (map fst items) -> has_entries acc' word.
Proof.
  intros H. apply main_inv in H as (w0 & _ & H).
  destruct (words_loop_inv lib a items _ _ _ _ _ H) as [Hw _].
  simpl in Hw.
  assert (Hal0 : aligned (results_dict initial_accumulators))
    by (repeat split; reflexivity).
  destruct (words_loop_accumulators lib a items _ _ _ _ _ H Hal0)
    as [(H1 & H2 & H3 & H4 & H5) Hent].
  rewrite Hw in *. rewrite length_map in *.
  do 6 (split; [assumption || reflexivity |]).
  intros word Hin. apply Hent. now left.
Qed.

Lemma accumulators_cover_the_words_witness :
  exists acc' w',
    main reference_library default_args plane_items empty_world = (Ok acc', w') /\
    (col_word (results_dict acc') = map fst plane_items /\
     length (col_aff_prop (results_dict acc')) = length plane_items /\
     length (col_kmeans_5 (results_dict acc')) = length plane_items /\
     length (col_kmeans_7 (results_dict acc')) = length plane_items /\
     length (col_averaging (results_dict acc')) = length plane_items /\
     length (col_aff_prop_clusters (results_dict acc')) = length plane_items /\
     forall word, In word (map fst plane_items) -> has_entries acc' word).
Proof.
  destruct (main_plane_run default_args empty_world eq_refl default_results_dir) as (acc' & w' & E).
  exists acc', w'. split; [exact E |].
  apply (accumulators_cover_the_words
           reference_library default_args plane_items acc' empty_world w' E).
Defined.

(** ** When the loop body ends well *)

Lemma filter_slice_embeddings (lib : Library) (regex : string) (oneEmb : bool)
    (embs es : list vec) (texts ts : list string) :
  filter_slice lib regex oneEmb embs texts = Ok (es, ts) ->
  forall e, In e es -> In e embs.
Proof.
  intros H e Hin.
  destruct (filter_slice_Ok_inv lib regex oneEmb embs texts _ H) as [Hle Hok].
  rewrite filter_slice_spec in H by assumption. cbv zeta in H.
  injection H as <- _.
  apply in_map_iff in Hin as ([e' t] & <- & Hin).
  apply (subsequence_In _ _ _ (subsequence_select oneEmb [] _)) in Hin.
  apply filter_In in Hin as [Hin _].
  apply (in_combine_l _ _ _ _ Hin).
Qed.

Lemma filter_occurrences_embeddings (lib : Library) (oneEmb : bool) (word : string)
    (emb : word_embeddings) (e1 e2 : list vec) (s1 s2 : list string) :
  filter_occurrences lib oneEmb word emb = Ok ((e1, s1), (e2, s2)) ->
  (forall e, In e e1 -> In e (t1 emb)) /\ (forall e, In e e2 -> In e (t2 emb)).
Proof.
  unfold filter_occurrences. cbv zeta.
  destruct (filter_slice lib (word_regex word) oneEmb (t1 emb) (t1_text emb))
    as [[es1 ts1] | ?] eqn:E1; [| discriminate].
  destruct (filter_slice lib (word_regex word) oneEmb (t2 emb) (t2_text emb))
    as [[es2 ts2] | ?] eqn:E2; [| discriminate].
  intros H. injection H as -> -> -> ->.
  split; eapply filter_slice_embeddings; eassumption.
Qed.

(** X18.  For a word whose embeddings all have one dimension, not zero,
    the loop body ends well exactly when the filter raises nothing and
    leaves both slices with an occurrence, the three estimator calls
    (affinity propagation without preference, k-means with 5 and with 7
    clusters and seed 0) on the pooled embeddings end well, the results
    directory is there or can be made, and the table and the seven pickle
    files can be opened. *)
Theorem word_succeeds_iff
    (lib : Library) (a : args) (i : nat) (word : string) (emb : word_embeddings)
    (acc : accumulators) (w : world) (d : nat) :
  aligned (results_dict acc) -> d <> O ->
  Forall (fun x => length x = d) (t1 emb) ->
  Forall (fun x => length x = d) (t2 emb) ->
  (exists acc' w', process_word lib a i word emb acc w = (Ok acc', w')) <->
  (exists e1 s1 e2 s2,
     filter_occurrences lib (one_embedding_per_sentence a) word emb =
       Ok ((e1, s1), (e2, s2)) /\
     e1 <> [] /\ e2 <> [] /\
     (exists r, AffinityPropagation_fit lib None (e1 ++ e2) = Ok r) /\
     (exists r, KMeans_fit lib 5 0 (e1 ++ e2) = Ok r) /\
     (exists r, KMeans_fit lib 7 0 (e1 ++ e2) = Ok r)) /\
  results_dir_ready lib w (semeval_results a) /\
  can_open lib (csv_path (semeval_results a) (language a)) = true /\
  can_open_pickles lib (semeval_results a) (language a).
Proof.
  intros Hal Hd F1 F2. split.
  - intros (acc' & w' & H).
    split; [| exact (process_word_inv_os _ _ _ _ _ _ _ _ _ H)].
    apply process_word_inv in H
      as (an & table & Hf & N1 & N2 & Eaff & Ekm5 & Ekm7 & _).
    exists (an_embeddings1 an), (an_texts1 an), (an_embeddings2 an), (an_texts2 an).
    repeat split; eauto.
  - intros ((e1 & s1 & e2 & s2 & Hf & N1 & N2 & [r1 Eaff] & [r2 Ekm5] & [r3 Ekm7])
            & Hready & Ocsv & Opkl).
    destruct (filter_occurrences_embeddings _ _ _ _ _ _ _ _ Hf) as [I1 I2].
    rewrite Forall_forall in F1, F2.
    apply (process_word_run lib a i word emb acc w d e1 e2 s1 s2 r1 r2 r3);
      try assumption; apply Forall_forall; auto.
Qed.

Lemma word_succeeds_iff_witness :
  (exists acc' w',
      process_word reference_library default_args 0 "plane_nn" plane_embeddings
                   initial_accumulators empty_world = (Ok acc', w')) <->
  (exists e1 s1 e2 s2,
     filter_occurrences reference_library
                        (one_embedding_per_sentence default_args)
                        "plane_nn" plane_embeddings =
       Ok ((e1, s1), (e2, s2)) /\
     e1 <> [] /\ e2 <> [] /\
     (exists r, AffinityPropagation_fit reference_library None (e1 ++ e2) = Ok r) /\
     (exists r, KMeans_fit reference_library 5 0 (e1 ++ e2) = Ok r) /\
     (exists r, KMeans_fit reference_library 7 0 (e1 ++ e2) = Ok r)) /\
  results_dir_ready reference_library empty_world (semeval_results default_args) /\
  can_open reference_library
           (csv_path (semeval_results default_args) (language default_args)) = true /\
  can_open_pickles reference_library (semeval_results default_args)
                   (language default_args).
Proof.
  apply (word_succeeds_iff reference_library default_args 0 "plane_nn"
           plane_embeddings initial_accumulators empty_world 1).
  - repeat split; reflexivity.
  - discriminate.
  - repeat constructor.
  - repeat constructor.
Defined.

(** ** The word without its part-of-speech suffix *)

Open Scope string_scope.

Lemma append_nil_r (s : string) : s ++ EmptyString = s.
Proof. induction s as [| c s IH]; simpl; [reflexivity | now rewrite IH]. Qed.

Lemma replace_from_no_underscore (old_rest new s t : string) :
  no_underscore s = true ->
  replace_from (String "_" old_rest) new 0 (s ++ t) =
  s ++ replace_from (String "_" old_rest) new 0 t.
Proof.
  induction s as [| c s IH]; intros H; [reflexivity |].
  simpl in H. apply andb_true_iff in H as [Hc Hs].
  cbn [String.append replace_from String.prefix].
  destruct (Ascii.ascii_dec "_" c) as [<- | Hne]; [discriminate |].
  f_equal. now apply IH.
Qed.

(** X19.  For a word without underscore, the pattern of the filter is the
    same for the word itself, for the word with the suffix [_nn] and for
    the word with the suffix [_vb]: both suffixes are stripped, and the
    word is left as it is. *)
Theorem strip_pos_suffix (base : string) :
  no_underscore base = true ->
  strip_pos (base ++ "_nn") = base /\
  strip_pos (base ++ "_vb") = base /\
  strip_pos base = base /\
  word_regex (base ++ "_nn") = word_regex base /\
  word_regex (base ++ "_vb") = word_regex base.
Proof.
  intros H.
  assert (E1 : strip_pos (base ++ "_nn") = base).
  { unfold strip_pos, replace.
    rewrite replace_from_no_underscore by assumption.
    cbn [replace_from String.prefix String.append String.length Nat.sub].
    rewrite replace_from_no_underscore by assumption.
    cbn. apply append_nil_r. }
  assert (E2 : strip_pos (base ++ "_vb") = base).
  { unfold strip_pos, replace.
    rewrite replace_from_no_underscore by assumption.
    cbn. rewrite append_nil_r.
    rewrite <- (append_nil_r base) at 1.
    rewrite replace_from_no_underscore by assumption.
    cbn. apply append_nil_r. }
  assert (E3 : strip_pos base = base).
  { unfold strip_pos, replace.
    rewrite <- (append_nil_r base) at 1.
    rewrite replace_from_no_underscore by assumption.
    cbn. rewrite append_nil_r.
    rewrite <- (append_nil_r base) at 1.
    rewrite replace_from_no_underscore by assumption.
    cbn. apply append_nil_r. }
  unfold word_regex. rewrite E1, E2, E3. auto.
Qed.

Lemma strip_pos_suffix_witness :
  strip_pos ("attack" ++ "_nn") = "attack" /\
  strip_pos ("attack" ++ "_vb") = "attack" /\
  strip_pos "attack" = "attack" /\
  word_regex ("attack" ++ "_nn") = word_regex "attack" /\
  word_regex ("attack" ++ "_vb") = word_regex "attack".
Proof.
  apply (strip_pos_suffix "attack"). reflexivity.
Defined.

Close Scope string_scope.

(** ** The values recorded for a word *)

Lemma divergence_value_range (labels1 labels2 : list Z) (w w' : world) (x : float64) :
  labels1 <> [] -> labels2 <> [] ->
  compute_divergence_from_cluster_labels labels1 labels2 w = (Ok x, w') ->
  valid_score x.
Proof.
  intros H1 H2 H.
  destruct (compute_divergence_run w labels1 labels2 H1 H2) as (w1 & E & _).
  rewrite E in H. injection H as <- _.
  destruct (list_set_spec (labels1 ++ labels2)) as [HU HIn].
  eexists. split; [reflexivity |].
  apply JS_divergence_bounds.
  - apply frequency_distribution; [assumption | assumption |].
    intros x Hx. apply HIn, in_or_app. now left.
  - apply frequency_distribution; [assumption | assumption |].
    intros x Hx. apply HIn, in_or_app. now right.
  - now rewrite !length_map.
Qed.

Lemma averaged_value_range (e1 e2 : list vec) (w w' : world) (d : R) :
  compute_averaged_embedding_dist e1 e2 w = (Ok d, w') -> 0 <= d <= 2.
Proof.
  unfold compute_averaged_embedding_dist.
  destruct (np_mean_axis0 e1) as [m1 |]; [| discriminate].
  destruct (np_mean_axis0 e2) as [m2 |]; [| discriminate].
  unfold bind, lift, print, ret.
  destruct (cosine_similarity m1 m2) as [c | e] eqn:E; [| discriminate].
  intros H. injection H as <- _.
  apply cosine_similarity_range in E. lra.
Qed.

Lemma split_labels_nonempty (e1 e2 : list vec) (labels : list Z) :
  e1 <> [] -> e2 <> [] -> length labels = length (e1 ++ e2) ->
  firstn (length e1) labels <> [] /\ skipn (length e1) labels <> [].
Proof.
  intros N1 N2 Hlen. rewrite length_app in Hlen.
  destruct (split_at_slice_boundary (length e1) (length e2) labels Hlen) as [L1 L2].
  split; intros E; rewrite E in *; simpl in *.
  - destruct e1; [contradiction | discriminate].
  - destruct e2; [contradiction | discriminate].
Qed.

Lemma list_set_count (labels : list Z) :
  labels <> [] ->
  (1 <= length (list_set labels) <= length labels)%nat.
Proof.
  intros N. destruct (list_set_spec labels) as [HU HIn]. split.
  - destruct labels as [| x labels]; [contradiction |].
    destruct (list_set (x :: labels)) eqn:E; [| simpl; lia].
    exfalso. apply (HIn x). now left.
  - apply NoDup_incl_length; [assumption |].
    intros x Hx. now apply HIn.
Qed.

(** The steps of the loop body, read back from a run that ended well. *)
Ltac invert_word_run H Haff Hkm :=
  unfold process_word in H; cbv zeta in H;
  apply bind_Ok_inv in H as (? & w1 & H1 & H); injection H1 as _ <-;
  apply bind_Ok_inv in H as ([[e1 t1'] [e2 t2']] & w2 & H2 & H);
  apply lift_Ok_inv in H2 as [Hf ->]; cbn [fst snd] in H;
  apply bind_Ok_inv in H as (? & w3 & H3 & H); injection H3 as _ <-;
  apply bind_Ok_inv in H as (? & w4 & H4 & H); injection H4 as _ <-;
  apply bind_Ok_inv in H as (avg & w5 & H5 & H);
  match goal with
  | Hx : compute_averaged_embedding_dist _ _ _ = _ |- _ =>
      pose proof (averaged_value_range _ _ _ _ _ Hx) as Ravg
  end;
  apply compute_averaged_inv in H5 as (N1 & N2 & _);
  apply bind_Ok_inv in H as (X & w6 & H6 & H);
  apply lift_Ok_inv in H6 as [HX ->]; apply np_concatenate_inv in HX; subst X;
  apply bind_Ok_inv in H as ([l_aff c_aff] & w7 & H7 & H);
  apply aff_prop_inv in H7 as [Eaff _]; apply Haff in Eaff;
  apply bind_Ok_inv in H as (d1 & w8 & H8 & H);
  apply bind_Ok_inv in H as ([l_km5 c_km5] & w9 & H9 & H);
  apply k_means_inv in H9 as [Ekm5 _]; apply Hkm in Ekm5;
  apply bind_Ok_inv in H as (d2 & w10 & H10 & H);
  apply bind_Ok_inv in H as ([l_km7 c_km7] & w11 & H11 & H);
  apply k_means_inv in H11 as [Ekm7 _]; apply Hkm in Ekm7;
  apply bind_Ok_inv in H as (d3 & w12 & H12 & H);
  apply bind_Ok_inv in H as (there & w12' & Hex & H);
  apply bind_Ok_inv in H as (? & wd & Hmk & H);
  apply bind_Ok_inv in H as (table & w13 & H13 & H);
  apply bind_Ok_inv in H as (? & w14 & H14 & H);
  apply bind_Ok_inv in H as (? & w15 & H15 & H);
  apply bind_Ok_inv in H as (? & w16 & H16 & H);
  injection H as <- _;
  cbn [fst snd] in *.

(** X20.  When the estimators give one label for every pooled embedding
    and the loop body ends well, what it adds to the columns of the
    results is: three divergence scores that are numbers between [0] and
    [ln 2] (none is nan), a distance between [0] and [2], and a number of
    clusters between [1] and the number of pooled occurrences. *)
Theorem recorded_values_are_in_range
    (lib : Library) (a : args) (i : nat) (word : string) (emb : word_embeddings)
    (acc acc' : accumulators) (w w' : world) :
  one_label_per_sample lib ->
  process_word lib a i word emb acc w = (Ok acc', w') ->
  exists (s1 s2 s3 : float64) (dist : R) (n : nat) (e1 e2 : list vec)
         (t1' t2' : list string),
    results_dict acc' =
      mk_results_dict
        (col_word (results_dict acc) ++ [word])
        (col_aff_prop (results_dict acc) ++ [s1])
        (col_kmeans_5 (results_dict acc) ++ [s2])
        (col_kmeans_7 (results_dict acc) ++ [s3])
        (col_averaging (results_dict acc) ++ [dist])
        (col_aff_prop_clusters (results_dict acc) ++ [n]) /\
    filter_occurrences lib (one_embedding_per_sentence a) word emb =
      Ok ((e1, t1'), (e2, t2')) /\
    valid_score s1 /\ valid_score s2 /\ valid_score s3 /\
    0 <= dist <= 2 /\
    (1 <= n <= length e1 + length e2)%nat.
Proof.
  intros (Haff & _ & Hkm) H.
  invert_word_run H Haff Hkm.
  destruct (split_labels_nonempty e1 e2 l_aff N1 N2 Eaff) as [A1 A2].
  destruct (split_labels_nonempty e1 e2 l_km5 N1 N2 Ekm5) as [B1 B2].
  destruct (split_labels_nonempty e1 e2 l_km7 N1 N2 Ekm7) as [C1 C2].
  exists d1, d2, d3, avg, (length (list_set l_aff)), e1, e2, t1', t2'.
  split; [reflexivity |]. split; [exact Hf |].
  split; [exact (divergence_value_range _ _ _ _ _ A1 A2 H8) |].
  split; [exact (divergence_value_range _ _ _ _ _ B1 B2 H10) |].
  split; [exact (divergence_value_range _ _ _ _ _ C1 C2 H12) |].
  split; [exact Ravg |].
  assert (Nl : l_aff <> []).
  { intros ->. simpl in Eaff. rewrite length_app in Eaff.
    destruct e1; [contradiction | discriminate]. }
  pose proof (list_set_count l_aff Nl) as Hc.
  rewrite Eaff, length_app in Hc. exact Hc.
Qed.

Lemma recorded_values_are_in_range_witness :
  exists acc' w',
    process_word reference_library default_args 0 "plane_nn" plane_embeddings
                 initial_accumulators empty_world = (Ok acc', w') /\
    exists (s1 s2 s3 : float64) (dist : R) (n : nat) (e1 e2 : list vec)
           (t1' t2' : list string),
      results_dict acc' =
        mk_results_dict
          (col_word (results_dict initial_accumulators) ++ ["plane_nn"%string])
          (col_aff_prop (results_dict initial_accumulators) ++ [s1])
          (col_kmeans_5 (results_dict initial_accumulators) ++ [s2])
          (col_kmeans_7 (results_dict initial_accumulators) ++ [s3])
          (col_averaging (results_dict initial_accumulators) ++ [dist])
          (col_aff_prop_clusters (results_dict initial_accumulators) ++ [n]) /\
      filter_occurrences reference_library
                         (one_embedding_per_sentence default_args)
                         "plane_nn" plane_embeddings =
        Ok ((e1, t1'), (e2, t2')) /\
      valid_score s1 /\ valid_score s2 /\ valid_score s3 /\
      0 <= dist <= 2 /\
      (1 <= n <= length e1 + length e2)%nat.
Proof.
  destruct (plane_word_run default_args empty_world default_results_dir) as (acc' & w' & E).
  exists acc', w'. split; [exact E |].
  apply (recorded_values_are_in_range
           reference_library default_args 0 "plane_nn" plane_embeddings
           initial_accumulators acc' empty_world w').
  - exact reference_library_one_label.
  - exact E.
Defined.

(** ** The values in the results file *)

Lemma process_word_valid_columns
    (lib : Library) (a : args) (i : nat) (word : string) (emb : word_embeddings)
    (acc acc' : accumulators) (w w' : world) :
  one_label_per_sample lib ->
  process_word lib a i word emb acc w = (Ok acc', w') ->
  valid_columns (results_dict acc) -> valid_columns (results_dict acc').
Proof.
  intros (Haff & _ & Hkm) H (V1 & V2 & V3 & V4 & V5).
  invert_word_run H Haff Hkm.
  destruct (split_labels_nonempty e1 e2 l_aff N1 N2 Eaff) as [A1 A2].
  destruct (split_labels_nonempty e1 e2 l_km5 N1 N2 Ekm5) as [B1 B2].
  destruct (split_labels_nonempty e1 e2 l_km7 N1 N2 Ekm7) as [C1 C2].
  assert (Nl : l_aff <> []).
  { intros ->. simpl in Eaff. rewrite length_app in Eaff.
    destruct e1; [contradiction | discriminate]. }
  unfold valid_columns. cbn.
  repeat split; apply Forall_app; (split; [assumption |]);
    (apply Forall_cons; [| apply Forall_nil]).
  - exact (divergence_value_range _ _ _ _ _ A1 A2 H8).
  - exact (divergence_value_range _ _ _ _ _ B1 B2 H10).
  - exact (divergence_value_range _ _ _ _ _ C1 C2 H12).
  - exact Ravg.
  - apply (list_set_count l_aff Nl).
Qed.

Lemma words_loop_valid_columns (lib : Library) (a : args)
    (items : dict word_embeddings) :
  one_label_per_sample lib ->
  forall (i : nat) (acc acc' : accumulators) (w w' : world),
    words_loop lib a i items acc w = (Ok acc', w') ->
    valid_columns (results_dict acc) -> valid_columns (results_dict acc').
Proof.
  intros Hlib.
  induction items as [| [word emb] items IH]; intros i acc acc' w w' H V.
  - simpl in H. injection H as <- _. exact V.
  - simpl in H. apply bind_Ok_inv in H as (acc1 & w1 & H1 & H).
    apply (IH _ _ _ _ _ H).
    exact (process_word_valid_columns _ _ _ _ _ _ _ _ _ Hlib H1 V).
Qed.

Lemma zip_rows_valid (ws : list string) :
  forall (c1 c2 c3 : list float64) (av : list R) (n : list nat),
    Forall valid_score c1 -> Forall valid_score c2 -> Forall valid_score c3 ->
    Forall (fun d => 0 <= d <= 2) av -> Forall (fun k => (1 <= k)%nat) n ->
    Forall valid_row (zip_rows ws c1 c2 c3 av n).
Proof.
  induction ws as [| w0 ws IH]; intros c1 c2 c3 av n F1 F2 F3 F4 F5.
  - constructor.
  - destruct c1 as [| x1 c1]; [constructor |].
    destruct c2 as [| x2 c2]; [constructor |].
    destruct c3 as [| x3 c3]; [constructor |].
    destruct av as [| x4 av]; [constructor |].
    destruct n as [| x5 n]; [constructor |].
    inversion F1; inversion F2; inversion F3; inversion F4; inversion F5; subst.
    simpl. constructor.
    + unfold valid_row. cbn. repeat split; assumption || tauto.
    + now apply IH.
Qed.

(** X21.  When the estimators give one label for every pooled embedding,
    the results file that a run leaves behind holds valid rows only: the
    three divergence scores of every row are numbers between [0] and
    [ln 2] (no nan reaches the file), its distance is between [0] and [2]
    and its number of clusters is at least one. *)
Theorem results_file_holds_valid_rows
    (lib : Library) (a : args) (items : dict word_embeddings)
    (acc' : accumulators) (w w' : world) :
  one_label_per_sample lib ->
  main lib a items w = (Ok acc', w') -> items <> [] ->
  exists table : list row,
    dict_get (files w') (csv_path (semeval_results a) (language a)) =
      Some (Csv table) /\
    Forall valid_row table.
Proof.
  intros Hlib H N. apply main_inv in H as (w0 & _ & H).
  destruct (words_loop_inv lib a items _ _ _ _ _ H) as [_ Hcsv].
  destruct (Hcsv N) as (table & Ht & Hget).
  exists (sort_values table). split; [exact Hget |].
  assert (V : valid_columns (results_dict acc')).
  { apply (words_loop_valid_columns lib a items Hlib _ _ _ _ _ H).
    unfold valid_columns. cbn. repeat split; constructor. }
  destruct V as (V1 & V2 & V3 & V4 & V5).
  assert (Vt : Forall valid_row table).
  { unfold from_dict in Ht.
    destruct (_ && _)%bool in Ht; [| discriminate].
    injection Ht as <-. now apply zip_rows_valid. }
  rewrite Forall_forall in *. intros r Hr. apply Vt.
  apply (Permutation_in r (sort_values_perm table) Hr).
Qed.

Lemma results_file_holds_valid_rows_witness :
  exists acc' w',
    main reference_library default_args plane_items empty_world = (Ok acc', w') /\
    exists table : list row,
      dict_get (files w') (csv_path "semeval_results/" "english") = Some (Csv table) /\
      Forall valid_row table.
Proof.
  destruct (main_plane_run default_args empty_world eq_refl default_results_dir) as (acc' & w' & E).
  exists acc', w'. split; [exact E |].
  apply (results_file_holds_valid_rows
           reference_library default_args plane_items acc' empty_world w'
           reference_library_one_label E).
  discriminate.
Defined.

(** ** The mean of the pairwise distances *)

Lemma cosine_distance_comm (x y : vec) : cosine_distance x y = cosine_distance y x.
Proof.
  unfold cosine_distance. now rewrite (dot_comm x y), (Rmult_comm (l2_norm x)).
Qed.

Lemma cosine_distance_range (x y : vec) :
  nonzero_vec x -> nonzero_vec y -> length x = length y ->
  0 <= cosine_distance x y <= 2.
Proof.
  intros Hx Hy Hl.
  pose proof (cosine_similarity_range x y _ (cosine_similarity_nonzero x y Hx Hy Hl)).
  unfold cosine_distance. lra.
Qed.

Lemma sumR_map_plus {A} (f g : A -> R) (l : list A) :
  sumR (map (fun x => f x + g x) l) = sumR (map f l) + sumR (map g l).
Proof. induction l as [| a l IH]; simpl; [lra | rewrite IH; lra]. Qed.

Lemma sumR_map_zero {A} (l : list A) : sumR (map (fun _ => 0) l) = 0.
Proof. induction l as [| a l IH]; simpl; [reflexivity | rewrite IH; lra]. Qed.

Lemma sumR_swap {A B} (f : A -> B -> R) (X : list A) (Y : list B) :
  sumR (map (fun x => sumR (map (f x) Y)) X) =
  sumR (map (fun y => sumR (map (fun x => f x y) X)) Y).
Proof.
  induction X as [| x X IH]; simpl.
  - now rewrite sumR_map_zero.
  - rewrite IH. now rewrite <- sumR_map_plus.
Qed.

Lemma mean_pairwise_comm (X Y : list vec) :
  mean_pairwise_cosine_distance X Y = mean_pairwise_cosine_distance Y X.
Proof.
  unfold mean_pairwise_cosine_distance. cbv zeta.
  rewrite !(sumR_list_prod cosine_distance), !length_prod, sumR_swap.
  rewrite (Nat.mul_comm (length X)). f_equal. f_equal.
  apply map_ext. intros y. f_equal. apply map_ext. intros x.
  apply cosine_distance_comm.
Qed.

Lemma sumR_bounds (c : R) (l : list R) :
  Forall (fun x => 0 <= x <= c) l -> 0 <= sumR l <= c * INR (length l).
Proof.
  induction 1 as [| x l Hx _ IH].
  - simpl. lra.
  - change (sumR (x :: l)) with (x + sumR l).
    change (length (x :: l)) with (S (length l)). rewrite S_INR. lra.
Qed.

Lemma mean_pairwise_range (d : nat) (X Y : list vec) :
  X <> [] -> Y <> [] ->
  Forall (fun x => nonzero_vec x /\ length x = d) X ->
  Forall (fun y => nonzero_vec y /\ length y = d) Y ->
  0 <= mean_pairwise_cosine_distance X Y <= 2.
Proof.
  intros NX NY FX FY. unfold mean_pairwise_cosine_distance. cbv zeta.
  set (l := map _ (list_prod X Y)).
  assert (Hl : Forall (fun v => 0 <= v <= 2) l).
  { subst l. apply Forall_forall. intros v Hv.
    apply in_map_iff in Hv as ([x y] & <- & Hxy).
    apply in_prod_iff in Hxy as [Hx Hy].
    rewrite Forall_forall in FX, FY.
    destruct (FX x Hx) as [Zx Lx]. destruct (FY y Hy) as [Zy Ly].
    cbn [fst snd].
    apply cosine_distance_range; [assumption | assumption | congruence]. }
  apply sumR_bounds in Hl.
  assert (Hlen : length l = length (list_prod X Y)) by (subst l; apply length_map).
  rewrite Hlen in Hl.
  assert (Hpos : 0 < INR (length (list_prod X Y))).
  { rewrite length_prod. apply lt_0_INR.
    destruct X; [contradiction |]. destruct Y; [contradiction |]. simpl. lia. }
  split.
  - apply Rmult_le_reg_r with (INR (length (list_prod X Y))); [assumption |].
    unfold Rdiv. rewrite Rmult_assoc, Rinv_l by lra. lra.
  - apply Rmult_le_reg_r with (INR (length (list_prod X Y))); [assumption |].
    unfold Rdiv. rewrite Rmult_assoc, Rinv_l by lra. lra.
Qed.

(** X22.  For two nonempty lists of nonzero vectors of one dimension, the
    mean that [compute_mean_dist] prints is a number between [0] and [2],
    and it is the same number when the two lists change places. *)
Theorem compute_mean_dist_symmetric_bounded
    (d : nat) (X Y : list vec) (w : world) :
  X <> [] -> Y <> [] ->
  Forall (fun x => nonzero_vec x /\ length x = d) X ->
  Forall (fun y => nonzero_vec y /\ length y = d) Y ->
  exists m : R,
    compute_mean_dist X Y w =
      (Ok PyNone, printed w [PyStr "Mean cosine dist:"; PyFloat (fin m)]) /\
    compute_mean_dist Y X w =
      (Ok PyNone, printed w [PyStr "Mean cosine dist:"; PyFloat (fin m)]) /\
    0 <= m <= 2.
Proof.
  intros HX HY FX FY.
  assert (run : forall A B : list vec,
             A <> [] -> B <> [] ->
             Forall (fun x => nonzero_vec x /\ length x = d) A ->
             Forall (fun y => nonzero_vec y /\ length y = d) B ->
             compute_mean_dist A B w =
             (Ok PyNone,
              printed w [PyStr "Mean cosine dist:";
                         PyFloat (fin (mean_pairwise_cosine_distance A B))])).
  { intros A B NA NB FA FB. unfold compute_mean_dist. cbv zeta.
    unfold bind at 1. rewrite (outer_means d) by assumption.
    rewrite np_mean_fin by (destruct A; [contradiction | discriminate]).
    rewrite length_map, mean_of_means by assumption.
    reflexivity. }
  exists (mean_pairwise_cosine_distance X Y). split; [| split].
  - now apply run.
  - rewrite (mean_pairwise_comm X Y). now apply run.
  - now apply (mean_pairwise_range d).
Qed.

Lemma compute_mean_dist_symmetric_bounded_witness :
  exists m : R,
    compute_mean_dist [[1; 0]] [[0; 1]] empty_world =
      (Ok PyNone, printed empty_world [PyStr "Mean cosine dist:"; PyFloat (fin m)]) /\
    compute_mean_dist [[0; 1]] [[1; 0]] empty_world =
      (Ok PyNone, printed empty_world [PyStr "Mean cosine dist:"; PyFloat (fin m)]) /\
    0 <= m <= 2.
Proof.
  apply (compute_mean_dist_symmetric_bounded 2 [[1; 0]] [[0; 1]] empty_world).
  - discriminate.
  - discriminate.
  - constructor; [split; [apply Exists_cons_hd; lra | reflexivity] | constructor].
  - constructor; [split; [apply Exists_cons_tl, Exists_cons_hd; lra | reflexivity]
                 | constructor].
Defined.

(** ** The files that a run leaves alone *)

Lemma keeps_other_files_bind {A B} (paths : list string) (m : M A) (k : A -> M B) :
  keeps_other_files paths m -> (forall a, keeps_other_files paths (k a)) ->
  keeps_other_files paths (bind m k).
Proof.
  intros Hm Hk w o w' H p Hp. unfold bind in H.
  destruct (m w) as [[a | e] w1] eqn:E.
  - rewrite (Hk a _ _ _ H p Hp). apply (Hm _ _ _ E p Hp).
  - injection H as _ <-. apply (Hm _ _ _ E p Hp).
Qed.

Lemma keeps_other_files_of_keeps_files {A} (paths : list string) (m : M A) :
  keeps_files m -> keeps_other_files paths m.
Proof. intros Hm w o w' H p _. now rewrite (Hm _ _ _ H). Qed.

(** A write changes the file that is written, if any. *)
Lemma keeps_other_files_write (lib : Library) (paths : list string)
    (path : string) (c : file_content) :
  In path paths -> keeps_other_files paths (write_file lib path c).
Proof.
  intros Hin w o w' H p Hp. unfold write_file in H.
  destruct (can_open lib path).
  - injection H as _ <-. cbn [files]. apply dict_get_set_other.
    intros ->. contradiction.
  - unfold raise in H. now injection H as _ <-.
Qed.

Ltac keeps_other_files_step a :=
  first [ apply keeps_other_files_write;
          unfold output_paths, pickle_path, csv_path; simpl; tauto
        | apply keeps_other_files_of_keeps_files;
          first [ keeps_files_step
                | apply keeps_disk_files;
                  first [apply keeps_disk_ret | apply keeps_disk_raise] ] ].

Lemma process_word_other_files (lib : Library) (a : args) (i : nat) (word : string)
    (emb : word_embeddings) (acc : accumulators) :
  keeps_other_files (output_paths a) (process_word lib a i word emb acc).
Proof.
  unfold process_word, save_pickles. cbv zeta.
  repeat first
    [ keeps_other_files_step a
    | apply keeps_other_files_bind; [| intros ?] ].
Qed.

Lemma words_loop_other_files (lib : Library) (a : args)
    (items : dict word_embeddings) (p : string) :
  ~ In p (output_paths a) ->
  forall (i : nat) (acc : accumulators) (w w' : world) (o : outcome accumulators),
    words_loop lib a i items acc w = (o, w') ->
    dict_get (files w') p = dict_get (files w) p.
Proof.
  intros Hp. induction items as [| [word emb] items IH]; intros i acc w w' o H.
  - simpl in H. unfold ret in H. now injection H as _ <-.
  - simpl in H. unfold bind in H.
    destruct (process_word lib a i word emb acc w) as [[acc1 | e] w1] eqn:E.
    + rewrite (IH _ _ _ _ _ H).
      exact (process_word_other_files _ _ _ _ _ _ _ _ _ E p Hp).
    + injection H as _ <-.
      exact (process_word_other_files _ _ _ _ _ _ _ _ _ E p Hp).
Qed.

Lemma unused_paths_are_no_outputs (a : args) :
  ~ In (pickle_path a "labels_") (output_paths a) /\
  ~ In (pickle_path a "centroids_") (output_paths a).
Proof.
  split; intros H; unfold output_paths in H; simpl in H;
    repeat (destruct H as [H | H]);
    try contradiction;
    unfold pickle_path, csv_path in H; apply append_inj_l in H;
    simpl in H; discriminate.
Qed.

(** X23.  Whatever its outcome, a run changes no file but the table and
    the seven pickles that the loop body writes.  In particular the two
    paths that the loop body builds first for the labels and the
    centroids, [labels_<lang>.pkl] and [centroids_<lang>.pkl], are left
    alone: they are replaced by the paths of the three clusterings before
    anything is written. *)
Theorem run_changes_its_outputs_only
    (lib : Library) (a : args) (items : dict word_embeddings)
    (w w' : world) (o : outcome accumulators) :
  main lib a items w = (o, w') ->
  (forall p : string,
     ~ In p (output_paths a) -> dict_get (files w') p = dict_get (files w) p) /\
  dict_get (files w') (pickle_path a "labels_") =
    dict_get (files w) (pickle_path a "labels_") /\
  dict_get (files w') (pickle_path a "centroids_") =
    dict_get (files w) (pickle_path a "centroids_").
Proof.
  intros H.
  assert (frame : forall p : string,
             ~ In p (output_paths a) ->
             dict_get (files w') p = dict_get (files w) p).
  { intros p Hp. unfold main in H.
    destruct (negb (existsb (String.eqb (language a)) languages)).
    - unfold bind, print, raise in H. now injection H as _ <-.
    - cbv zeta in H. unfold bind at 1 in H. unfold print at 1 in H.
      apply (words_loop_other_files lib a items p Hp) in H. exact H. }
  destruct (unused_paths_are_no_outputs a) as [U1 U2].
  split; [exact frame |]. split; apply frame; assumption.
Qed.

Lemma run_changes_its_outputs_only_witness :
  exists acc' w',
    main reference_library default_args plane_items empty_world = (Ok acc', w') /\
    (forall p : string,
       ~ In p (output_paths default_args) ->
       dict_get (files w') p = dict_get (files empty_world) p) /\
    dict_get (files w') (pickle_path default_args "labels_") =
      dict_get (files empty_world) (pickle_path default_args "labels_") /\
    dict_get (files w') (pickle_path default_args "centroids_") =
      dict_get (files empty_world) (pickle_path default_args "centroids_").
Proof.
  destruct (main_plane_run default_args empty_world eq_refl default_results_dir) as (acc' & w' & E).
  exists acc', w'. split; [exact E |].
  exact (run_changes_its_outputs_only
           reference_library default_args plane_items empty_world w' (Ok acc') E).
Defined.

(** ** The two distances on slices of one occurrence *)

(** X24.  When each slice holds one occurrence, the two distances of the
    script agree: for nonzero vectors [x] and [y] of one dimension,
    [compute_averaged_embedding_dist] returns the cosine distance of [x]
    and [y], and [compute_mean_dist] prints the same number. *)
Theorem distances_agree_on_single_occurrences (x y : vec) (w : world) :
  nonzero_vec x -> nonzero_vec y -> length x = length y ->
  compute_averaged_embedding_dist [x] [y] w =
    (Ok (cosine_distance x y),
     printed w [PyStr "Averaged embedding cosine dist:";
                PyFloat (fin (cosine_distance x y))]) /\
  compute_mean_dist [x] [y] w =
    (Ok PyNone,
     printed w [PyStr "Mean cosine dist:"; PyFloat (fin (cosine_distance x y))]).
Proof.
  intros Hx Hy Hl. split.
  - unfold compute_averaged_embedding_dist, np_mean_axis0. cbv zeta.
    cbn [fold_left length INR]. rewrite !map_div_one.
    unfold bind at 1. unfold lift.
    rewrite (cosine_similarity_nonzero x y Hx Hy Hl).
    reflexivity.
  - unfold compute_mean_dist. cbv zeta. unfold bind at 1.
    rewrite (outer_means (length x) [x] [y]);
      [| discriminate
       | constructor; [split; [assumption | reflexivity] | constructor]
       | constructor; [split; [assumption | now symmetry] | constructor]].
    rewrite np_mean_fin by discriminate.
    unfold printed. cbn [map sumR fold_right length INR].
    replace (((cosine_distance x y + 0) / 1 + 0) / 1) with (cosine_distance x y)
      by field.
    reflexivity.
Qed.

Lemma distances_agree_on_single_occurrences_witness :
  compute_averaged_embedding_dist [[1; 0]] [[0; 1]] empty_world =
    (Ok (cosine_distance [1; 0] [0; 1]),
     printed empty_world [PyStr "Averaged embedding cosine dist:";
                          PyFloat (fin (cosine_distance [1; 0] [0; 1]))]) /\
  compute_mean_dist [[1; 0]] [[0; 1]] empty_world =
    (Ok PyNone,
     printed empty_world [PyStr "Mean cosine dist:";
                          PyFloat (fin (cosine_distance [1; 0] [0; 1]))]).
Proof.
  apply (distances_agree_on_single_occurrences [1; 0] [0; 1] empty_world).
  - apply Exists_cons_hd; lra.
  - apply Exists_cons_tl, Exists_cons_hd; lra.
  - reflexivity.
Defined.
